(** * browserq: the job store and the worker loop

    A shallow embedding of [src/browserq/database.py] and
    [src/browserq/worker.py] (the copy under [app/worker.py] differs only in
    log texts and in how the worker is started).

    - [Database]: the two SQLite tables as lists of rows, and the functions
      of [database.py] as functions on the database contents.
    - [Claiming]: several connections calling [get_next_job] at once, as a
      step relation in which [BEGIN IMMEDIATE] takes the write lock.
    - [Worker]: [worker_loop], [_cancel_task] and [_shutdown_browser] with
      exceptions as values and the calls to the outside world recorded in a
      trace.
    - [Startup]: [start_worker], and the worker name of [app/worker.py]. *)

From Stdlib Require Import ZArith Lia.
From stdpp Require Import base option list relations sorting strings gmap.

(** Modelled from the spec: the enum [jobs.JobStatus]; the module [jobs]
    is not among the source files.  The spec lists the statuses as
    [Pending | InProgress | Done | Failed]; the code uses the members
    [PENDING], [IN_PROGRESS], [DONE] and [FAILED]. *)
Inductive JobStatus := PENDING | IN_PROGRESS | DONE | FAILED.

#[global] Instance JobStatus_eq_dec : EqDecision JobStatus.
Proof. solve_decision. Defined.

(** A [bytes] value. *)
Definition bytes := list Byte.byte.

(** The decoded JSON object of the [input] column: keys and encoded
    values.  The worker passes it to the job constructor as keyword
    arguments and never looks inside. *)
Definition JsonObject := list (string * string).

(** Python truthiness of a [bytes | None] value: [None] and [b""] are
    false. *)
Definition truthy (output : option bytes) : bool :=
  match output with
  | Some (_ :: _) => true
  | _ => false
  end.

Module Database.

(** [class DBJob]: a row of the table [jobs].  Timestamps are numbers here;
    SQLite keeps them as ISO-8601 text, whose text order is the order of
    time. *)
Record DBJob := mkDBJob {
  id : Z;
  name : string;
  input : JsonObject;
  status : JobStatus;
  created_at : Z;
  updated_at : option Z;
  worker : option string
}.

(** [class DBOutput]: a row of the table [outputs]. *)
Record DBOutput := mkDBOutput {
  output_id : Z;
  job_id : Z;
  output : option bytes
}.

(** What is behind an [AsyncConnection]: the rows of both tables in rowid
    order, and for each table the largest rowid handed out so far (the
    [sqlite_sequence] entry of an [AUTOINCREMENT] key). *)
Record DB := mkDB {
  jobs : list DBJob;
  outputs : list DBOutput;
  jobs_seq : Z;
  outputs_seq : Z
}.

(** The rowid an [AUTOINCREMENT] key gives to a new row: one more than the
    largest rowid that ever existed in the table. *)
Definition next_rowid (seq : Z) (rowids : list Z) : Z :=
  (foldr Z.max seq rowids + 1)%Z.

Definition set_status (s : JobStatus) (j : DBJob) : DBJob :=
  mkDBJob (id j) (name j) (input j) s (created_at j) (updated_at j) (worker j).

Definition set_updated_at (t : option Z) (j : DBJob) : DBJob :=
  mkDBJob (id j) (name j) (input j) (status j) (created_at j) t (worker j).

Definition set_worker (w : option string) (j : DBJob) : DBJob :=
  mkDBJob (id j) (name j) (input j) (status j) (created_at j) (updated_at j) w.

(** [UPDATE jobs SET ... WHERE id = ?]: every row with that id is
    rewritten, the others stay. *)
Definition update_jobs_where_id (id_ : Z) (f : DBJob → DBJob)
    (rows : list DBJob) : list DBJob :=
  (λ r, if decide (id r = id_) then f r else r) <$> rows.

(** [create_job]: [INSERT INTO jobs (name, input, status) VALUES (?, ?, ?)]
    with [PENDING]; [id] comes from the key, [created_at] from the column
    default (the clock [now]), [updated_at] and [worker] are [NULL]. *)
Definition create_job (conn : DB) (now : Z) (name_ : string)
    (input_json : JsonObject) : DB * DBJob :=
  let new_id := next_rowid (jobs_seq conn) (id <$> jobs conn) in
  let row := mkDBJob new_id name_ input_json PENDING now None None in
  (mkDB (jobs conn ++ [row]) (outputs conn) new_id (outputs_seq conn), row).

(** [get_job_by_id]: [fetchone] of the rows with that id. *)
Definition get_job_by_id (conn : DB) (id_ : Z) : option DBJob :=
  head (filter (λ r, id r = id_) (jobs conn)).

(** [get_job_result_by_job_id]: [fetchone] of the output rows of a job. *)
Definition get_job_result_by_job_id (conn : DB) (job_id_ : Z)
    : option DBOutput :=
  head (filter (λ o, job_id o = job_id_) (outputs conn)).

(** [ORDER BY created_at ASC LIMIT 1]: a row with the smallest
    [created_at].  Among rows of equal [created_at] SQL leaves the choice
    open; the first in rowid order is taken here. *)
Fixpoint oldest (rows : list DBJob) : option DBJob :=
  match rows with
  | [] => None
  | r :: rows =>
      match oldest rows with
      | Some r' =>
          if decide (created_at r' < created_at r)%Z then Some r' else Some r
      | None => Some r
      end
  end.

(** The [SELECT] of [get_next_job]:
    [WHERE status = 'pending' ORDER BY created_at ASC LIMIT 1]. *)
Definition select_next_pending (rows : list DBJob) : option DBJob :=
  oldest (filter (λ r, status r = PENDING) rows).

(** The [UPDATE] of [get_next_job]:
    [SET status = 'in_progress', updated_at = DATETIME('now'), worker = ?
     WHERE id = ?]. *)
Definition mark_in_progress (conn : DB) (now : Z) (worker_ : string)
    (id_ : Z) : DB :=
  mkDB (update_jobs_where_id id_
          (λ r, set_worker (Some worker_)
                  (set_updated_at (Some now) (set_status IN_PROGRESS r)))
          (jobs conn))
       (outputs conn) (jobs_seq conn) (outputs_seq conn).

(** [get_next_job].  Between [BEGIN IMMEDIATE] and [commit]/[rollback] the
    connection holds the write lock, so the function runs on the database
    as one step here; [Claiming] below splits it into its statements.  The
    returned object is built from the selected row, with [status] and
    [worker] overwritten after the commit; its [updated_at] is the one
    that was read. *)
Definition get_next_job (conn : DB) (now : Z) (worker_ : string)
    : DB * option DBJob :=
  match select_next_pending (jobs conn) with
  | None => (conn, None)
  | Some db_job =>
      (mark_in_progress conn now worker_ (id db_job),
       Some (set_worker (Some worker_) (set_status IN_PROGRESS db_job)))
  end.

(** [update_job_status]: the [UPDATE] is unconditional; the [INSERT] into
    [outputs] happens when [output] is truthy. *)
Definition update_job_status (conn : DB) (now : Z) (job_id_ : Z)
    (status_ : JobStatus) (output_ : option bytes) : DB :=
  let rows :=
    update_jobs_where_id job_id_
      (λ r, set_updated_at (Some now) (set_status status_ r)) (jobs conn) in
  if truthy output_ then
    let new_id := next_rowid (outputs_seq conn) (output_id <$> outputs conn) in
    mkDB rows (outputs conn ++ [mkDBOutput new_id job_id_ output_])
         (jobs_seq conn) new_id
  else
    mkDB rows (outputs conn) (jobs_seq conn) (outputs_seq conn).

(** The status of the job [id_] as [get_job_by_id] reads it. *)
Definition status_of (conn : DB) (id_ : Z) : option JobStatus :=
  status <$> get_job_by_id conn id_.

(** The primary key of [jobs]: no two rows share an id. *)
Definition unique_ids (conn : DB) : Prop := NoDup (id <$> jobs conn).

(** The calls of the store's writing functions, as data. *)
Inductive op :=
  | Enqueue (now : Z) (name_ : string) (input_json : JsonObject)
  | Claim (now : Z) (worker_ : string)
  | Complete (now : Z) (job_id_ : Z) (status_ : JobStatus)
      (output_ : option bytes).

Definition apply_op (conn : DB) (o : op) : DB :=
  match o with
  | Enqueue now name_ input_json => (create_job conn now name_ input_json).1
  | Claim now worker_ => (get_next_job conn now worker_).1
  | Complete now job_id_ status_ output_ =>
      update_job_status conn now job_id_ status_ output_
  end.

Definition apply_ops (conn : DB) (ops : list op) : DB :=
  foldl apply_op conn ops.

(** [status: Literal[jobs.JobStatus.DONE, jobs.JobStatus.FAILED]]. *)
Definition final (s : JobStatus) : Prop := s = DONE ∨ s = FAILED.

Definition well_typed (o : op) : Prop :=
  match o with
  | Complete _ _ status_ _ => final status_
  | _ => True
  end.

(** The edges [Pending → InProgress → {Done, Failed}]. *)
Inductive transition : JobStatus → JobStatus → Prop :=
  | claim_edge : transition PENDING IN_PROGRESS
  | done_edge : transition IN_PROGRESS DONE
  | failed_edge : transition IN_PROGRESS FAILED.

(** How far along those edges a status is. *)
Definition rank (s : JobStatus) : nat :=
  match s with
  | PENDING => 0
  | IN_PROGRESS => 1
  | DONE | FAILED => 2
  end.

(** Every [Complete] of [ops] is for a job that is [IN_PROGRESS] when its
    turn comes, or for an id that no job has. *)
Fixpoint completes_claimed (conn : DB) (ops : list op) : Prop :=
  match ops with
  | [] => True
  | o :: ops =>
      match o with
      | Complete _ job_id_ _ _ =>
          ∀ s, status_of conn job_id_ = Some s → s = IN_PROGRESS
      | _ => True
      end ∧ completes_claimed (apply_op conn o) ops
  end.

(** The jobs that one [get_next_job] per clock reading of [nows] returns to
    the worker [worker_], in the order of the calls. *)
Fixpoint claims (conn : DB) (worker_ : string) (nows : list Z)
    : list DBJob :=
  match nows with
  | [] => []
  | now :: nows =>
      match get_next_job conn now worker_ with
      | (conn', Some job) => job :: claims conn' worker_ nows
      | (conn', None) => claims conn' worker_ nows
      end
  end.

(** The jobs that the [Claim]s among [ops] return, in the order of the
    calls. *)
Fixpoint claimed_in (conn : DB) (ops : list op) : list DBJob :=
  match ops with
  | [] => []
  | o :: ops =>
      match o with
      | Claim now worker_ =>
          match (get_next_job conn now worker_).2 with
          | Some job => [job]
          | None => []
          end
      | _ => []
      end ++ claimed_in (apply_op conn o) ops
  end.

(** The clock that stamps [created_at] does not run backwards: no
    [Enqueue] of [ops] is stamped earlier than a job already in the
    store. *)
Fixpoint clock_monotone (conn : DB) (ops : list op) : Prop :=
  match ops with
  | [] => True
  | o :: ops =>
      match o with
      | Enqueue now _ _ => ∀ r, r ∈ jobs conn → (created_at r ≤ now)%Z
      | _ => True
      end ∧ clock_monotone (apply_op conn o) ops
  end.

(** [create_job] for each request in turn. *)
Definition enqueue_all (conn : DB)
    (requests : list (Z * string * JsonObject)) : DB :=
  foldl (λ c r, (create_job c r.1.1 r.1.2 r.2).1) conn requests.

(** What a call [get_next_job conn now worker_] has to come out as: either
    one row, [PENDING] and no younger than any [PENDING] row, has become
    [IN_PROGRESS] with the worker and the time written into it, every
    other row and table is as before, and the row is returned with its
    new status and worker; or [conn] has no [PENDING] row, nothing has
    changed and nothing is returned. *)
Definition claims_oldest_pending (conn : DB) (now : Z) (worker_ : string)
    (out : DB * option DBJob) : Prop :=
  match out.2 with
  | Some job =>
      ∃ l1 row l2,
        jobs conn = l1 ++ row :: l2 ∧
        status row = PENDING ∧
        (∀ r, r ∈ jobs conn → status r = PENDING →
              (created_at row ≤ created_at r)%Z) ∧
        out.1 =
          mkDB (l1 ++ mkDBJob (id row) (name row) (input row) IN_PROGRESS
                        (created_at row) (Some now) (Some worker_) :: l2)
               (outputs conn) (jobs_seq conn) (outputs_seq conn) ∧
        job = mkDBJob (id row) (name row) (input row) IN_PROGRESS
                (created_at row) (updated_at row) (Some worker_)
  | None =>
      (∀ r, r ∈ jobs conn → status r ≠ PENDING) ∧ out.1 = conn
  end.

End Database.

(** ** Several connections claiming at once

    Each caller of [get_next_job] works on a connection of its own and
    runs the statements of the function one at a time; a schedule picks
    whose statement runs next.  [BEGIN IMMEDIATE] takes SQLite's write
    lock, which one connection holds at a time: a caller that finds it
    taken waits (the busy timeout is not modelled).  The [UPDATE] is
    applied to the transaction's own copy of the database and [commit]
    installs it. *)
Module Claiming.
Import Database.

(** Where a caller stands inside [get_next_job]. *)
Inductive pc :=
  | AtBegin                              (* before [BEGIN IMMEDIATE] *)
  | AtSelect                             (* lock held, before the [SELECT] *)
  | AtBranch (result : option DBJob)     (* row fetched, before [if not result] *)
  | AtCommit (db_job : DBJob) (tx : DB)  (* [UPDATE] done, before [commit] *)
  | Returned (r : option DBJob).

Record Call := mkCall {
  call_worker : string;
  call_now : Z;
  call_pc : pc
}.

Record System := mkSystem {
  committed : DB;
  writer : option nat;
  calls : list Call
}.

Definition at_pc (c : Call) (p : pc) : Call :=
  mkCall (call_worker c) (call_now c) p.

(** One statement of caller [i]; [None] when the caller has nothing to run
    (it has returned, or it waits for the lock). *)
Definition step (i : nat) (s : System) : option System :=
  match calls s !! i with
  | None => None
  | Some c =>
      match call_pc c with
      | AtBegin =>
          match writer s with
          | Some _ => None
          | None =>
              Some (mkSystem (committed s) (Some i)
                      (<[i := at_pc c AtSelect]> (calls s)))
          end
      | AtSelect =>
          Some (mkSystem (committed s) (writer s)
                  (<[i := at_pc c
                            (AtBranch (select_next_pending (jobs (committed s))))]>
                     (calls s)))
      | AtBranch None =>
          Some (mkSystem (committed s) None
                  (<[i := at_pc c (Returned None)]> (calls s)))
      | AtBranch (Some db_job) =>
          Some (mkSystem (committed s) (writer s)
                  (<[i := at_pc c
                            (AtCommit db_job
                               (mark_in_progress (committed s) (call_now c)
                                  (call_worker c) (id db_job)))]>
                     (calls s)))
      | AtCommit db_job tx =>
          Some (mkSystem tx None
                  (<[i := at_pc c
                            (Returned
                               (Some (set_worker (Some (call_worker c))
                                        (set_status IN_PROGRESS db_job))))]>
                     (calls s)))
      | Returned _ => None
      end
  end.

(** A schedule names, statement by statement, the caller that runs; a
    caller that cannot run leaves the system as it is. *)
Definition run (schedule : list nat) (s : System) : System :=
  foldl (λ s i, default s (step i s)) s schedule.

(** [callers] (worker name and clock reading of each) all about to call
    [get_next_job] on the database [conn]. *)
Definition start (conn : DB) (callers : list (string * Z)) : System :=
  mkSystem conn None ((λ c, mkCall c.1 c.2 AtBegin) <$> callers).

Definition has_returned (c : Call) : bool :=
  match call_pc c with Returned _ => true | _ => false end.

Definition all_returned (s : System) : Prop :=
  Forall (λ c, has_returned c = true) (calls s).

(** What caller [i] got back: [Some None] for no job, [Some (Some j)] for
    a job, [None] while the call has not returned. *)
Definition returned (s : System) (i : nat) : option (option DBJob) :=
  match calls s !! i with
  | Some c => match call_pc c with Returned r => Some r | _ => None end
  | None => None
  end.

(** The schedule that lets the callers run one after the other. *)
Definition one_by_one (n : nat) : list nat :=
  concat ((λ i, replicate 4 i) <$> seq 0 n).

End Claiming.

(** ** The worker

    Exceptions are values, awaited calls are functions of the state that
    either return or raise, and every call that leaves the worker (store,
    browser, task, sleep, logger) is appended to a trace.  The store calls
    themselves do not fail here and are not interrupted. *)
Module Worker.
Import Database.

(** The exception classes the worker tells apart.  [CancelledError] is
    [asyncio.CancelledError], which derives from [BaseException] and not
    from [Exception]; [PlaywrightError] is [playwright.async_api.Error]
    with its subclasses; [TimeoutError] is [asyncio.TimeoutError];
    the others derive from [Exception].  [KeyboardInterrupt] and
    [SystemExit] raised inside a task stop the event loop itself and reach
    the worker as a cancellation. *)
Inductive exn :=
  | CancelledError
  | PlaywrightError
  | TimeoutError
  | KeyError
  | TypeError
  | OtherException.

#[global] Instance exn_eq_dec : EqDecision exn.
Proof. solve_decision. Defined.

(** [isinstance(e, Exception)]. *)
Definition is_Exception (e : exn) : bool :=
  match e with CancelledError => false | _ => true end.

(** [isinstance(e, (asyncio.CancelledError, playwright.async_api.Error))]. *)
Definition is_interruption (e : exn) : bool :=
  match e with CancelledError | PlaywrightError => true | _ => false end.

(** [isinstance(e, (asyncio.TimeoutError, playwright.async_api.Error))]. *)
Definition is_close_failure (e : exn) : bool :=
  match e with TimeoutError | PlaywrightError => true | _ => false end.

Inductive result (A : Type) :=
  | Ok (a : A)
  | Raise (e : exn).
Arguments Ok {A} a.
Arguments Raise {A} e.

(** The coroutine [execute(page)] of a job: what it ends with when it is
    left to run, and what it ends with when a cancellation is thrown into
    it on the way (as a rule [Raise CancelledError]). *)
Record Coroutine := mkCoroutine {
  run : result (option bytes);
  run_cancelled : result (option bytes)
}.

(** An instance of a job class; [execute] is given the page and returns
    the coroutine. *)
Record JobInstance := mkJobInstance {
  execute : Coroutine
}.

(** A job class: its constructor takes the input as keyword arguments and
    may raise. *)
Abbreviation JobClass := (JsonObject → result JobInstance).

(** An [asyncio.Task]. *)
Inductive task_state :=
  | Pending
  | CancelRequested
  | Finished (r : result (option bytes)).

Record Task := mkTask {
  coro : Coroutine;
  state : task_state
}.

(** [task.done()]. *)
Definition done (t : Task) : bool :=
  match state t with Finished _ => true | _ => false end.

(** A launched browser: what [close()] ends with and how long it takes
    when it is left to run, and what it ends with, and how long after the
    cancellation, when it is cancelled on the way (as a rule with
    [Raise CancelledError], at once).  The times are in the unit of the
    timeout of [_shutdown_browser]. *)
Record Browser := mkBrowser {
  close : result unit;
  close_duration : Z;
  close_cancelled : result unit;
  cancel_duration : Z
}.

Inductive level := DEBUG | INFO | WARNING | ERROR.

Inductive message :=
  | ReadyToWork
  | AliveAndPolling
  | StartingJob (job_id_ : Z) (job_name : string)
  | JobInterrupted (job_id_ : Z)
  | JobExecutionFailed
  | JobIsDone (job_id_ : Z)
  | ShuttingDownWorker
  | CleanUpError (e : exn)
  | CloseFailed (e : exn).

Inductive event :=
  | Log (logger : string) (l : level) (m : message)
  | Launch
  | GetNextJob (worker_ : string) (r : option DBJob)
  | Sleep (seconds : Z)
  | NewContext
  | NewPage
  | CreateTask (task : nat)
  | AwaitTask (task : nat)
  | CancelTask (task : nat)
  | ClosePage
  | CloseContext
  | UpdateJobStatus (job_id_ : Z) (s : JobStatus) (o : option bytes)
  | CloseBrowser (timeout waited : Z).

(** The state a worker runs on: the database behind its connection, the
    tasks it has created, the trace, and the local variables of
    [worker_loop] that outlive an iteration. *)
Record State := mkState {
  db : DB;
  tasks : list Task;
  trace : list event;
  shutdown : bool;
  last_heartbeat : Z;
  browser : option Browser;
  current_job_task : option nat
}.

Definition with_db (d : DB) (s : State) : State :=
  mkState d (tasks s) (trace s) (shutdown s) (last_heartbeat s) (browser s)
    (current_job_task s).

Definition with_tasks (ts : list Task) (s : State) : State :=
  mkState (db s) ts (trace s) (shutdown s) (last_heartbeat s) (browser s)
    (current_job_task s).

Definition with_trace (tr : list event) (s : State) : State :=
  mkState (db s) (tasks s) tr (shutdown s) (last_heartbeat s) (browser s)
    (current_job_task s).

Definition with_shutdown (b : bool) (s : State) : State :=
  mkState (db s) (tasks s) (trace s) b (last_heartbeat s) (browser s)
    (current_job_task s).

Definition with_last_heartbeat (t : Z) (s : State) : State :=
  mkState (db s) (tasks s) (trace s) (shutdown s) t (browser s)
    (current_job_task s).

Definition with_browser (b : option Browser) (s : State) : State :=
  mkState (db s) (tasks s) (trace s) (shutdown s) (last_heartbeat s) b
    (current_job_task s).

Definition with_current_job_task (t : option nat) (s : State) : State :=
  mkState (db s) (tasks s) (trace s) (shutdown s) (last_heartbeat s)
    (browser s) t.

(** Code that runs on the state and returns or raises. *)
Definition M (A : Type) : Type := State → State * result A.

Definition ret {A} (a : A) : M A := λ s, (s, Ok a).

Definition raise {A} (e : exn) : M A := λ s, (s, Raise e).

Definition bind {A B} (m : M A) (k : A → M B) : M B :=
  λ s, match m s with
       | (s', Ok a) => k a s'
       | (s', Raise e) => (s', Raise e)
       end.

#[global] Instance M_ret : MRet M := @ret.
#[global] Instance M_bind : MBind M := λ A B k m, bind m k.

(** The body of a [try]: its outcome as a value, for the [except]
    clauses to inspect. *)
Definition attempt {A} (m : M A) : M (result A) :=
  λ s, let '(s', r) := m s in (s', Ok r).

Definition lift {A} (r : result A) : M A := λ s, (s, r).

Definition get {A} (f : State → A) : M A := λ s, (s, Ok (f s)).

Definition modify (f : State → State) : M unit := λ s, (f s, Ok tt).

Definition emit (e : event) : M unit :=
  modify (λ s, with_trace (trace s ++ [e]) s).

Definition log (logger : string) (l : level) (m : message) : M unit :=
  emit (Log logger l m).

(** [try: body finally: cleanup]: an exception of the cleanup replaces
    the outcome of the body. *)
Definition try_finally {A} (body : M A) (cleanup : M unit) : M A :=
  r ← attempt body;
  cleanup;;
  lift r.

(** [async with await acquire as x: body].  Leaving the block closes [x],
    whether the body returned or raised; an exception of the close
    replaces the outcome of the body. *)
Definition async_with {A} (acquire release : M unit) (body : M A) : M A :=
  acquire;;
  try_finally body release.

(** [asyncio.create_task(coroutine)]. *)
Definition create_task (c : Coroutine) : M nat :=
  t ← get (λ s, length (tasks s));
  modify (λ s, with_tasks (tasks s ++ [mkTask c Pending]) s);;
  emit (CreateTask t);;
  ret t.

(** [task.cancel()]: a request, which a finished task ignores. *)
Definition cancel (t : nat) : M unit :=
  emit (CancelTask t);;
  modify (λ s,
    with_tasks
      (alter (λ task, match state task with
                      | Pending => mkTask (coro task) CancelRequested
                      | _ => task
                      end) t (tasks s)) s).

(** The code that awaits a task is resumed: the task has run to its end,
    and what it ended with is returned or raised.  A task is named by the
    number [create_task] gave it, so the lookup finds it; the first branch
    is for a number that names no task. *)
Definition resume (t : nat) : M (option bytes) :=
  task ← get (λ s, tasks s !! t);
  match task with
  | None => raise OtherException
  | Some task =>
      let r := match state task with
               | Pending => run (coro task)
               | CancelRequested => run_cancelled (coro task)
               | Finished r => r
               end in
      modify (λ s,
        with_tasks (<[t := mkTask (coro task) (Finished r)]> (tasks s)) s);;
      lift r
  end.

(** [await task]: the awaiting code goes on once the task has finished,
    with what the task ended with. *)
Definition await (t : nat) : M (option bytes) :=
  emit (AwaitTask t);;
  resume t.

(** [await task] in a worker that may itself be cancelled while it waits:
    asyncio hands the cancellation on to the awaited task by calling its
    [cancel()], and the worker goes on once that task has finished. *)
Definition await_cancellable (cancelled : bool) (t : nat) : M (option bytes) :=
  emit (AwaitTask t);;
  (if cancelled then cancel t else ret tt);;
  resume t.

(** The module-level logger of [worker.py]. *)
Definition logger : string := "worker-main".

(** [_cancel_task(task, log)]. *)
Definition _cancel_task (task : option nat) (log_ : option string) : M unit :=
  let log_ := default logger log_ in
  match task with
  | None => ret tt
  | Some t =>
      d ← get (λ s, from_option done true (tasks s !! t));
      if negb d then
        cancel t;;
        r ← attempt (await t);
        match r with
        | Ok _ => ret tt
        | Raise e =>
            if is_Exception e then log log_ DEBUG (CleanUpError e)
            else raise e
        end
      else ret tt
  end.

(** [asyncio.wait_for(browser.close(), timeout)].  With a timeout that is
    not positive the close is cancelled before it has started.  Otherwise
    the close is left to run for [timeout]; when it has not ended by then
    it is cancelled, and [wait_for] waits until it has ended, however long
    that takes: it raises [TimeoutError] when the close ended with the
    cancellation, and returns or raises what the close ended with
    otherwise.  The event records the timeout and the time waited. *)
Definition wait_for_close (b : Browser) (timeout : Z) : M unit :=
  if (timeout <=? 0)%Z then
    emit (CloseBrowser timeout 0);;
    raise TimeoutError
  else if (timeout <? close_duration b)%Z then
    emit (CloseBrowser timeout (timeout + cancel_duration b));;
    match close_cancelled b with
    | Raise CancelledError => raise TimeoutError
    | r => lift r
    end
  else
    emit (CloseBrowser timeout (close_duration b));;
    lift (close b).

(** [_shutdown_browser(browser, timeout, log)]; [timeout] defaults to 5. *)
Definition _shutdown_browser (b : Browser) (timeout : option Z)
    (log_ : option string) : M unit :=
  let timeout := default 5%Z timeout in
  let log_ := default logger log_ in
  r ← attempt (wait_for_close b timeout);
  match r with
  | Ok _ => ret tt
  | Raise e =>
      if is_close_failure e then log log_ WARNING (CloseFailed e)
      else raise e
  end.

Definition _JOB_POLL_INTERVAL : Z := 5.
Definition _HEARTBEAT_LOG_INTERVAL : Z := 600.

(** What the outside world does during one turn of the loop. *)
Record World := mkWorld {
  monotonic : Z;               (* [time.monotonic()] at the head of the turn *)
  claim_time : Z;              (* the store's clock at [get_next_job] *)
  complete_time : Z;           (* the store's clock at [update_job_status] *)
  sleep : result unit;         (* [asyncio.sleep(_JOB_POLL_INTERVAL)] *)
  new_context : result unit;   (* [browser.new_context()] *)
  new_page : result unit;      (* [ctx.new_page()] *)
  cancelled : bool;            (* the worker is cancelled while the job runs *)
  close_page : result unit;    (* leaving [async with ... as page] *)
  close_context : result unit  (* leaving [async with ... as ctx] *)
}.

(** [database.get_next_job(db, worker=name)]. *)
Definition next_job (w : World) (name_ : string) : M (option DBJob) :=
  r ← get (λ s, get_next_job (db s) (claim_time w) name_);
  modify (with_db r.1);;
  emit (GetNextJob name_ r.2);;
  ret r.2.

(** [database.update_job_status(db, job_id, status, output)]. *)
Definition report (w : World) (job_id_ : Z) (s : JobStatus)
    (o : option bytes) : M unit :=
  modify (λ st,
    with_db (update_job_status (db st) (complete_time w) job_id_ s o) st);;
  emit (UpdateJobStatus job_id_ s o).

(** Lines 60 to 65 of [worker_loop]: the two nested [async with] and, in
    them, the task made from the coroutine that [execute(page)] of the
    job instance returns; the instance is built by the class found under
    [job.name] in [jobs_defs], from [job.input] as keyword arguments. *)
Definition run_job (w : World) (jobs_defs : gmap string JobClass)
    (job : DBJob) : M (option bytes) :=
  async_with (emit NewContext ;; lift (new_context w))
             (emit CloseContext ;; lift (close_context w))
    (async_with (emit NewPage ;; lift (new_page w))
                (emit ClosePage ;; lift (close_page w))
       (cls ← lift (from_option Ok (Raise KeyError) (jobs_defs !! name job));
        inst ← lift (cls (input job));
        t ← create_task (execute inst);
        modify (with_current_job_task (Some t));;
        await_cancellable (cancelled w) t)).

(** How a turn of the loop ends: with [continue] or by reaching the end of
    the body, or with [break]. *)
Inductive control := Continue | Break.

(** Lines 85 and 86: [output] is kept for a [DONE] job only, and the
    status is written. *)
Definition finish_job (w : World) (job : DBJob) (status_ : JobStatus)
    (output_ : option bytes) : M control :=
  let output_ := if decide (status_ = DONE) then output_ else None in
  report w (id job) status_ output_;;
  ret Continue.

(** Lines 49 to 54: no job was there.  The heartbeat is logged when it is
    due, and the worker sleeps before it polls again. *)
Definition poll_again (name_ : string) (w : World) : M control :=
  let timeref := monotonic w in
  hb ← get last_heartbeat;
  (if (_HEARTBEAT_LOG_INTERVAL <=? timeref - hb)%Z then
     log name_ INFO AliveAndPolling;;
     modify (with_last_heartbeat timeref)
   else ret tt);;
  emit (Sleep _JOB_POLL_INTERVAL);;
  lift (sleep w);;
  ret Continue.

(** Lines 56 to 86: a job was claimed.  It is run, and the [except] and
    [else] clauses of the inner [try] decide what is written back. *)
Definition work_on (name_ : string) (jobs_defs : gmap string JobClass)
    (w : World) (job : DBJob) : M control :=
  modify (with_last_heartbeat (monotonic w));;
  log name_ INFO (StartingJob (id job) (name job));;
  r ← attempt (run_job w jobs_defs job);
  match r with
  | Raise e =>
      if is_interruption e then
        log name_ ERROR (JobInterrupted (id job));;
        t ← get current_job_task;
        _cancel_task t None;;
        report w (id job) FAILED None;;
        modify (with_shutdown true);;
        ret Break
      else if is_Exception e then
        log name_ ERROR JobExecutionFailed;;
        finish_job w job FAILED None
      else raise e
  | Ok output_ =>
      log name_ INFO (JobIsDone (id job));;
      finish_job w job DONE output_
  end.

(** The body of [while not shutdown], lines 44 to 91: the outer [try]
    with its [except asyncio.CancelledError]. *)
Definition turn (name_ : string) (jobs_defs : gmap string JobClass)
    (w : World) : M control :=
  r ← attempt
    (job ← next_job w name_;
     match job with
     | None => poll_again name_ w
     | Some job => work_on name_ jobs_defs w job
     end);
  match r with
  | Raise CancelledError =>
      log name_ INFO ShuttingDownWorker;;
      modify (with_shutdown true);;
      ret Break
  | _ => lift r
  end.

(** [while not shutdown: ...] over the turns the outside world supplies;
    [false] when they are used up with the loop still going. *)
Fixpoint while_not_shutdown (name_ : string)
    (jobs_defs : gmap string JobClass) (worlds : list World) : M bool :=
  stop ← get shutdown;
  if (stop : bool) then ret true
  else
    match worlds with
    | [] => ret false
    | w :: worlds =>
        c ← turn name_ jobs_defs w;
        match c with
        | Break => ret true
        | Continue => while_not_shutdown name_ jobs_defs worlds
        end
    end.

(** The [finally] of [worker_loop], lines 94 to 97. *)
Definition teardown (name_ : string) : M unit :=
  t ← get current_job_task;
  _cancel_task t (Some name_);;
  b ← get browser;
  match b with
  | Some b => _shutdown_browser b None (Some name_)
  | None => ret tt
  end.

(** A worker about to run [worker_loop] on the database [conn], at
    [time.monotonic() = started]. *)
Definition fresh (conn : DB) (started : Z) : State :=
  mkState conn [] [] false started None None.

(** [worker_loop(pw_ctx, db, name, jobs_defs)].  [launch] is what
    [pw_ctx.chromium.launch(headless=True)] ends with.  The result is
    [None] while the loop is still polling when [worlds] is used up;
    otherwise it is how the function ended, after its [finally]. *)
Definition worker_loop (launch : result Browser) (conn : DB) (started : Z)
    (name_ : string) (jobs_defs : gmap string JobClass)
    (worlds : list World) : State * option (result unit) :=
  let body :=
    log name_ INFO ReadyToWork;;
    attempt
      (emit Launch;;
       b ← lift launch;
       modify (with_browser (Some b));;
       while_not_shutdown name_ jobs_defs worlds) in
  match body (fresh conn started) with
  | (s, Ok (Ok false)) => (s, None)
  | (s, Ok r) =>
      let '(s', r') := (teardown name_ ;; lift r ;; ret tt) s in (s', Some r')
  | (s, Raise e) => (s, Some (Raise e))
  end.

End Worker.

(** * The store *)
Module DatabaseFacts.
Import Database.

Lemma oldest_None rows : oldest rows = None → rows = [].
Proof.
  destruct rows as [|r rows]; [done|]. simpl.
  destruct (oldest rows); [case_decide|]; done.
Qed.

Lemma oldest_Some rows r :
  oldest rows = Some r →
  r ∈ rows ∧ ∀ r', r' ∈ rows → (created_at r ≤ created_at r')%Z.
Proof.
  revert r. induction rows as [|a rows IH]; intros r; [done|]. simpl.
  destruct (oldest rows) as [m|] eqn:Hm.
  - destruct (IH m eq_refl) as [Hin Hmin].
    case_decide as Hlt; intros [= <-]; split.
    + by right.
    + intros r' [->|Hr']%elem_of_cons; [lia | by apply Hmin].
    + by left.
    + intros r' [->|Hr']%elem_of_cons; [lia|].
      specialize (Hmin _ Hr'). lia.
  - apply oldest_None in Hm as ->. intros [= <-]. split; [by left|].
    intros r' ->%list_elem_of_singleton. lia.
Qed.

Lemma select_next_pending_Some rows r :
  select_next_pending rows = Some r →
  r ∈ rows ∧ status r = PENDING ∧
  ∀ r', r' ∈ rows → status r' = PENDING → (created_at r ≤ created_at r')%Z.
Proof.
  intros [Hin Hmin]%oldest_Some.
  apply list_elem_of_filter in Hin as [Hp Hin]. split_and!; [done..|].
  intros r' Hr' Hp'. apply Hmin. by apply list_elem_of_filter.
Qed.

Lemma select_next_pending_None rows :
  select_next_pending rows = None ↔ ∀ r, r ∈ rows → status r ≠ PENDING.
Proof.
  split.
  - intros Hnil%oldest_None r Hr Hp.
    assert (r ∈ filter (λ r, status r = PENDING) rows) as Hin
      by by apply list_elem_of_filter.
    rewrite Hnil in Hin. by apply not_elem_of_nil in Hin.
  - intros Hno. unfold select_next_pending.
    destruct (filter _ rows) as [|r l] eqn:Hf; [done|].
    assert (r ∈ filter (λ r, status r = PENDING) rows) as Hin
      by (rewrite Hf; left).
    apply list_elem_of_filter in Hin as [Hp Hin]. by destruct (Hno r Hin).
Qed.

Lemma update_jobs_where_id_ids id_ f rows :
  (∀ r, id (f r) = id r) →
  id <$> update_jobs_where_id id_ f rows = id <$> rows.
Proof.
  intros Hf. unfold update_jobs_where_id. rewrite <-list_fmap_compose.
  apply list_fmap_ext. intros _ r _. simpl. by case_decide.
Qed.

Lemma update_jobs_where_id_other id_ f rows :
  id_ ∉ id <$> rows → update_jobs_where_id id_ f rows = rows.
Proof.
  intros Hno. unfold update_jobs_where_id.
  rewrite <-(list_fmap_id rows) at 2. apply list_fmap_ext.
  intros _ r Hr%list_elem_of_lookup_2. simpl. case_decide as Heq; [|done].
  destruct Hno. rewrite <-Heq. by apply list_elem_of_fmap_2.
Qed.

Lemma update_jobs_where_id_split f l1 r l2 :
  NoDup (id <$> (l1 ++ r :: l2)) →
  update_jobs_where_id (id r) f (l1 ++ r :: l2) = l1 ++ f r :: l2.
Proof.
  rewrite fmap_app, fmap_cons.
  intros Hnd. apply NoDup_app in Hnd as (_ & Hl1 & [Hl2 _]%NoDup_cons).
  unfold update_jobs_where_id at 1. rewrite fmap_app, fmap_cons.
  rewrite decide_True by done.
  fold (update_jobs_where_id (id r) f l1).
  fold (update_jobs_where_id (id r) f l2).
  rewrite !update_jobs_where_id_other; [done..|].
  intros Hin. apply (Hl1 _ Hin). left.
Qed.

(** C2: on a store whose job ids are unique, [get_next_job] takes a
    [PENDING] row that is no younger than any other [PENDING] row, turns
    exactly that row into [IN_PROGRESS] with the worker's name and
    [updated_at] set, and returns it; when there is no [PENDING] row it
    returns nothing and the store is as it was. *)
Theorem get_next_job_claims_oldest_pending conn now worker_ :
  unique_ids conn →
  claims_oldest_pending conn now worker_ (get_next_job conn now worker_).
Proof.
  intros Hu. unfold claims_oldest_pending, get_next_job.
  destruct (select_next_pending (jobs conn)) as [row|] eqn:Hsel; simpl.
  - apply select_next_pending_Some in Hsel as (Hin & Hp & Hmin).
    apply list_elem_of_split in Hin as (l1 & l2 & Hjobs).
    exists l1, row, l2. split_and!; [done..| |done].
    unfold mark_in_progress. f_equal. rewrite Hjobs.
    rewrite update_jobs_where_id_split; [done|].
    by rewrite <-Hjobs.
  - split; [|done]. by apply select_next_pending_None.
Qed.

Definition three_jobs : DB :=
  mkDB [mkDBJob 1 "a" [] PENDING 10 None None;
        mkDBJob 2 "b" [] PENDING 5 None None;
        mkDBJob 3 "c" [] DONE 1 (Some 4%Z) (Some "w0")] [] 3 0.

Lemma get_next_job_claims_oldest_pending_witness :
  unique_ids three_jobs ∧
  claims_oldest_pending three_jobs 100 "w1" (get_next_job three_jobs 100 "w1").
Proof.
  assert (unique_ids three_jobs) as Hu
    by (unfold unique_ids; apply (bool_decide_unpack _); reflexivity).
  split; [exact Hu|].
  exact (get_next_job_claims_oldest_pending three_jobs 100 "w1" Hu).
Defined.

Lemma get_next_job_pending_rows conn now worker_ r :
  r ∈ jobs (get_next_job conn now worker_).1 → status r = PENDING →
  r ∈ jobs conn.
Proof.
  unfold get_next_job. destruct (select_next_pending (jobs conn)); [|done].
  simpl. unfold update_jobs_where_id.
  intros (x & -> & Hx)%list_elem_of_fmap. by case_decide.
Qed.

Lemma get_next_job_returns conn now worker_ conn' job :
  get_next_job conn now worker_ = (conn', Some job) →
  ∃ row, row ∈ jobs conn ∧ status row = PENDING ∧
    created_at job = created_at row ∧ id job = id row ∧
    (∀ r, r ∈ jobs conn → status r = PENDING →
          (created_at row ≤ created_at r)%Z).
Proof.
  unfold get_next_job.
  destruct (select_next_pending (jobs conn)) as [row|] eqn:Hsel; [|done].
  intros [= <- <-]. apply select_next_pending_Some in Hsel as (? & ? & ?).
  by exists row.
Qed.

Lemma claims_from_pending conn worker_ nows :
  Forall (λ job, ∃ row, row ∈ jobs conn ∧ status row = PENDING ∧
                   created_at job = created_at row)
         (claims conn worker_ nows).
Proof.
  revert conn. induction nows as [|now nows IH]; intros conn; [done|].
  simpl. destruct (get_next_job conn now worker_) as [conn' [job|]] eqn:Hget.
  - constructor.
    + apply get_next_job_returns in Hget as (row & ? & ? & ? & _).
      by exists row.
    + eapply Forall_impl; [apply IH|]. simpl.
      intros k (row & Hin & Hp & Hk). exists row. split_and!; [|done..].
      apply (get_next_job_pending_rows conn now worker_); [|done].
      by rewrite Hget.
  - eapply Forall_impl; [apply IH|]. simpl.
    intros k (row & Hin & Hp & Hk). exists row. split_and!; [|done..].
    apply (get_next_job_pending_rows conn now worker_); [|done].
    by rewrite Hget.
Qed.

Lemma claims_sorted conn worker_ nows :
  StronglySorted (λ a b, (created_at a ≤ created_at b)%Z)
    (claims conn worker_ nows).
Proof.
  revert conn. induction nows as [|now nows IH]; intros conn; [constructor|].
  simpl. destruct (get_next_job conn now worker_) as [conn' [job|]] eqn:Hget;
    [|apply IH].
  constructor; [apply IH|].
  apply get_next_job_returns in Hget as Hjob.
  destruct Hjob as (row & _ & _ & Hc & _ & Hmin).
  eapply Forall_impl; [apply (claims_from_pending conn')|]. simpl.
  intros k (r & Hin & Hp & ->). rewrite Hc. apply Hmin; [|done].
  apply (get_next_job_pending_rows conn now worker_); [|done].
  by rewrite Hget.
Qed.

(** ** Statuses under sequences of store calls *)

Lemma filter_none {A} (P : A → Prop) `{∀ x, Decision (P x)} (l : list A) :
  (∀ x, x ∈ l → ¬ P x) → filter P l = [].
Proof.
  induction l as [|a l IH]; intros Hno; [done|].
  rewrite filter_cons_False by (apply Hno; left).
  apply IH. intros x Hx. apply Hno. by right.
Qed.

Lemma get_job_by_id_elem conn r :
  unique_ids conn → r ∈ jobs conn → get_job_by_id conn (id r) = Some r.
Proof.
  unfold unique_ids, get_job_by_id.
  intros Hu (l1 & l2 & Hjobs)%list_elem_of_split. rewrite Hjobs in *.
  rewrite fmap_app, fmap_cons in Hu.
  apply NoDup_app in Hu as (_ & Hl1 & _).
  rewrite filter_app, filter_cons_True by done.
  assert (filter (λ x, id x = id r) l1 = []) as ->; [|done].
  apply filter_none. intros x Hx Heq.
  apply (Hl1 (id r)); [|left]. rewrite <-Heq. by apply list_elem_of_fmap_2.
Qed.

Lemma get_job_by_id_Some conn i r :
  get_job_by_id conn i = Some r → r ∈ jobs conn ∧ id r = i.
Proof.
  unfold get_job_by_id. intros Hh.
  assert (r ∈ filter (λ x, id x = i) (jobs conn)) as Hin.
  { destruct (filter _ (jobs conn)); simplify_eq/=. left. }
  by apply list_elem_of_filter in Hin as [? ?].
Qed.

Lemma head_filter_id_update i j f rows :
  (∀ r, id (f r) = id r) →
  head (filter (λ r, id r = i) (update_jobs_where_id j f rows)) =
  (λ r, if decide (id r = j) then f r else r) <$>
    head (filter (λ r, id r = i) rows).
Proof.
  intros Hf. induction rows as [|a rows IH]; [done|].
  unfold update_jobs_where_id in *. rewrite fmap_cons.
  assert (id (if decide (id a = j) then f a else a) = id a) as Hid
    by (by case_decide).
  destruct (decide (id a = i)) as [Ha|Ha].
  - rewrite !filter_cons_True by congruence. done.
  - rewrite !filter_cons_False by congruence. done.
Qed.

Lemma status_of_mark_in_progress conn now worker_ j i :
  status_of (mark_in_progress conn now worker_ j) i =
  (λ s, if decide (i = j) then IN_PROGRESS else s) <$> status_of conn i.
Proof.
  unfold status_of, get_job_by_id, mark_in_progress. simpl.
  rewrite head_filter_id_update by done.
  destruct (head _) as [r|] eqn:Hr; [|done]. simpl.
  assert (id r = i) as <-.
  { apply (get_job_by_id_Some conn i r). exact Hr. }
  by repeat case_decide.
Qed.

Lemma status_of_update_job_status conn now j status_ output_ i :
  status_of (update_job_status conn now j status_ output_) i =
  (λ s, if decide (i = j) then status_ else s) <$> status_of conn i.
Proof.
  unfold status_of, get_job_by_id, update_job_status.
  assert (∀ rows o q1 q2,
    status <$> head (filter (λ r, id r = i)
      (jobs (mkDB (update_jobs_where_id j
          (λ r, set_updated_at (Some now) (set_status status_ r)) rows)
          o q1 q2))) =
    (λ s, if decide (i = j) then status_ else s) <$>
      (status <$> head (filter (λ r, id r = i) rows))) as Haux.
  { intros rows o q1 q2. simpl. rewrite head_filter_id_update by done.
    destruct (head _) as [r|] eqn:Hr; [|done]. simpl.
    assert (r ∈ filter (λ x, id x = i) rows) as Hin.
    { destruct (filter _ rows); simplify_eq/=. left. }
    apply list_elem_of_filter in Hin as [<- _].
    by repeat case_decide. }
  destruct (truthy output_); apply Haux.
Qed.

Lemma status_of_create_job conn now name_ input_json i s :
  status_of conn i = Some s →
  status_of (create_job conn now name_ input_json).1 i = Some s.
Proof.
  unfold status_of, get_job_by_id, create_job. simpl.
  rewrite filter_app. by destruct (filter _ (jobs conn)).
Qed.

Lemma next_rowid_fresh seq rowids : next_rowid seq rowids ∉ rowids.
Proof.
  unfold next_rowid.
  assert (∀ x, x ∈ rowids → (x ≤ foldr Z.max seq rowids)%Z) as Hmax.
  { induction rowids as [|a l IH]; intros x; [by intros ?%not_elem_of_nil|].
    simpl. intros [->|Hx]%elem_of_cons; [lia|]. specialize (IH x Hx). lia. }
  intros Hin. specialize (Hmax _ Hin). lia.
Qed.

Lemma apply_op_unique_ids conn o :
  unique_ids conn → unique_ids (apply_op conn o).
Proof.
  unfold unique_ids. intros Hu. destruct o as [now n inp|now w|now j st out].
  - simpl. rewrite fmap_app. simpl.
    apply NoDup_app. split_and!; [done| |apply NoDup_singleton].
    intros x Hx ->%list_elem_of_singleton.
    by apply (next_rowid_fresh (jobs_seq conn) (id <$> jobs conn)).
  - simpl. unfold get_next_job.
    destruct (select_next_pending (jobs conn)); [|done]. simpl.
    by rewrite update_jobs_where_id_ids.
  - simpl. unfold update_job_status.
    destruct (truthy out); simpl; by rewrite update_jobs_where_id_ids.
Qed.

Lemma apply_op_status conn o i s :
  unique_ids conn → well_typed o → status_of conn i = Some s →
  ∃ s', status_of (apply_op conn o) i = Some s' ∧
        rank s ≤ rank s' ∧ (s ≠ PENDING → s' ≠ PENDING) ∧
        (completes_claimed conn [o] → s = s' ∨ transition s s').
Proof.
  intros Hu Hty Hs. destruct o as [now n inp|now w|now j st out].
  - exists s. split_and!; [by apply status_of_create_job|done|done|by left].
  - simpl. unfold get_next_job.
    destruct (select_next_pending (jobs conn)) as [row|] eqn:Hsel;
      [|exists s; split_and!; [done..|by left]].
    simpl. rewrite status_of_mark_in_progress, Hs. simpl.
    case_decide as Hi; [|exists s; split_and!; [done..|by left]]. subst i.
    apply select_next_pending_Some in Hsel as (Hin & Hp & _).
    unfold status_of in Hs. rewrite (get_job_by_id_elem _ _ Hu Hin) in Hs.
    simplify_eq/=. rewrite Hp. exists IN_PROGRESS.
    split_and!; [done|simpl; lia|done|]. intros _. right. constructor.
  - simpl. rewrite status_of_update_job_status, Hs. simpl.
    case_decide as Hi; [|exists s; split_and!; [done..|by left]].
    subst i. exists st.
    simpl in Hty. split_and!; [done| | |].
    + destruct Hty as [-> | ->]; destruct s; simpl; lia.
    + intros _. by destruct Hty as [-> | ->].
    + intros [Hclaimed _]. rewrite (Hclaimed s Hs). right.
      destruct Hty as [-> | ->]; constructor.
Qed.

Lemma apply_ops_unique_ids conn ops :
  unique_ids conn → unique_ids (apply_ops conn ops).
Proof.
  revert conn. induction ops as [|o ops IH]; intros conn Hu; [done|].
  simpl. by apply IH, apply_op_unique_ids.
Qed.

Lemma apply_ops_status conn ops i s :
  unique_ids conn → Forall well_typed ops → status_of conn i = Some s →
  ∃ s', status_of (apply_ops conn ops) i = Some s' ∧
        rank s ≤ rank s' ∧ (s ≠ PENDING → s' ≠ PENDING).
Proof.
  intros Hu Hty. revert conn s Hu.
  induction Hty as [|o ops Ho Hops IH]; intros conn s Hu Hs.
  - exists s. by split_and!.
  - destruct (apply_op_status conn o i s Hu Ho Hs)
      as (s1 & Hs1 & Hr1 & Hp1 & _).
    destruct (IH (apply_op conn o) s1 (apply_op_unique_ids _ _ Hu) Hs1)
      as (s2 & Hs2 & Hr2 & Hp2).
    exists s2. split_and!; [done|lia|tauto].
Qed.

Lemma completes_claimed_app conn ops1 ops2 :
  completes_claimed conn (ops1 ++ ops2) →
  completes_claimed (apply_ops conn ops1) ops2.
Proof.
  revert conn. induction ops1 as [|o ops1 IH]; intros conn; [done|].
  intros [_ Hrest]. by apply IH.
Qed.

(** C7, as amended: over any sequence of [create_job], [get_next_job] and
    [update_job_status] calls (the last with [DONE] or [FAILED]) on a
    store with unique job ids, a job stays in the store, and no call moves
    its status back in the order [PENDING < IN_PROGRESS < {DONE, FAILED}]
    or returns it to [PENDING], neither over the whole sequence nor in any
    single call.  As long as every [update_job_status] is for a job that
    is [IN_PROGRESS], every single call leaves the status as it is or
    moves it along one of the edges [PENDING → IN_PROGRESS],
    [IN_PROGRESS → DONE] and [IN_PROGRESS → FAILED]. *)
Theorem status_never_moves_back conn ops i s :
  unique_ids conn → Forall well_typed ops → status_of conn i = Some s →
  (∃ s', status_of (apply_ops conn ops) i = Some s' ∧
         rank s ≤ rank s' ∧ (s ≠ PENDING → s' ≠ PENDING)) ∧
  (∀ ops1 o ops2, ops = ops1 ++ o :: ops2 →
     ∃ s1 s2,
       status_of (apply_ops conn ops1) i = Some s1 ∧
       status_of (apply_op (apply_ops conn ops1) o) i = Some s2 ∧
       rank s1 ≤ rank s2 ∧ (s1 ≠ PENDING → s2 ≠ PENDING) ∧
       (completes_claimed conn ops → s1 = s2 ∨ transition s1 s2)).
Proof.
  intros Hu Hty Hs. split; [by apply apply_ops_status|].
  intros ops1 o ops2 ->.
  apply Forall_app in Hty as [Hty1 [Ho _]%Forall_cons].
  destruct (apply_ops_status conn ops1 i s Hu Hty1 Hs) as (s1 & Hs1 & _).
  destruct (apply_op_status (apply_ops conn ops1) o i s1
              (apply_ops_unique_ids _ _ Hu) Ho Hs1)
    as (s2 & Hs2 & Hr & Hp & Hedge).
  exists s1, s2. split_and!; [done..|].
  intros [Hc _]%completes_claimed_app. apply Hedge. by split.
Qed.

Definition one_queued_job : DB :=
  apply_ops (mkDB [] [] 0 0) [Enqueue 1 "a" []].

Definition claim_and_complete : list op :=
  [Claim 2 "w"; Complete 3 1 DONE (Some [Byte.x6f])].

Lemma status_never_moves_back_witness :
  unique_ids one_queued_job ∧ Forall well_typed claim_and_complete ∧
  status_of one_queued_job 1 = Some PENDING ∧
  completes_claimed one_queued_job claim_and_complete ∧
  (∃ s',
     status_of (apply_ops one_queued_job claim_and_complete) 1 = Some s' ∧
     rank PENDING ≤ rank s' ∧ (PENDING ≠ PENDING → s' ≠ PENDING)) ∧
  (∀ ops1 o ops2, claim_and_complete = ops1 ++ o :: ops2 →
     ∃ s1 s2,
       status_of (apply_ops one_queued_job ops1) 1 = Some s1 ∧
       status_of (apply_op (apply_ops one_queued_job ops1) o) 1 = Some s2 ∧
       rank s1 ≤ rank s2 ∧ (s1 ≠ PENDING → s2 ≠ PENDING) ∧
       (completes_claimed one_queued_job claim_and_complete →
        s1 = s2 ∨ transition s1 s2)).
Proof.
  assert (unique_ids one_queued_job) as Hu
    by (unfold unique_ids; apply (bool_decide_unpack _); reflexivity).
  assert (Forall well_typed claim_and_complete) as Hty
    by (repeat constructor).
  assert (completes_claimed one_queued_job claim_and_complete) as Hc.
  { split; [exact I|]. split; [|exact I]. intros s Hs.
    change (Some IN_PROGRESS = Some s) in Hs. congruence. }
  split_and!; [exact Hu|exact Hty|reflexivity|exact Hc|..];
    apply (status_never_moves_back one_queued_job claim_and_complete 1
             PENDING Hu Hty eq_refl).
Defined.

(** C7, the claim as stated fails, in two ways.  A second
    [update_job_status] on a job that is [DONE] makes it [FAILED], and no
    path of the edges leads from [DONE] to [FAILED].  And an
    [update_job_status] on a job that was never claimed takes it from
    [PENDING] to [DONE] in one step, which is not an edge: the job was
    never [IN_PROGRESS] and has no worker. *)
Lemma complete_leaves_the_path :
  let conn := apply_ops one_queued_job claim_and_complete in
  let conn' := apply_ops one_queued_job [Complete 2 1 DONE None] in
  (status_of conn 1 = Some DONE ∧
   status_of (apply_ops conn [Complete 4 1 FAILED None]) 1 = Some FAILED ∧
   ¬ rtc transition DONE FAILED) ∧
  (status_of one_queued_job 1 = Some PENDING ∧
   status_of conn' 1 = Some DONE ∧
   worker <$> get_job_by_id conn' 1 = Some None ∧
   ¬ transition PENDING DONE).
Proof.
  split; (split_and!; [reflexivity..|]).
  - intros Hrtc. inversion Hrtc as [|? y ? Hstep]; inversion Hstep.
  - intros Hstep. inversion Hstep.
Qed.

(** ** Claims between which jobs are enqueued *)

Lemma apply_op_pending_rows conn o r :
  well_typed o → r ∈ jobs (apply_op conn o) → status r = PENDING →
  r ∈ jobs conn ∨ ∃ now name_ input_json,
                    o = Enqueue now name_ input_json ∧ created_at r = now.
Proof.
  intros Hty Hr Hp. destruct o as [now n inp|now w|now j st out].
  - simpl in Hr. apply elem_of_app in Hr as [Hr| ->%list_elem_of_singleton];
      [by left|]. right. by exists now, n, inp.
  - left. by apply (get_next_job_pending_rows conn now w).
  - left. simpl in Hr, Hty. unfold update_job_status in Hr.
    assert (r ∈ update_jobs_where_id j
                  (λ r, set_updated_at (Some now) (set_status st r))
                  (jobs conn)) as Hin by (by destruct (truthy out)).
    unfold update_jobs_where_id in Hin.
    apply list_elem_of_fmap in Hin as (x & -> & Hx).
    case_decide; [|done]. simpl in Hp. subst st. by destruct Hty.
Qed.

Lemma apply_op_keeps_created_at conn o r :
  r ∈ jobs conn → ∃ r', r' ∈ jobs (apply_op conn o) ∧
                        created_at r' = created_at r.
Proof.
  intros Hr.
  assert (∀ j f rows, (∀ x, created_at (f x) = created_at x) → r ∈ rows →
            ∃ r', r' ∈ update_jobs_where_id j f rows ∧
                  created_at r' = created_at r) as Hupd.
  { intros j f rows Hf Hin. unfold update_jobs_where_id.
    exists (if decide (id r = j) then f r else r). split.
    - apply list_elem_of_fmap. by exists r.
    - by case_decide. }
  destruct o as [now n inp|now w|now j st out]; simpl.
  - exists r. split; [|done]. apply elem_of_app. by left.
  - unfold get_next_job.
    destruct (select_next_pending (jobs conn)); [|by exists r].
    by apply Hupd.
  - unfold update_job_status. destruct (truthy out); by apply Hupd.
Qed.

Lemma claimed_in_bounded ops conn b :
  Forall well_typed ops → clock_monotone conn ops →
  (∀ r, r ∈ jobs conn → status r = PENDING → (b ≤ created_at r)%Z) →
  (∃ r, r ∈ jobs conn ∧ (b ≤ created_at r)%Z) →
  Forall (λ job, (b ≤ created_at job)%Z) (claimed_in conn ops).
Proof.
  intros Hty. revert conn.
  induction Hty as [|o ops Ho Hops IH]; intros conn Hclock Hlow Hrow;
    [constructor|].
  destruct Hclock as [Hnow Hclock]. simpl. apply Forall_app. split.
  - destruct o as [now n inp|now w|now j st out]; try constructor.
    destruct (get_next_job conn now w) as [conn' [job|]] eqn:Hget;
      simpl; constructor; [|constructor].
    apply get_next_job_returns in Hget as (row & Hin & Hp & -> & _).
    by apply Hlow.
  - apply IH; [done| |].
    + intros r Hr Hp.
      destruct (apply_op_pending_rows conn o r Ho Hr Hp)
        as [Hold|(now & n & inp & -> & Hc)]; [by apply Hlow|].
      destruct Hrow as (r0 & Hr0 & Hb). specialize (Hnow r0 Hr0). lia.
    + destruct Hrow as (r0 & Hr0 & Hb).
      destruct (apply_op_keeps_created_at conn o r0 Hr0) as (r' & Hr' & Hc).
      exists r'. split; [done|lia].
Qed.

Lemma claimed_in_sorted ops conn :
  Forall well_typed ops → clock_monotone conn ops →
  StronglySorted (λ a b, (created_at a ≤ created_at b)%Z)
    (claimed_in conn ops).
Proof.
  intros Hty. revert conn.
  induction Hty as [|o ops Ho Hops IH]; intros conn Hclock; [constructor|].
  destruct Hclock as [Hnow Hclock]. simpl.
  destruct o as [now n inp|now w|now j st out]; try by apply IH.
  destruct (get_next_job conn now w) as [conn' [job|]] eqn:Hget;
    simpl in *; rewrite Hget in *; simpl in *; [|by apply IH].
  constructor; [by apply IH|].
  apply get_next_job_returns in Hget as Hjob.
  destruct Hjob as (row & Hin & Hp & Hc & Hid & Hmin).
  apply claimed_in_bounded; [done..| |].
  - intros r Hr Hrp. rewrite Hc. apply Hmin; [|done].
    apply (get_next_job_pending_rows conn now w); [|done]. by rewrite Hget.
  - destruct (apply_op_keeps_created_at conn (Claim now w) row Hin)
      as (r' & Hr' & Hc').
    simpl in Hr'. rewrite Hget in Hr'. exists r'. split; [done|]. lia.
Qed.

(** C5: whatever jobs have been enqueued, the jobs that repeated calls of
    [get_next_job] hand to one worker come in non-decreasing [created_at]
    order, and each call hands out a job that is no younger than any job
    [PENDING] at that moment.  The order also holds when jobs are enqueued
    and completed between the claims, as long as the clock that stamps
    [created_at] does not run backwards. *)
Theorem claims_in_creation_order conn requests worker_ nows :
  StronglySorted (λ a b, (created_at a ≤ created_at b)%Z)
    (claims (enqueue_all conn requests) worker_ nows) ∧
  (∀ now,
     match (get_next_job conn now worker_).2 with
     | Some job =>
         ∀ r, r ∈ jobs conn → status r = PENDING →
              (created_at job ≤ created_at r)%Z
     | None => ∀ r, r ∈ jobs conn → status r ≠ PENDING
     end) ∧
  (∀ ops, Forall well_typed ops → clock_monotone conn ops →
          StronglySorted (λ a b, (created_at a ≤ created_at b)%Z)
            (claimed_in conn ops)).
Proof.
  split_and!; [apply claims_sorted| |intros ops; apply claimed_in_sorted].
  intros now.
  destruct (get_next_job conn now worker_) as [conn' [job|]] eqn:Hget; simpl.
  - apply get_next_job_returns in Hget as (row & _ & _ & -> & _ & Hmin).
    exact Hmin.
  - unfold get_next_job in Hget.
    destruct (select_next_pending (jobs conn)) eqn:Hsel; [done|].
    by apply select_next_pending_None.
Qed.

Example claims_of_three_enqueued :
  created_at <$>
    claims (enqueue_all (mkDB [] [] 0 0)
              [(30%Z, "a", []); (10%Z, "b", []); (20%Z, "c", [])])
           "w" [100%Z; 101%Z; 102%Z; 103%Z]
  = [10%Z; 20%Z; 30%Z].
Proof. reflexivity. Qed.

Example claims_between_enqueues :
  created_at <$>
    claimed_in (mkDB [] [] 0 0)
      [Enqueue 10 "a" []; Enqueue 20 "b" []; Claim 21 "w"; Enqueue 30 "c" [];
       Claim 31 "w"; Complete 32 1 DONE None; Claim 33 "w"; Claim 34 "w"]
  = [10%Z; 20%Z; 30%Z].
Proof. reflexivity. Qed.

End DatabaseFacts.

(** * Concurrent claims *)
Module ClaimingFacts.
Import Database DatabaseFacts Claiming.

(** A caller that is between [BEGIN IMMEDIATE] and the end of its
    transaction. *)
Definition in_transaction (c : Call) : Prop :=
  match call_pc c with
  | AtSelect | AtBranch _ | AtCommit _ _ => True
  | AtBegin | Returned _ => False
  end.

(** What a caller inside its transaction knows agrees with the committed
    database. *)
Definition consistent (conn : DB) (c : Call) : Prop :=
  match call_pc c with
  | AtBranch r => r = select_next_pending (jobs conn)
  | AtCommit db_job tx =>
      select_next_pending (jobs conn) = Some db_job ∧
      tx = mark_in_progress conn (call_now c) (call_worker c) (id db_job)
  | _ => True
  end.

(** The invariant of every schedule: only the holder of the write lock is
    inside a transaction, it has read the database as it is, the jobs
    handed out so far are not [PENDING] any more, and no two callers hold
    the same job. *)
Record invariant (s : System) : Prop := mkInvariant {
  inv_lock : ∀ i c, calls s !! i = Some c → in_transaction c →
                    writer s = Some i;
  inv_read : ∀ i c, calls s !! i = Some c → consistent (committed s) c;
  inv_taken : ∀ i c a, calls s !! i = Some c →
                call_pc c = Returned (Some a) →
                ∀ r, r ∈ jobs (committed s) → id r = id a →
                     status r ≠ PENDING;
  inv_distinct : ∀ i k ci ck a b, i ≠ k →
                   calls s !! i = Some ci → calls s !! k = Some ck →
                   call_pc ci = Returned (Some a) →
                   call_pc ck = Returned (Some b) → id a ≠ id b
}.

Lemma lookup_insert_call (cs : list Call) i c c' k :
  cs !! i = Some c →
  <[i := c']> cs !! k = if decide (k = i) then Some c' else cs !! k.
Proof.
  intros Hi. case_decide as Hk.
  - subst k. apply list_lookup_insert_eq. by eapply lookup_lt_Some.
  - by apply list_lookup_insert_ne.
Qed.

(** The five statements a caller can run, read off [step]. *)
Inductive stepped (i : nat) (s s' : System) : Prop :=
  | stepped_begin c :
      calls s !! i = Some c → call_pc c = AtBegin → writer s = None →
      s' = mkSystem (committed s) (Some i)
             (<[i := at_pc c AtSelect]> (calls s)) →
      stepped i s s'
  | stepped_select c :
      calls s !! i = Some c → call_pc c = AtSelect →
      s' = mkSystem (committed s) (writer s)
             (<[i := at_pc c
                       (AtBranch (select_next_pending (jobs (committed s))))]>
                (calls s)) →
      stepped i s s'
  | stepped_rollback c :
      calls s !! i = Some c → call_pc c = AtBranch None →
      s' = mkSystem (committed s) None
             (<[i := at_pc c (Returned None)]> (calls s)) →
      stepped i s s'
  | stepped_update c db_job :
      calls s !! i = Some c → call_pc c = AtBranch (Some db_job) →
      s' = mkSystem (committed s) (writer s)
             (<[i := at_pc c
                       (AtCommit db_job
                          (mark_in_progress (committed s) (call_now c)
                             (call_worker c) (id db_job)))]>
                (calls s)) →
      stepped i s s'
  | stepped_commit c db_job tx :
      calls s !! i = Some c → call_pc c = AtCommit db_job tx →
      s' = mkSystem tx None
             (<[i := at_pc c
                       (Returned
                          (Some (set_worker (Some (call_worker c))
                                   (set_status IN_PROGRESS db_job))))]>
                (calls s)) →
      stepped i s s'.

Lemma step_stepped i s s' : step i s = Some s' → stepped i s s'.
Proof.
  unfold step. destruct (calls s !! i) as [c|] eqn:Hc; [|done].
  destruct (call_pc c) as [| |[j|]|j tx|r] eqn:Hpc; [| | | | |done].
  - destruct (writer s) eqn:Hw; [done|]. intros [= <-].
    by eapply stepped_begin.
  - intros [= <-]. by eapply stepped_select.
  - intros [= <-]. by eapply stepped_update.
  - intros [= <-]. by eapply stepped_rollback.
  - intros [= <-]. by eapply stepped_commit.
Qed.

Lemma mark_in_progress_not_pending conn now worker_ j r :
  r ∈ jobs (mark_in_progress conn now worker_ j) → status r = PENDING →
  r ∈ jobs conn ∧ id r ≠ j.
Proof.
  unfold mark_in_progress, update_jobs_where_id. simpl.
  intros (x & -> & Hx)%list_elem_of_fmap. by case_decide.
Qed.

Lemma step_invariant i s s' :
  invariant s → step i s = Some s' → invariant s'.
Proof.
  intros [Hlock Hread Htaken Hdist] Hstep%step_stepped.
  destruct Hstep as [c Hc Hpc Hw ->|c Hc Hpc ->|c Hc Hpc ->
                    |c j Hc Hpc ->|c j tx Hc Hpc ->].
  - (* BEGIN IMMEDIATE *)
    split; simpl.
    + intros k ck. rewrite (lookup_insert_call _ _ _ _ _ Hc).
      case_decide; [by subst|]. intros Hk Htx.
      specialize (Hlock _ _ Hk Htx). congruence.
    + intros k ck. rewrite (lookup_insert_call _ _ _ _ _ Hc).
      case_decide; [by intros [= <-]|]. apply Hread.
    + intros k ck a. rewrite (lookup_insert_call _ _ _ _ _ Hc).
      case_decide; [by intros [= <-]|]. apply Htaken.
    + intros k1 k2 c1 c2 a b Hne.
      rewrite !(lookup_insert_call _ _ _ _ _ Hc).
      repeat case_decide; try (by intros [= <-]); try (by intros ? [= <-]).
      by apply Hdist.
  - (* SELECT *)
    split; simpl.
    + intros k ck. rewrite (lookup_insert_call _ _ _ _ _ Hc).
      case_decide; [|by apply Hlock]. subst k. intros _ _.
      apply (Hlock _ _ Hc). unfold in_transaction. by rewrite Hpc.
    + intros k ck. rewrite (lookup_insert_call _ _ _ _ _ Hc).
      case_decide; [by intros [= <-]|]. apply Hread.
    + intros k ck a. rewrite (lookup_insert_call _ _ _ _ _ Hc).
      case_decide; [by intros [= <-]|]. apply Htaken.
    + intros k1 k2 c1 c2 a b Hne.
      rewrite !(lookup_insert_call _ _ _ _ _ Hc).
      repeat case_decide; try (by intros [= <-]); try (by intros ? [= <-]).
      by apply Hdist.
  - (* rollback *)
    assert (writer s = Some i) as Hwi.
    { apply (Hlock _ _ Hc). unfold in_transaction. by rewrite Hpc. }
    split; simpl.
    + intros k ck. rewrite (lookup_insert_call _ _ _ _ _ Hc).
      case_decide; [by intros [= <-]|]. intros Hk Htx.
      specialize (Hlock _ _ Hk Htx). congruence.
    + intros k ck. rewrite (lookup_insert_call _ _ _ _ _ Hc).
      case_decide; [by intros [= <-]|]. apply Hread.
    + intros k ck a. rewrite (lookup_insert_call _ _ _ _ _ Hc).
      case_decide; [by intros [= <-]|]. apply Htaken.
    + intros k1 k2 c1 c2 a b Hne.
      rewrite !(lookup_insert_call _ _ _ _ _ Hc).
      repeat case_decide; try (by intros [= <-]); try (by intros ? [= <-]).
      by apply Hdist.
  - (* UPDATE *)
    specialize (Hread _ _ Hc) as Hri. unfold consistent in Hri.
    rewrite Hpc in Hri. split; simpl.
    + intros k ck. rewrite (lookup_insert_call _ _ _ _ _ Hc).
      case_decide; [|by apply Hlock]. subst k. intros _ _.
      apply (Hlock _ _ Hc). unfold in_transaction. by rewrite Hpc.
    + intros k ck. rewrite (lookup_insert_call _ _ _ _ _ Hc).
      case_decide; [by intros [= <-]|]. apply Hread.
    + intros k ck a. rewrite (lookup_insert_call _ _ _ _ _ Hc).
      case_decide; [by intros [= <-]|]. apply Htaken.
    + intros k1 k2 c1 c2 a b Hne.
      rewrite !(lookup_insert_call _ _ _ _ _ Hc).
      repeat case_decide; try (by intros [= <-]); try (by intros ? [= <-]).
      by apply Hdist.
  - (* commit *)
    assert (writer s = Some i) as Hwi.
    { apply (Hlock _ _ Hc). unfold in_transaction. by rewrite Hpc. }
    specialize (Hread _ _ Hc) as Hri. unfold consistent in Hri.
    rewrite Hpc in Hri. destruct Hri as [Hsel ->].
    apply select_next_pending_Some in Hsel as (Hin & Hp & _).
    split; simpl.
    + intros k ck. rewrite (lookup_insert_call _ _ _ _ _ Hc).
      case_decide; [by intros [= <-]|]. intros Hk Htx.
      specialize (Hlock _ _ Hk Htx). congruence.
    + intros k ck. rewrite (lookup_insert_call _ _ _ _ _ Hc).
      case_decide; [by intros [= <-]|]. intros Hk.
      unfold consistent.
      destruct (call_pc ck) eqn:Hpck; try done;
        (assert (writer s = Some k) as Hwk
           by (apply (Hlock _ _ Hk); unfold in_transaction; by rewrite Hpck);
         congruence).
    + intros k ck a. rewrite (lookup_insert_call _ _ _ _ _ Hc).
      case_decide.
      * intros [= <-]. simpl. intros [= <-] r Hr Hid Hpr.
        apply mark_in_progress_not_pending in Hr as [_ Hne]; done.
      * intros Hk Hpck r Hr Hid Hpr.
        apply mark_in_progress_not_pending in Hr as [Hr _]; [|done].
        by apply (Htaken _ _ _ Hk Hpck r).
    + intros k1 k2 c1 c2 a b Hne.
      rewrite !(lookup_insert_call _ _ _ _ _ Hc).
      repeat case_decide; subst; try done.
      * intros [= <-] Hk2 [= <-] Hb. simpl. intros Heq.
        by apply (Htaken _ _ _ Hk2 Hb j Hin).
      * intros Hk1 [= <-] Ha [= <-]. simpl. intros Heq.
        by apply (Htaken _ _ _ Hk1 Ha j Hin).
      * by apply Hdist.
Qed.

Lemma run_invariant schedule s : invariant s → invariant (run schedule s).
Proof.
  revert s. induction schedule as [|i schedule IH]; intros s Hs; [done|].
  simpl. apply IH. destruct (step i s) as [s'|] eqn:Hstep; [|done].
  by eapply step_invariant.
Qed.

Lemma start_lookup conn callers i c :
  calls (start conn callers) !! i = Some c → call_pc c = AtBegin.
Proof.
  unfold start. simpl. rewrite list_lookup_fmap.
  destruct (callers !! i); [|done]. by intros [= <-].
Qed.

Lemma start_invariant conn callers : invariant (start conn callers).
Proof.
  split.
  - intros i c Hc%start_lookup. unfold in_transaction. by rewrite Hc.
  - intros i c Hc%start_lookup. unfold consistent. by rewrite Hc.
  - intros i c a Hc%start_lookup. by rewrite Hc.
  - intros i k ci ck a b _ Hc%start_lookup. by rewrite Hc.
Qed.

(** ** A store with exactly one [PENDING] job *)

(** Either the job [row] is still the one [PENDING] job and no call has
    returned, or no job is [PENDING], one call has returned [row] as
    claimed by its worker, and every other call that has returned has
    returned nothing. *)
Definition one_job_invariant (row : DBJob) (s : System) : Prop :=
  (filter (λ r, status r = PENDING) (jobs (committed s)) = [row] ∧
   ∀ i c r, calls s !! i = Some c → call_pc c ≠ Returned r)
  ∨
  (filter (λ r, status r = PENDING) (jobs (committed s)) = [] ∧
   ∃ i c, calls s !! i = Some c ∧
     call_pc c = Returned (Some (set_worker (Some (call_worker c))
                                   (set_status IN_PROGRESS row))) ∧
     ∀ k ck r, k ≠ i → calls s !! k = Some ck →
               call_pc ck = Returned r → r = None).

Lemma step_one_job_invariant row i s s' :
  invariant s → one_job_invariant row s → step i s = Some s' →
  one_job_invariant row s'.
Proof.
  intros [Hlock Hread _ _] Hone Hstep%step_stepped.
  assert (∀ c p, calls s !! i = Some c → (∀ r, call_pc c ≠ Returned r) →
                 (∀ r, p ≠ Returned r) →
                 one_job_invariant row
                   (mkSystem (committed s) (writer s) (calls s)) →
                 ∀ w, one_job_invariant row
                   (mkSystem (committed s) w (<[i := at_pc c p]> (calls s))))
    as Hquiet.
  { intros c p Hc Hpc Hp [[Hf Hnone]|[Hf (i0 & c0 & Hc0 & Hpc0 & Hrest)]] w.
    - left. split; [done|]. simpl. intros k ck r.
      rewrite (lookup_insert_call _ _ _ _ _ Hc).
      case_decide; [intros [= <-]; apply Hp|apply Hnone].
    - right. split; [done|]. simpl in *.
      assert (i0 ≠ i) as Hne.
      { intros ->. rewrite Hc in Hc0. simplify_eq. by eapply Hpc. }
      exists i0, c0. split_and!; [|done|].
      + rewrite (lookup_insert_call _ _ _ _ _ Hc). by case_decide.
      + intros k ck r Hk. rewrite (lookup_insert_call _ _ _ _ _ Hc).
        case_decide; [|by apply Hrest]. intros [= <-]. simpl.
        intros Hr. by destruct (Hp r). }
  assert (one_job_invariant row (mkSystem (committed s) (writer s) (calls s)))
    as Hone' by (by destruct s).
  destruct Hstep as [c Hc Hpc Hw ->|c Hc Hpc ->|c Hc Hpc ->
                    |c j Hc Hpc ->|c j tx Hc Hpc ->].
  - apply Hquiet; [done| |done..]. intros r. by rewrite Hpc.
  - apply Hquiet; [done| |done..]. intros r. by rewrite Hpc.
  - (* rollback: nothing is pending *)
    specialize (Hread _ _ Hc) as Hri. unfold consistent in Hri.
    rewrite Hpc in Hri. symmetry in Hri. apply oldest_None in Hri.
    destruct Hone as [[Hf _]|[Hf (i0 & c0 & Hc0 & Hpc0 & Hrest)]];
      [congruence|].
    right. split; [done|]. simpl.
    assert (i0 ≠ i) as Hne.
    { intros ->. rewrite Hc in Hc0. simplify_eq. congruence. }
    exists i0, c0. split_and!; [|done|].
    + rewrite (lookup_insert_call _ _ _ _ _ Hc). by case_decide.
    + intros k ck r Hk. rewrite (lookup_insert_call _ _ _ _ _ Hc).
      case_decide; [|by apply Hrest]. by intros [= <-] [= <-].
  - apply Hquiet; [done| |done..]. intros r. by rewrite Hpc.
  - (* commit: the one pending job is taken *)
    specialize (Hread _ _ Hc) as Hri. unfold consistent in Hri.
    rewrite Hpc in Hri. destruct Hri as [Hsel ->].
    unfold select_next_pending in Hsel.
    destruct Hone as [[Hf Hnone]|[Hf _]]; [|by rewrite Hf in Hsel].
    rewrite Hf in Hsel. simpl in Hsel. simplify_eq.
    right. split; simpl.
    + apply filter_none. intros r Hr Hp.
      apply mark_in_progress_not_pending in Hr as [Hr Hid]; [|done].
      assert (r ∈ filter (λ r, status r = PENDING) (jobs (committed s)))
        as Hrf by by apply list_elem_of_filter.
      rewrite Hf in Hrf. apply list_elem_of_singleton in Hrf. by subst.
    + exists i, (at_pc c (Returned (Some (set_worker (Some (call_worker c))
                                          (set_status IN_PROGRESS j))))).
      split_and!; [|done|].
      * rewrite (lookup_insert_call _ _ _ _ _ Hc). by case_decide.
      * intros k ck r Hk. rewrite (lookup_insert_call _ _ _ _ _ Hc).
        case_decide; [done|]. intros Hck Hr. by destruct (Hnone _ _ _ Hck Hr).
Qed.

Lemma run_one_job_invariant row schedule s :
  invariant s → one_job_invariant row s →
  one_job_invariant row (run schedule s).
Proof.
  revert s. induction schedule as [|i schedule IH]; intros s Hs Hone; [done|].
  simpl. destruct (step i s) as [s'|] eqn:Hstep; simpl; [|by apply IH].
  apply IH; [by eapply step_invariant|by eapply step_one_job_invariant].
Qed.

(** A schedule changes neither who the callers are nor their number. *)
Lemma step_callers i s s' :
  step i s = Some s' →
  (λ c, (call_worker c, call_now c)) <$> calls s' =
  (λ c, (call_worker c, call_now c)) <$> calls s.
Proof.
  assert (∀ c p, calls s !! i = Some c →
    (λ c, (call_worker c, call_now c)) <$> <[i := at_pc c p]> (calls s) =
    (λ c, (call_worker c, call_now c)) <$> calls s) as Hins.
  { intros c p Hc. rewrite list_fmap_insert. simpl.
    apply list_insert_id. by rewrite list_lookup_fmap, Hc. }
  intros Hstep%step_stepped.
  destruct Hstep as [c Hc Hpc Hw ->|c Hc Hpc ->|c Hc Hpc ->
                    |c j Hc Hpc ->|c j tx Hc Hpc ->]; simpl; by apply Hins.
Qed.

Lemma run_callers conn callers schedule :
  (λ c, (call_worker c, call_now c)) <$>
    calls (run schedule (start conn callers)) = callers.
Proof.
  assert (∀ s, (λ c, (call_worker c, call_now c)) <$> calls (run schedule s) =
               (λ c, (call_worker c, call_now c)) <$> calls s) as Hrun.
  { induction schedule as [|i schedule IH]; intros s; [done|]. simpl.
    rewrite IH. destruct (step i s) as [s'|] eqn:Hstep; [|done].
    by apply (step_callers i). }
  rewrite Hrun. unfold start. simpl. rewrite <-list_fmap_compose.
  rewrite <-(list_fmap_id callers) at 2. apply list_fmap_ext.
  by intros _ [w now] _.
Qed.

(** ** One caller after the other *)

(** A caller that finds the lock free and is left alone for four
    statements comes back with what [get_next_job] gives on the committed
    database, which is then what [get_next_job] leaves. *)
Lemma run_cons i schedule s :
  run (i :: schedule) s = run schedule (default s (step i s)).
Proof. done. Qed.

#[local] Arguments run : simpl never.

Lemma run_alone i s c :
  calls s !! i = Some c → call_pc c = AtBegin → writer s = None →
  run (replicate 4 i) s =
  mkSystem (get_next_job (committed s) (call_now c) (call_worker c)).1 None
    (<[i := at_pc c (Returned
         (get_next_job (committed s) (call_now c) (call_worker c)).2)]>
       (calls s)).
Proof.
  intros Hc Hpc Hw. destruct s as [conn w cs]. simpl in *. subst w.
  assert (i < length cs) as Hlt by by eapply lookup_lt_Some.
  change (replicate 4 i) with [i; i; i; i].
  rewrite run_cons. unfold step at 1. simpl. rewrite Hc, Hpc. simpl.
  rewrite run_cons. unfold step at 1. simpl.
  rewrite list_lookup_insert_eq by done. simpl.
  rewrite run_cons. unfold step at 1. simpl.
  rewrite list_lookup_insert_eq by (by rewrite length_insert). simpl.
  unfold get_next_job.
  destruct (select_next_pending (jobs conn)) as [row|]; simpl.
  - rewrite run_cons. unfold step at 1. simpl.
    rewrite list_lookup_insert_eq by (by rewrite !length_insert). simpl.
    by rewrite !list_insert_insert_eq.
  - rewrite run_cons. unfold step at 1. simpl.
    rewrite list_lookup_insert_eq by (by rewrite !length_insert). simpl.
    by rewrite !list_insert_insert_eq.
Qed.

Lemma run_app schedule1 schedule2 s :
  run (schedule1 ++ schedule2) s = run schedule2 (run schedule1 s).
Proof. apply foldl_app. Qed.

Lemma one_by_one_S m : one_by_one (S m) = one_by_one m ++ replicate 4 m.
Proof.
  unfold one_by_one. rewrite seq_S, fmap_app, concat_app. f_equal.
Qed.

Lemma one_by_one_returns n m s :
  m ≤ n → length (calls s) = n → writer s = None →
  (∀ k c, calls s !! k = Some c → call_pc c = AtBegin) →
  writer (run (one_by_one m) s) = None ∧
  length (calls (run (one_by_one m) s)) = n ∧
  ∀ k c, calls (run (one_by_one m) s) !! k = Some c →
         if decide (k < m) then has_returned c = true
         else call_pc c = AtBegin.
Proof.
  intros Hm Hlen Hw Hbegin. induction m as [|m IH].
  - change (run (one_by_one 0) s) with s. split_and!; [done..|].
    intros k c Hk. case_decide; [lia|by eapply Hbegin].
  - destruct IH as (Hw' & Hlen' & Hpcs); [lia|].
    rewrite one_by_one_S, run_app.
    set (s1 := run (one_by_one m) s) in *.
    destruct (lookup_lt_is_Some_2 (calls s1) m) as [c Hc]; [lia|].
    specialize (Hpcs m c Hc) as Hpc. rewrite decide_False in Hpc by lia.
    rewrite (run_alone m s1 c Hc Hpc Hw'). simpl.
    split_and!; [done|by rewrite length_insert|].
    intros k ck. rewrite (lookup_insert_call _ _ _ _ _ Hc).
    case_decide as Hk.
    + subst k. intros [= <-]. by rewrite decide_True by lia.
    + intros Hck. specialize (Hpcs k ck Hck).
      repeat case_decide; try done; lia.
Qed.

(** Left to run one after the other, all callers return. *)
Lemma one_by_one_all_returned conn callers :
  all_returned (run (one_by_one (length callers)) (start conn callers)).
Proof.
  destruct (one_by_one_returns (length callers) (length callers)
              (start conn callers)) as (_ & Hlen & Hall).
  - done.
  - unfold start. simpl. by rewrite length_fmap.
  - done.
  - apply start_lookup.
  - apply Forall_lookup. intros k c Hk. specialize (Hall k c Hk).
    apply lookup_lt_Some in Hk. rewrite decide_True in Hall by lia. done.
Qed.

(** Under any schedule and on any store, two callers never come back with
    the same job. *)
Lemma no_job_claimed_twice conn callers schedule i k a b :
  i ≠ k →
  returned (run schedule (start conn callers)) i = Some (Some a) →
  returned (run schedule (start conn callers)) k = Some (Some b) →
  id a ≠ id b.
Proof.
  intros Hne Hi Hk.
  destruct (run_invariant schedule _ (start_invariant conn callers))
    as [_ _ _ Hdist].
  unfold returned in Hi, Hk.
  destruct (calls _ !! i) as [ci|] eqn:Hci; [|done].
  destruct (calls _ !! k) as [ck|] eqn:Hck; [|done].
  destruct (call_pc ci) eqn:Hpi; try done.
  destruct (call_pc ck) eqn:Hpk; try done.
  simplify_eq. by eapply (Hdist i k).
Qed.

(** C1: [callers] call [get_next_job] at the same time, each on its own
    connection, on a store with exactly one [PENDING] job, and the
    statements of the calls are interleaved by an arbitrary schedule under
    which all of them return.  Then exactly one caller gets the job, as
    claimed by that caller, every other caller gets nothing, and no two
    callers get the same job. *)
Theorem one_pending_job_one_claimer conn callers schedule row :
  callers ≠ [] →
  filter (λ r, status r = PENDING) (jobs conn) = [row] →
  all_returned (run schedule (start conn callers)) →
  (∃ i w, callers !! i = Some w ∧
     returned (run schedule (start conn callers)) i =
       Some (Some (set_worker (Some w.1) (set_status IN_PROGRESS row))) ∧
     ∀ k, k ≠ i → k < length callers →
          returned (run schedule (start conn callers)) k = Some None) ∧
  (∀ i k a b, i ≠ k →
     returned (run schedule (start conn callers)) i = Some (Some a) →
     returned (run schedule (start conn callers)) k = Some (Some b) →
     id a ≠ id b).
Proof.
  intros Hcallers Hone Hall.
  split; [|intros i k a b; apply no_job_claimed_twice].
  pose proof (run_callers conn callers schedule) as Hwho.
  pose proof (run_one_job_invariant row schedule _
                (start_invariant conn callers)) as Hphase.
  set (s := run schedule (start conn callers)) in *.
  assert (length (calls s) = length callers) as Hlen
    by (by rewrite <-Hwho, length_fmap).
  assert (∀ k c, calls s !! k = Some c → ∃ r, call_pc c = Returned r)
    as Hret.
  { intros k c Hk. eapply Forall_lookup_1 in Hall; [|exact Hk].
    unfold has_returned in Hall. destruct (call_pc c); try done. by eexists. }
  destruct Hphase as [[_ Hnone]|[_ (i & c & Hc & Hpc & Hrest)]].
  - left. split; [done|]. intros k c r Hc%start_lookup. by rewrite Hc.
  - (* no call has returned: impossible, as there is a caller *)
    destruct callers as [|w callers]; [done|].
    destruct (lookup_lt_is_Some_2 (calls s) 0) as [c Hc];
      [rewrite Hlen; simpl; lia|].
    destruct (Hret _ _ Hc) as [r Hr]. by destruct (Hnone _ _ _ Hc Hr).
  - exists i, (call_worker c, call_now c). split_and!.
    + rewrite <-Hwho, list_lookup_fmap, Hc. done.
    + unfold returned. by rewrite Hc, Hpc.
    + intros k Hk Hlt.
      destruct (lookup_lt_is_Some_2 (calls s) k) as [ck Hck]; [lia|].
      destruct (Hret _ _ Hck) as [r Hr].
      unfold returned. rewrite Hck, Hr.
      by rewrite (Hrest _ _ _ Hk Hck Hr).
Qed.

Definition one_pending : DB :=
  mkDB [mkDBJob 1 "a" [] DONE 1 (Some 4%Z) (Some "w0");
        mkDBJob 2 "b" [] PENDING 5 None None] [] 2 0.

Definition three_callers : list (string * Z) :=
  [("w1", 100%Z); ("w2", 101%Z); ("w3", 102%Z)].

Definition interleaved : list nat :=
  [1; 0; 1; 2; 0; 1; 2; 1; 2; 0; 2; 0; 2; 0; 2; 0; 0].

Lemma one_pending_job_one_claimer_witness :
  three_callers ≠ [] ∧
  filter (λ r, status r = PENDING) (jobs one_pending) =
    [mkDBJob 2 "b" [] PENDING 5 None None] ∧
  all_returned (run interleaved (start one_pending three_callers)) ∧
  (∃ i w, three_callers !! i = Some w ∧
     returned (run interleaved (start one_pending three_callers)) i =
       Some (Some (set_worker (Some w.1)
                     (set_status IN_PROGRESS
                        (mkDBJob 2 "b" [] PENDING 5 None None)))) ∧
     ∀ k, k ≠ i → k < length three_callers →
          returned (run interleaved (start one_pending three_callers)) k =
            Some None) ∧
  (∀ i k a b, i ≠ k →
     returned (run interleaved (start one_pending three_callers)) i =
       Some (Some a) →
     returned (run interleaved (start one_pending three_callers)) k =
       Some (Some b) →
     id a ≠ id b).
Proof.
  assert (three_callers ≠ []) as H1 by done.
  assert (filter (λ r, status r = PENDING) (jobs one_pending) =
            [mkDBJob 2 "b" [] PENDING 5 None None]) as H2 by reflexivity.
  assert (all_returned (run interleaved (start one_pending three_callers)))
    as H3 by (vm_compute; repeat constructor).
  split_and!; [exact H1|exact H2|exact H3| |];
    apply (one_pending_job_one_claimer one_pending three_callers interleaved
             _ H1 H2 H3).
Defined.

(** In that run the caller whose [BEGIN IMMEDIATE] came first has the job. *)
Example interleaved_outcome :
  returned (run interleaved (start one_pending three_callers)) <$> [0; 1; 2]
  = [Some None;
     Some (Some (mkDBJob 2 "b" [] IN_PROGRESS 5 None (Some "w2")));
     Some None].
Proof. reflexivity. Qed.

End ClaimingFacts.

(** * The worker *)
Module WorkerFacts.
Import Database DatabaseFacts Worker.

(** ** What reaches the trace *)

(** Every event but a call of [get_next_job]. *)
Definition no_claim (e : event) : Prop :=
  match e with GetNextJob _ _ => False | _ => True end.

#[global] Instance no_claim_dec e : Decision (no_claim e).
Proof. destruct e; apply _. Defined.

(** Code that only appends to the trace, and no call of [get_next_job]. *)
Definition Quiet {A} (m : M A) : Prop :=
  ∀ s, ∃ evs, trace (m s).1 = trace s ++ evs ∧ Forall no_claim evs.

Lemma Quiet_ret {A} (a : A) : Quiet (ret a).
Proof. intros s. exists []. by rewrite app_nil_r. Qed.

Lemma Quiet_mret {A} (a : A) : Quiet (mret a : M A).
Proof. apply Quiet_ret. Qed.

Lemma Quiet_raise {A} e : Quiet (raise e : M A).
Proof. intros s. exists []. by rewrite app_nil_r. Qed.

Lemma Quiet_lift {A} (r : result A) : Quiet (lift r).
Proof. intros s. exists []. by rewrite app_nil_r. Qed.

Lemma Quiet_get {A} (f : State → A) : Quiet (get f).
Proof. intros s. exists []. by rewrite app_nil_r. Qed.

Lemma Quiet_modify f : (∀ s, trace (f s) = trace s) → Quiet (modify f).
Proof. intros Hf s. exists []. simpl. by rewrite Hf, app_nil_r. Qed.

Lemma Quiet_emit e : no_claim e → Quiet (emit e).
Proof. intros He s. exists [e]. split; [done|]. by constructor. Qed.

Lemma Quiet_log l lv m : Quiet (log l lv m).
Proof. by apply Quiet_emit. Qed.

Lemma Quiet_bind {A B} (m : M A) (k : A → M B) :
  Quiet m → (∀ a, Quiet (k a)) → Quiet (m ≫= k).
Proof.
  intros Hm Hk s. unfold mbind, M_bind, bind.
  destruct (Hm s) as (evs1 & Ht1 & Hq1).
  destruct (m s) as [s1 [a|e]]; simpl in *.
  - destruct (Hk a s1) as (evs2 & Ht2 & Hq2).
    exists (evs1 ++ evs2). rewrite Ht2, Ht1, app_assoc.
    split; [done|]. by apply Forall_app.
  - by exists evs1.
Qed.

Lemma Quiet_attempt {A} (m : M A) : Quiet m → Quiet (attempt m).
Proof.
  intros Hm s. unfold attempt. destruct (Hm s) as (evs & Ht & Hq).
  destruct (m s) as [s1 r]. by exists evs.
Qed.

(** Splits a computation into its statements and closes the simple ones. *)
Ltac quiet :=
  repeat first
    [ apply Quiet_bind; [|intros ?]
    | apply Quiet_attempt
    | apply Quiet_ret | apply Quiet_mret | apply Quiet_raise
    | apply Quiet_lift | apply Quiet_get | apply Quiet_log
    | apply Quiet_emit; exact I
    | apply Quiet_modify; intros []; reflexivity
    | match goal with
      | |- Quiet (match ?x with _ => _ end) => destruct x
      | |- Quiet (if ?x then _ else _) => destruct x
      end ].

Lemma Quiet_try_finally {A} (body : M A) cleanup :
  Quiet body → Quiet cleanup → Quiet (try_finally body cleanup).
Proof.
  intros Hb Hc. unfold try_finally.
  apply Quiet_bind; [by apply Quiet_attempt|intros r].
  apply Quiet_bind; [done|intros _; apply Quiet_lift].
Qed.

Lemma Quiet_async_with {A} acquire release (body : M A) :
  Quiet acquire → Quiet release → Quiet body →
  Quiet (async_with acquire release body).
Proof.
  intros Ha Hr Hb. unfold async_with.
  apply Quiet_bind; [done|intros _]. by apply Quiet_try_finally.
Qed.

Lemma Quiet_cancel t : Quiet (cancel t).
Proof. unfold cancel. quiet. Qed.

Lemma Quiet_resume t : Quiet (resume t).
Proof. unfold resume. quiet. Qed.

Lemma Quiet_await t : Quiet (await t).
Proof.
  unfold await. apply Quiet_bind; [by apply Quiet_emit|intros _].
  apply Quiet_resume.
Qed.

Lemma Quiet_create_task c : Quiet (create_task c).
Proof. unfold create_task. quiet. Qed.

Lemma Quiet_cancel_task t l : Quiet (_cancel_task t l).
Proof.
  unfold _cancel_task. quiet; first [apply Quiet_cancel|apply Quiet_await].
Qed.

Lemma Quiet_wait_for_close b timeout : Quiet (wait_for_close b timeout).
Proof. unfold wait_for_close. repeat case_match; quiet. Qed.

Lemma Quiet_shutdown_browser b timeout l : Quiet (_shutdown_browser b timeout l).
Proof.
  unfold _shutdown_browser.
  apply Quiet_bind; [apply Quiet_attempt, Quiet_wait_for_close|].
  intros r. quiet.
Qed.

Lemma Quiet_teardown name_ : Quiet (teardown name_).
Proof.
  unfold teardown.
  apply Quiet_bind; [apply Quiet_get|intros t].
  apply Quiet_bind; [apply Quiet_cancel_task|intros _].
  apply Quiet_bind; [apply Quiet_get|intros [b|]].
  - apply Quiet_shutdown_browser.
  - apply Quiet_ret.
Qed.

Lemma Quiet_run_job w jobs_defs job : Quiet (run_job w jobs_defs job).
Proof.
  unfold run_job, await_cancellable.
  repeat (apply Quiet_async_with; [quiet..|]).
  quiet; first [apply Quiet_create_task|apply Quiet_cancel|apply Quiet_resume].
Qed.

Lemma Quiet_report w i s o : Quiet (report w i s o).
Proof. unfold report. quiet. Qed.

Lemma Quiet_finish_job w job s o : Quiet (finish_job w job s o).
Proof. unfold finish_job. quiet. Qed.

Ltac unfold_state :=
  unfold with_db, with_tasks, with_trace, with_shutdown, with_last_heartbeat,
    with_browser, with_current_job_task in *.

Ltac unfold_M :=
  unfold mbind, M_bind, bind, mret, M_ret, ret, raise, attempt, lift, get,
    log, emit, modify in *.

(** Leaving an [async with] block: an exception of the close replaces
    what the block returned or raised. *)
Definition closing {A} (close_ : result unit) (r : result A) : result A :=
  match close_ with Raise e => Raise e | Ok _ => r end.

(** The coroutine of the task that [run_job] creates, when it gets that
    far: the context and the page open, the class is found and takes the
    input. *)
Definition job_coroutine (w : World) (jobs_defs : gmap string JobClass)
    (job : DBJob) : option Coroutine :=
  match new_context w, new_page w, jobs_defs !! name job with
  | Ok _, Ok _, Some cls =>
      match cls (input job) with
      | Ok inst => Some (execute inst)
      | Raise _ => None
      end
  | _, _, _ => None
  end.

(** What the task of [run_job] ends with: a cancellation of the worker
    while it awaits the task is thrown into the coroutine. *)
Definition task_outcome (w : World) (c : Coroutine) : result (option bytes) :=
  if cancelled w then run_cancelled c else run c.

(** What lines 60 to 65 end with. *)
Definition job_outcome (w : World) (jobs_defs : gmap string JobClass)
    (job : DBJob) : result (option bytes) :=
  match new_context w with
  | Raise e => Raise e
  | Ok _ =>
      closing (close_context w)
        match new_page w with
        | Raise e => Raise e
        | Ok _ =>
            closing (close_page w)
              match jobs_defs !! name job with
              | None => Raise KeyError
              | Some cls =>
                  match cls (input job) with
                  | Raise e => Raise e
                  | Ok inst => task_outcome w (execute inst)
                  end
              end
        end
  end.

(** The events of the task [t] of [run_job]: it is created and awaited,
    and cancelled when the worker is cancelled meanwhile. *)
Definition task_events (w : World) (t : nat) : list event :=
  CreateTask t :: AwaitTask t :: (if cancelled w then [CancelTask t] else []).

(** The events of lines 60 to 65 in a worker that has created [t] tasks
    before. *)
Definition run_job_events (w : World) (jobs_defs : gmap string JobClass)
    (job : DBJob) (t : nat) : list event :=
  NewContext ::
    match new_context w with
    | Raise _ => []
    | Ok _ =>
        NewPage ::
          match new_page w with
          | Raise _ => []
          | Ok _ =>
              match job_coroutine w jobs_defs job with
              | Some _ => task_events w t
              | None => []
              end ++ [ClosePage]
          end ++ [CloseContext]
    end.

(** The state in which lines 60 to 65 leave the worker. *)
Definition ran (w : World) (jobs_defs : gmap string JobClass) (job : DBJob)
    (s : State) : State :=
  mkState (db s)
    (tasks s ++
       match job_coroutine w jobs_defs job with
       | Some c => [mkTask c (Finished (task_outcome w c))]
       | None => []
       end)
    (trace s ++ run_job_events w jobs_defs job (length (tasks s)))
    (shutdown s) (last_heartbeat s) (browser s)
    match job_coroutine w jobs_defs job with
    | Some _ => Some (length (tasks s))
    | None => current_job_task s
    end.

(** Every task the worker has created has finished, and
    [current_job_task] is none or one of them. *)
Definition settled (s : State) : Prop :=
  Forall (λ task, done task = true) (tasks s) ∧
  ∀ t, current_job_task s = Some t → t < length (tasks s).

Lemma lookup_last {A} (l : list A) x : (l ++ [x]) !! length l = Some x.
Proof. by apply list_lookup_middle. Qed.

Lemma alter_last {A} (f : A → A) l x :
  alter f (length l) (l ++ [x]) = l ++ [f x].
Proof.
  rewrite <-(Nat.add_0_r (length l)) at 1. by rewrite alter_app_r.
Qed.

Lemma insert_last {A} (l : list A) x y :
  <[length l := y]> (l ++ [x]) = l ++ [y].
Proof.
  rewrite <-(Nat.add_0_r (length l)) at 1. by rewrite insert_app_r.
Qed.

Lemma async_with_eq {A} e1 r1 e2 r2 (body : M A) s :
  async_with (emit e1 ;; lift r1) (emit e2 ;; lift r2) body s =
  match r1 with
  | Raise e => (with_trace (trace s ++ [e1]) s, Raise e)
  | Ok _ =>
      let '(s', r) := body (with_trace (trace s ++ [e1]) s) in
      (with_trace (trace s' ++ [e2]) s', closing r2 r)
  end.
Proof.
  unfold async_with, try_finally. unfold_M.
  destruct r1 as [[]|e]; [|done].
  destruct (body _) as [s' r]. by destruct r2 as [[]|e'].
Qed.

(** Lines 62 to 65: the task is created from the coroutine, noted in
    [current_job_task] and awaited. *)
Lemma run_task_eq w c s :
  (t ← create_task c;
   modify (with_current_job_task (Some t));;
   await_cancellable (cancelled w) t) s =
  (mkState (db s) (tasks s ++ [mkTask c (Finished (task_outcome w c))])
     (trace s ++ task_events w (length (tasks s)))
     (shutdown s) (last_heartbeat s) (browser s) (Some (length (tasks s))),
   task_outcome w c).
Proof.
  destruct s as [d ts tr sd hb br cur].
  unfold create_task, await_cancellable, cancel, resume, task_outcome,
    task_events.
  unfold_M. unfold_state. simpl.
  destruct (cancelled w); simpl;
    rewrite ?alter_last, ?lookup_last; simpl; rewrite ?insert_last;
    rewrite <-!app_assoc; by destruct (run_cancelled c), (run c).
Qed.

(** Lines 60 to 65 as a whole. *)
Lemma run_job_eq w jobs_defs job s :
  run_job w jobs_defs job s =
  (ran w jobs_defs job s, job_outcome w jobs_defs job).
Proof.
  unfold run_job. rewrite async_with_eq.
  unfold ran, job_outcome, run_job_events, job_coroutine.
  destruct (new_context w) as [[]|e1];
    [|destruct s; unfold_state; simpl; by rewrite app_nil_r].
  rewrite async_with_eq.
  destruct (new_page w) as [[]|e2];
    [|destruct s; unfold_state; simpl;
      by rewrite app_nil_r, <-!app_assoc].
  unfold mbind at 1, M_bind at 1, bind at 1, lift at 1.
  destruct (jobs_defs !! name job) as [cls|]; simpl from_option;
    [|destruct s; unfold_state; simpl;
      by rewrite app_nil_r, <-!app_assoc].
  unfold mbind at 1, M_bind at 1, bind at 1, lift at 1.
  destruct (cls (input job)) as [inst|e3];
    [|destruct s; unfold_state; simpl;
      by rewrite app_nil_r, <-!app_assoc].
  rewrite run_task_eq.
  destruct s; unfold_state; simpl. by rewrite <-!app_assoc.
Qed.

Lemma settled_ran w jobs_defs job s :
  settled s → settled (ran w jobs_defs job s).
Proof.
  intros [Hts Hcur]. unfold ran. split; simpl.
  - apply Forall_app. split; [done|].
    destruct (job_coroutine w jobs_defs job); by repeat constructor.
  - intros t Ht. rewrite length_app.
    destruct (job_coroutine w jobs_defs job); simpl.
    + injection Ht as <-. lia.
    + specialize (Hcur t Ht). lia.
Qed.

Lemma run_job_events_no_claim w jobs_defs job t :
  Forall no_claim (run_job_events w jobs_defs job t).
Proof.
  unfold run_job_events, task_events.
  destruct (new_context w), (new_page w), (job_coroutine w jobs_defs job),
    (cancelled w); by repeat constructor.
Qed.

Lemma run_job_spec w jobs_defs job s :
  ∃ ts cur evs,
    run_job w jobs_defs job s =
      (mkState (db s) ts (trace s ++ evs) (shutdown s) (last_heartbeat s)
         (browser s) cur,
       job_outcome w jobs_defs job) ∧
    (settled s →
     settled (mkState (db s) ts (trace s ++ evs) (shutdown s)
                (last_heartbeat s) (browser s) cur)).
Proof.
  rewrite run_job_eq. eexists _, _, _. split; [reflexivity|].
  apply settled_ran.
Qed.

Lemma cancel_task_done t l s :
  (∀ i, t = Some i → ∃ task, tasks s !! i = Some task ∧ done task = true) →
  _cancel_task t l s = (s, Ok tt).
Proof.
  intros Hdone. unfold _cancel_task. destruct t as [i|]; [|done].
  destruct (Hdone i eq_refl) as (task & Hi & Hd).
  unfold_M. rewrite Hi. simpl. by rewrite Hd.
Qed.

Lemma cancel_task_settled l s :
  settled s → _cancel_task (current_job_task s) l s = (s, Ok tt).
Proof.
  intros [Hts Hcur]. apply cancel_task_done. intros i Hi.
  destruct (lookup_lt_is_Some_2 (tasks s) i) as [task Htask]; [by apply Hcur|].
  exists task. split; [done|]. by eapply Forall_lookup_1 in Hts.
Qed.


(** The state in which a job that was worked on leaves the worker. *)
Definition worked (w : World) (name_ : string) (job : DBJob) (s : State)
    (ts : list Task) (cur : option nat) (evs : list event)
    (status_ : JobStatus) (output_ : option bytes) (l : level) (m : message)
    (stop : bool) : State :=
  mkState (update_job_status (db s) (complete_time w) (id job) status_ output_)
    ts
    (trace s ++ Log name_ INFO (StartingJob (id job) (name job)) :: evs ++
       [Log name_ l m; UpdateJobStatus (id job) status_ output_])
    stop (monotonic w) (browser s) cur.

(** Lines 56 to 86 in a worker whose tasks have all finished: the events
    are those of lines 60 to 65, one log line and the call of
    [update_job_status]; [_cancel_task] in line 69 adds none. *)
Lemma work_on_eq name_ jobs_defs w job s :
  settled s →
  work_on name_ jobs_defs w job s =
    let ts := tasks (ran w jobs_defs job s) in
    let cur := current_job_task (ran w jobs_defs job s) in
    let evs := run_job_events w jobs_defs job (length (tasks s)) in
    match job_outcome w jobs_defs job with
    | Ok output_ =>
        (worked w name_ job s ts cur evs DONE output_ INFO
           (JobIsDone (id job)) (shutdown s), Ok Continue)
    | Raise e =>
        if is_interruption e then
          (worked w name_ job s ts cur evs FAILED None ERROR
             (JobInterrupted (id job)) true, Ok Break)
        else
          (worked w name_ job s ts cur evs FAILED None ERROR
             JobExecutionFailed (shutdown s), Ok Continue)
    end.
Proof.
  intros Hs.
  pose proof (settled_ran w jobs_defs job s Hs) as [Hts Hcur].
  destruct s as [d ts0 tr sd hb br cur0].
  unfold work_on, finish_job, report, worked. unfold_M. unfold_state. simpl.
  rewrite run_job_eq. unfold ran in *. simpl in *.
  destruct (job_outcome w jobs_defs job) as [out|e]; simpl.
  - rewrite <-!app_assoc. done.
  - destruct (is_interruption e) eqn:He; simpl.
    + rewrite cancel_task_done; simpl.
      * rewrite <-!app_assoc. done.
      * intros i Hi.
        destruct (lookup_lt_is_Some_2 _ i (Hcur i Hi)) as [task Htask].
        exists task. split; [done|]. by eapply Forall_lookup_1 in Hts.
    + assert (is_Exception e = true) as -> by (by destruct e).
      simpl. rewrite <-!app_assoc. done.
Qed.

Lemma work_on_spec name_ jobs_defs w job s :
  settled s →
  ∃ ts cur evs,
    Forall no_claim evs ∧
    Forall (λ task, done task = true) ts ∧
    (∀ t, cur = Some t → t < length ts) ∧
    work_on name_ jobs_defs w job s =
      match job_outcome w jobs_defs job with
      | Ok output_ =>
          (worked w name_ job s ts cur evs DONE output_ INFO
             (JobIsDone (id job)) (shutdown s), Ok Continue)
      | Raise e =>
          if is_interruption e then
            (worked w name_ job s ts cur evs FAILED None ERROR
               (JobInterrupted (id job)) true, Ok Break)
          else
            (worked w name_ job s ts cur evs FAILED None ERROR
               JobExecutionFailed (shutdown s), Ok Continue)
      end.
Proof.
  intros Hs. eexists _, _, _.
  split; [apply run_job_events_no_claim|].
  destruct (settled_ran w jobs_defs job s Hs) as [Hts Hcur].
  split; [exact Hts|]. split; [exact Hcur|].
  by apply work_on_eq.
Qed.

Definition claimed (name_ : string) (row : DBJob) : DBJob :=
  set_worker (Some name_) (set_status IN_PROGRESS row).

Lemma turn_job_spec name_ jobs_defs w s row :
  settled s → select_next_pending (jobs (db s)) = Some row →
  turn name_ jobs_defs w s =
  work_on name_ jobs_defs w (claimed name_ row)
    (mkState (mark_in_progress (db s) (claim_time w) name_ (id row))
       (tasks s) (trace s ++ [GetNextJob name_ (Some (claimed name_ row))])
       (shutdown s) (last_heartbeat s) (browser s) (current_job_task s)).
Proof.
  intros Hs Hsel.
  match goal with
  | |- _ = work_on ?n ?d ?w ?j ?s1 =>
      destruct (work_on_spec n d w j s1) as (ts & cur & evs & _ & _ & _ & Hw);
      [by destruct s|]
  end.
  destruct s as [d ts0 tr sd hb br cur0]. simpl in *.
  unfold turn, next_job. unfold_M. unfold_state. simpl.
  unfold get_next_job. rewrite Hsel. simpl.
  fold (claimed name_ row). rewrite Hw.
  destruct (job_outcome w jobs_defs (claimed name_ row)) as [out|e];
    [done|]. by destruct (is_interruption e).
Qed.

Lemma while_step name_ jobs_defs w worlds s :
  shutdown s = false →
  while_not_shutdown name_ jobs_defs (w :: worlds) s =
  match turn name_ jobs_defs w s with
  | (s', Ok Continue) => while_not_shutdown name_ jobs_defs worlds s'
  | (s', Ok Break) => (s', Ok true)
  | (s', Raise e) => (s', Raise e)
  end.
Proof.
  intros Hsd. simpl. unfold_M. rewrite Hsd.
  destruct (turn name_ jobs_defs w s) as [s' [[]|e]]; done.
Qed.

Lemma Quiet_work_on name_ jobs_defs w job : Quiet (work_on name_ jobs_defs w job).
Proof.
  unfold work_on. quiet;
    first [apply Quiet_run_job|apply Quiet_cancel_task|apply Quiet_finish_job
          |apply Quiet_report].
Qed.

Lemma Quiet_poll_again name_ w : Quiet (poll_again name_ w).
Proof. unfold poll_again. quiet. Qed.

Lemma turn_claims_once name_ jobs_defs w s :
  ∃ evs,
    trace (turn name_ jobs_defs w s).1 =
      trace s ++
      GetNextJob name_ (get_next_job (db s) (claim_time w) name_).2 :: evs ∧
    Forall no_claim evs.
Proof.
  set (rest job := match job with
                   | None => poll_again name_ w
                   | Some job => work_on name_ jobs_defs w job
                   end).
  set (handler (r : result control) :=
         match r with
         | Raise CancelledError =>
             log name_ INFO ShuttingDownWorker;;
             modify (with_shutdown true);;
             mret Break
         | _ => lift r
         end).
  set (got := get_next_job (db s) (claim_time w) name_).
  set (s1 := with_trace (trace s ++ [GetNextJob name_ got.2])
               (with_db got.1 s)).
  assert (turn name_ jobs_defs w s = (attempt (rest got.2) ≫= handler) s1)
    as ->.
  { unfold turn, next_job. destruct s. reflexivity. }
  assert (Quiet (attempt (rest got.2) ≫= handler)) as Hq.
  { apply Quiet_bind.
    - apply Quiet_attempt. unfold rest.
      destruct got.2; [apply Quiet_work_on|apply Quiet_poll_again].
    - intros r. unfold handler. quiet. }
  destruct (Hq s1) as (evs & Htr & Hevs). exists evs. split; [|done].
  rewrite Htr. unfold s1. destruct s. simpl. by rewrite <-app_assoc.
Qed.

(** ** Jobs that fail *)

Lemma status_of_elem conn r : r ∈ jobs conn → is_Some (status_of conn (id r)).
Proof.
  intros Hr. unfold status_of, get_job_by_id.
  assert (r ∈ filter (λ x, id x = id r) (jobs conn)) as Hin
    by by apply list_elem_of_filter.
  destruct (filter _ (jobs conn)); [by apply not_elem_of_nil in Hin|].
  by eexists.
Qed.

Lemma status_of_worked conn row now now' name_ status_ output_ :
  row ∈ jobs conn →
  status_of
    (update_job_status (mark_in_progress conn now name_ (id row)) now'
       (id row) status_ output_) (id row) = Some status_.
Proof.
  intros [s Hs]%status_of_elem.
  rewrite status_of_update_job_status, status_of_mark_in_progress, Hs.
  simpl. by rewrite decide_True.
Qed.

Lemma other_rows_stay conn row now now' name_ status_ output_ r :
  r ∈ jobs conn → id r ≠ id row →
  r ∈ jobs (update_job_status (mark_in_progress conn now name_ (id row)) now'
              (id row) status_ output_).
Proof.
  intros Hr Hid.
  assert (∀ f rows, r ∈ rows → r ∈ update_jobs_where_id (id row) f rows)
    as Hkeep.
  { intros f rows Hin. unfold update_jobs_where_id.
    apply list_elem_of_fmap. exists r. by rewrite decide_False. }
  unfold update_job_status, mark_in_progress.
  destruct (truthy output_); simpl; by do 2 apply Hkeep.
Qed.

(** What the turns that mark a job [FAILED] and go on have in common: the
    job is [FAILED] and has no output row, the worker neither stops nor
    raises, and its next turn claims the oldest job that is still
    [PENDING]. *)
Definition failed_and_polling (name_ : string)
    (jobs_defs : gmap string JobClass) (w : World) (st : State) (row : DBJob)
    (st' : State) : Prop :=
  turn name_ jobs_defs w st = (st', Ok Continue) ∧
  status_of (db st') (id row) = Some FAILED ∧
  get_job_result_by_job_id (db st') (id row) = None ∧
  shutdown st' = false ∧
  settled st' ∧
  (∀ worlds,
     while_not_shutdown name_ jobs_defs (w :: worlds) st =
     while_not_shutdown name_ jobs_defs worlds st') ∧
  (∀ w2 r, r ∈ jobs (db st) → status r = PENDING → id r ≠ id row →
     ∃ row2 evs,
       select_next_pending (jobs (db st')) = Some row2 ∧
       trace (turn name_ jobs_defs w2 st').1 =
         trace st' ++ GetNextJob name_ (Some (claimed name_ row2)) :: evs).

Lemma job_fault_turn name_ jobs_defs w st row e :
  settled st → shutdown st = false →
  select_next_pending (jobs (db st)) = Some row →
  get_job_result_by_job_id (db st) (id row) = None →
  job_outcome w jobs_defs (claimed name_ row) = Raise e →
  is_interruption e = false →
  ∃ st', failed_and_polling name_ jobs_defs w st row st'.
Proof.
  intros Hs Hsd Hsel Hout Hrun He.
  pose proof (turn_job_spec name_ jobs_defs w st row Hs Hsel) as Hturn.
  match type of Hturn with
  | _ = work_on ?n ?d ?w ?j ?s1 =>
      destruct (work_on_spec n d w j s1) as (ts & cur & evs & _ & Hts & Hcur & Hw);
      [by destruct st|]
  end.
  rewrite Hrun, He in Hw. rewrite Hw in Hturn. clear Hw.
  apply select_next_pending_Some in Hsel as (Hin & Hp & _).
  eexists. unfold failed_and_polling. split; [exact Hturn|].
  split_and!.
  - unfold worked. simpl. by apply status_of_worked.
  - exact Hout.
  - done.
  - done.
  - intros worlds. by rewrite while_step, Hturn.
  - intros w2 r Hr Hrp Hid. unfold worked in *. simpl in *.
    match goal with
    | |- context [turn _ _ _ ?s2] =>
        destruct (turn_claims_once name_ jobs_defs w2 s2) as (evs2 & Htr & _);
        destruct (select_next_pending (jobs (db s2))) as [row2|] eqn:Hsel2
    end.
    + exists row2, evs2. split; [done|]. rewrite Htr.
      unfold get_next_job. simpl in *. by rewrite Hsel2.
    + exfalso.
      eapply select_next_pending_None; [exact Hsel2| |exact Hrp].
      exact (other_rows_stay (db st) row (claim_time w) (complete_time w)
               name_ FAILED None r Hr Hid).
Qed.

(** C4: a claimed job whose run raises an exception that is neither an
    [asyncio.CancelledError] nor a Playwright error is marked [FAILED] with
    no output row; the worker does not stop, and its next turn claims the
    oldest job still [PENDING]. *)
Theorem job_level_fault_fails_the_job_only name_ jobs_defs w st row e :
  settled st → shutdown st = false →
  select_next_pending (jobs (db st)) = Some row →
  get_job_result_by_job_id (db st) (id row) = None →
  (∀ s, (run_job w jobs_defs (claimed name_ row) s).2 = Raise e) →
  is_interruption e = false →
  ∃ st', failed_and_polling name_ jobs_defs w st row st'.
Proof.
  intros Hs Hsd Hsel Hout Hrun He.
  apply (job_fault_turn name_ jobs_defs w st row e); try done.
  specialize (Hrun st).
  destruct (run_job_spec w jobs_defs (claimed name_ row) st)
    as (? & ? & ? & Heq & _).
  by rewrite Heq in Hrun.
Qed.

(** C10: a claimed job whose name is not in [jobs_defs], or whose class
    does not take its input, is marked [FAILED] with no output row when
    the browser itself does not fail; the worker does not stop or raise,
    and its next turn claims the oldest job still [PENDING]. *)
Theorem unknown_job_fails_the_job_only name_ jobs_defs w st row :
  settled st → shutdown st = false →
  select_next_pending (jobs (db st)) = Some row →
  get_job_result_by_job_id (db st) (id row) = None →
  new_context w = Ok tt → new_page w = Ok tt →
  close_page w = Ok tt → close_context w = Ok tt →
  (jobs_defs !! name row = None ∨
   ∃ cls e, jobs_defs !! name row = Some cls ∧ cls (input row) = Raise e ∧
            is_interruption e = false) →
  ∃ st', failed_and_polling name_ jobs_defs w st row st'.
Proof.
  intros Hs Hsd Hsel Hout Hnc Hnp Hcp Hcc [Hno|(cls & e & Hcls & Hraise & He)].
  - apply (job_fault_turn name_ jobs_defs w st row KeyError); try done.
    unfold job_outcome, closing.
    change (name (claimed name_ row)) with (name row).
    by rewrite Hnc, Hnp, Hcp, Hcc, Hno.
  - apply (job_fault_turn name_ jobs_defs w st row e); try done.
    unfold job_outcome, closing.
    change (name (claimed name_ row)) with (name row).
    change (input (claimed name_ row)) with (input row).
    by rewrite Hnc, Hnp, Hcp, Hcc, Hcls, Hraise.
Qed.

(** ** Jobs that are interrupted *)

(** What a turn that is interrupted leaves: the job is [FAILED] and has
    no output row, no task is left running, the loop ends whatever turns
    would follow, and neither the rest of that turn nor the teardown calls
    [get_next_job] again. *)
Definition failed_and_stopped (name_ : string)
    (jobs_defs : gmap string JobClass) (w : World) (st : State) (row : DBJob)
    (st' : State) : Prop :=
  turn name_ jobs_defs w st = (st', Ok Break) ∧
  (∀ worlds,
     while_not_shutdown name_ jobs_defs (w :: worlds) st = (st', Ok true)) ∧
  status_of (db st') (id row) = Some FAILED ∧
  get_job_result_by_job_id (db st') (id row) = None ∧
  shutdown st' = true ∧
  settled st' ∧
  (∃ evs, trace st' =
            trace st ++ GetNextJob name_ (Some (claimed name_ row)) :: evs ∧
          Forall no_claim evs) ∧
  (∃ evs, trace (teardown name_ st').1 = trace st' ++ evs ∧
          Forall no_claim evs).

(** What a turn whose job returns leaves: the job is [DONE], what it
    returned is its output when it is not empty, and the worker goes on
    with its next turn. *)
Definition done_and_polling (name_ : string)
    (jobs_defs : gmap string JobClass) (w : World) (st : State) (row : DBJob)
    (out : option bytes) (st' : State) : Prop :=
  turn name_ jobs_defs w st = (st', Ok Continue) ∧
  status_of (db st') (id row) = Some DONE ∧
  output <$> get_job_result_by_job_id (db st') (id row) =
    (if truthy out then Some out else None) ∧
  shutdown st' = false ∧
  settled st' ∧
  (∀ worlds,
     while_not_shutdown name_ jobs_defs (w :: worlds) st =
     while_not_shutdown name_ jobs_defs worlds st').

Lemma run_job_outcome w jobs_defs job r :
  (∀ s, (run_job w jobs_defs job s).2 = r) →
  job_outcome w jobs_defs job = r.
Proof.
  intros Hrun. specialize (Hrun (fresh (mkDB [] [] 0 0) 0)).
  by rewrite run_job_eq in Hrun.
Qed.

(** A turn on a claimed job, in a worker whose tasks have all finished. *)
Lemma turn_job_eq name_ jobs_defs w s row :
  settled s → select_next_pending (jobs (db s)) = Some row →
  ∃ ts cur,
    Forall (λ task, done task = true) ts ∧
    (∀ t, cur = Some t → t < length ts) ∧
    turn name_ jobs_defs w s =
      let job := claimed name_ row in
      let s1 :=
        mkState (mark_in_progress (db s) (claim_time w) name_ (id row))
          (tasks s) (trace s ++ [GetNextJob name_ (Some job)])
          (shutdown s) (last_heartbeat s) (browser s) (current_job_task s) in
      let evs := run_job_events w jobs_defs job (length (tasks s)) in
      match job_outcome w jobs_defs job with
      | Ok output_ =>
          (worked w name_ job s1 ts cur evs DONE output_ INFO
             (JobIsDone (id job)) (shutdown s), Ok Continue)
      | Raise e =>
          if is_interruption e then
            (worked w name_ job s1 ts cur evs FAILED None ERROR
               (JobInterrupted (id job)) true, Ok Break)
          else
            (worked w name_ job s1 ts cur evs FAILED None ERROR
               JobExecutionFailed (shutdown s), Ok Continue)
      end.
Proof.
  intros Hs Hsel. rewrite (turn_job_spec _ _ _ _ _ Hs Hsel).
  match goal with
  | |- context [work_on ?n ?d ?w ?j ?s1] =>
      assert (settled s1) as Hs1 by (by destruct s);
      pose proof (settled_ran w d j s1 Hs1) as [Hts Hcur];
      rewrite (work_on_eq n d w j s1 Hs1)
  end.
  eexists _, _. split; [exact Hts|]. split; [exact Hcur|]. reflexivity.
Qed.

Lemma interrupted_turn name_ jobs_defs w st row e :
  settled st → shutdown st = false →
  select_next_pending (jobs (db st)) = Some row →
  get_job_result_by_job_id (db st) (id row) = None →
  job_outcome w jobs_defs (claimed name_ row) = Raise e →
  is_interruption e = true →
  ∃ st',
    failed_and_stopped name_ jobs_defs w st row st' ∧
    trace st' =
      trace st ++ GetNextJob name_ (Some (claimed name_ row)) ::
        Log name_ INFO (StartingJob (id row) (name row)) ::
        run_job_events w jobs_defs (claimed name_ row) (length (tasks st)) ++
        [Log name_ ERROR (JobInterrupted (id row));
         UpdateJobStatus (id row) FAILED None].
Proof.
  intros Hs Hsd Hsel Hout Hjob He.
  destruct (turn_job_eq name_ jobs_defs w st row Hs Hsel)
    as (ts & cur & Hts & Hcur & Hturn).
  simpl in Hturn. rewrite Hjob, He in Hturn.
  apply select_next_pending_Some in Hsel as (Hin & Hp & _).
  eexists. split; [split; [exact Hturn|]; split_and!|].
  - intros worlds. by rewrite while_step, Hturn.
  - unfold worked. simpl. by apply status_of_worked.
  - exact Hout.
  - done.
  - done.
  - exists (Log name_ INFO (StartingJob (id row) (name row)) ::
            run_job_events w jobs_defs (claimed name_ row)
              (length (tasks st)) ++
            [Log name_ ERROR (JobInterrupted (id row));
             UpdateJobStatus (id row) FAILED None]).
    split.
    + unfold worked. cbn [trace]. by rewrite <-app_assoc.
    + apply Forall_cons. split; [done|]. apply Forall_app.
      split; [apply run_job_events_no_claim|]. by repeat constructor.
  - apply Quiet_teardown.
  - unfold worked. cbn [trace]. by rewrite <-app_assoc.
Qed.

Lemma job_done_turn name_ jobs_defs w st row out :
  settled st → shutdown st = false →
  select_next_pending (jobs (db st)) = Some row →
  get_job_result_by_job_id (db st) (id row) = None →
  job_outcome w jobs_defs (claimed name_ row) = Ok out →
  ∃ st', done_and_polling name_ jobs_defs w st row out st'.
Proof.
  intros Hs Hsd Hsel Hout Hjob.
  destruct (turn_job_eq name_ jobs_defs w st row Hs Hsel)
    as (ts & cur & Hts & Hcur & Hturn).
  simpl in Hturn. rewrite Hjob in Hturn.
  apply select_next_pending_Some in Hsel as (Hin & Hp & _).
  eexists. split; [exact Hturn|]. split_and!.
  - unfold worked. simpl. by apply status_of_worked.
  - unfold worked. simpl. unfold get_job_result_by_job_id in *.
    assert (filter (λ o, job_id o = id row) (outputs (db st)) = []) as Hnone
      by (by destruct (filter _ (outputs (db st)))).
    unfold update_job_status. destruct (truthy out); simpl.
    + rewrite filter_app, Hnone, filter_cons_True by done. done.
    + by rewrite Hnone.
  - done.
  - done.
  - intros worlds. by rewrite while_step, Hturn.
Qed.

(** C3, as amended: a claimed job whose run (lines 60 to 65) ends with a
    Playwright error or with [asyncio.CancelledError] is marked [FAILED]
    with no output row, the loop ends, and [get_next_job] is not called
    again; between the log line of the interruption and the call of
    [update_job_status] nothing happens, because the task has ended by
    then and [_cancel_task] finds nothing to cancel.  A cancellation of
    the worker while the task runs is handed on to the task, which the
    worker goes on awaiting, and the run ends with what the task makes of
    the cancellation (or with an exception of the close of the page or of
    the context): only if that is a [CancelledError] or a Playwright error
    does the worker stop.  A run that returns leaves the job [DONE] with
    its output, and one that raises another exception leaves it [FAILED];
    in both cases the worker goes on with its next turn. *)
Theorem interrupted_job_fails_and_stops name_ jobs_defs w st row :
  settled st → shutdown st = false →
  select_next_pending (jobs (db st)) = Some row →
  get_job_result_by_job_id (db st) (id row) = None →
  (∀ e, (∀ s, (run_job w jobs_defs (claimed name_ row) s).2 = Raise e) →
        is_interruption e = true →
        ∃ st' evs,
          failed_and_stopped name_ jobs_defs w st row st' ∧
          trace (run_job w jobs_defs (claimed name_ row) st).1 =
            trace st ++ evs ∧
          trace st' =
            trace st ++ GetNextJob name_ (Some (claimed name_ row)) ::
              Log name_ INFO (StartingJob (id row) (name row)) ::
              evs ++ [Log name_ ERROR (JobInterrupted (id row));
                      UpdateJobStatus (id row) FAILED None]) ∧
  (∀ cls inst s,
     cancelled w = true → new_context w = Ok tt → new_page w = Ok tt →
     jobs_defs !! name row = Some cls → cls (input row) = Ok inst →
     trace (run_job w jobs_defs (claimed name_ row) s).1 =
       trace s ++ [NewContext; NewPage; CreateTask (length (tasks s));
                   AwaitTask (length (tasks s));
                   CancelTask (length (tasks s)); ClosePage; CloseContext] ∧
     tasks (run_job w jobs_defs (claimed name_ row) s).1 =
       tasks s ++ [mkTask (execute inst)
                     (Finished (run_cancelled (execute inst)))] ∧
     (run_job w jobs_defs (claimed name_ row) s).2 =
       closing (close_context w)
         (closing (close_page w) (run_cancelled (execute inst)))) ∧
  (∀ out, (∀ s, (run_job w jobs_defs (claimed name_ row) s).2 = Ok out) →
          ∃ st', done_and_polling name_ jobs_defs w st row out st') ∧
  (∀ e, (∀ s, (run_job w jobs_defs (claimed name_ row) s).2 = Raise e) →
        is_interruption e = false →
        ∃ st', failed_and_polling name_ jobs_defs w st row st').
Proof.
  intros Hs Hsd Hsel Hout. split_and!.
  - intros e Hrun%run_job_outcome He.
    destruct (interrupted_turn name_ jobs_defs w st row e)
      as (st' & Hst' & Htr); [done..|].
    exists st', (run_job_events w jobs_defs (claimed name_ row)
                   (length (tasks st))).
    split; [exact Hst'|]. split; [by rewrite run_job_eq|exact Htr].
  - intros cls inst s Hc Hnc Hnp Hcls Hinst. rewrite run_job_eq.
    unfold ran, job_outcome, run_job_events, job_coroutine, task_events,
      task_outcome.
    change (name (claimed name_ row)) with (name row).
    change (input (claimed name_ row)) with (input row).
    rewrite Hc, Hnc, Hnp, Hcls, Hinst. simpl. done.
  - intros out Hrun%run_job_outcome. by apply job_done_turn.
  - intros e Hrun%run_job_outcome He.
    by apply (job_fault_turn name_ jobs_defs w st row e).
Qed.

(** ** The loop keeps its tasks finished *)

Lemma turn_settled name_ jobs_defs w s :
  settled s → settled (turn name_ jobs_defs w s).1.
Proof.
  intros Hs.
  destruct (select_next_pending (jobs (db s))) as [row|] eqn:Hsel.
  - rewrite (turn_job_spec _ _ _ _ _ Hs Hsel).
    match goal with
    | |- context [work_on ?n ?d ?w ?j ?s1] =>
        destruct (work_on_spec n d w j s1)
          as (ts & cur & evs & _ & Hts & Hcur & ->);
        [by destruct s|]
    end.
    destruct (job_outcome _ _ _) as [out|e]; [done|].
    by destruct (is_interruption e).
  - destruct s as [d ts tr sd hb br cur]. simpl in *.
    unfold turn, next_job, poll_again. unfold_M. unfold_state. simpl.
    unfold get_next_job. rewrite Hsel. simpl.
    destruct (_HEARTBEAT_LOG_INTERVAL <=? monotonic w - hb)%Z; simpl;
      destruct (sleep w) as [[]|[]]; simpl; exact Hs.
Qed.

Lemma while_settled name_ jobs_defs worlds s :
  settled s → settled (while_not_shutdown name_ jobs_defs worlds s).1.
Proof.
  revert s. induction worlds as [|w worlds IH]; intros s Hs.
  - simpl. unfold_M. by destruct (shutdown s).
  - destruct (shutdown s) eqn:Hsd.
    + simpl. unfold_M. by rewrite Hsd.
    + rewrite while_step by done.
      pose proof (turn_settled name_ jobs_defs w s Hs) as Ht.
      destruct (turn name_ jobs_defs w s) as [s' [[]|e]]; simpl in *;
        [by apply IH|done..].
Qed.


(** ** A worker at work *)

Definition fails_the_browser : JobClass :=
  λ _, Ok (mkJobInstance (mkCoroutine (Raise PlaywrightError)
                            (Raise CancelledError))).

Definition fails_itself : JobClass :=
  λ _, Ok (mkJobInstance (mkCoroutine (Raise OtherException)
                            (Raise CancelledError))).

Definition takes_no_input : JobClass := λ _, Raise TypeError.

Definition registry : gmap string JobClass :=
  <["shot" := fails_the_browser]>
    (<["report" := fails_itself]> (<["strict" := takes_no_input]> ∅)).

Definition calm : World :=
  mkWorld 0 100 101 (Ok tt) (Ok tt) (Ok tt) false (Ok tt) (Ok tt).

(** Two queued jobs, the older one named [n]. *)
Definition queue (n : string) : DB :=
  mkDB [mkDBJob 1 n [("url", "x")] PENDING 5 None None;
        mkDBJob 2 "next" [] PENDING 9 None None] [] 2 0.

Definition first_job (n : string) : DBJob :=
  mkDBJob 1 n [("url", "x")] PENDING 5 None None.

(** A browser that closes well and in time, and that ends with the
    cancellation when its close is cancelled. *)
Definition chromium : Browser := mkBrowser (Ok tt) 1 (Raise CancelledError) 0.

(** A worker between two turns, its browser launched. *)
Definition polling (conn : DB) : State :=
  mkState conn [] [] false 0 (Some chromium) None.

Lemma polling_settled conn : settled (polling conn).
Proof. split; [constructor|done]. Qed.

Lemma run_job_raises w jobs_defs job e :
  job_outcome w jobs_defs job = Raise e →
  ∀ s, (run_job w jobs_defs job s).2 = Raise e.
Proof.
  intros Hjob s.
  destruct (run_job_spec w jobs_defs job s) as (? & ? & ? & -> & _).
  exact Hjob.
Qed.

(** A turn in which the worker is cancelled while the job runs. *)
Definition cancelled_at_work : World :=
  mkWorld 0 100 101 (Ok tt) (Ok tt) (Ok tt) true (Ok tt) (Ok tt).

Lemma interrupted_job_fails_and_stops_witness :
  settled (polling (queue "shot")) ∧
  shutdown (polling (queue "shot")) = false ∧
  select_next_pending (jobs (db (polling (queue "shot")))) =
    Some (first_job "shot") ∧
  get_job_result_by_job_id (db (polling (queue "shot")))
    (id (first_job "shot")) = None ∧
  (∀ s, (run_job cancelled_at_work registry
           (claimed "w" (first_job "shot")) s).2 = Raise CancelledError) ∧
  is_interruption CancelledError = true ∧
  ∃ st', failed_and_stopped "w" registry cancelled_at_work
           (polling (queue "shot")) (first_job "shot") st'.
Proof.
  assert (∀ s, (run_job cancelled_at_work registry
                  (claimed "w" (first_job "shot")) s).2 =
               Raise CancelledError) as Hrun
    by (apply run_job_raises; reflexivity).
  split_and!; [apply polling_settled|reflexivity..|exact Hrun|reflexivity|].
  destruct (interrupted_job_fails_and_stops "w" registry cancelled_at_work
              (polling (queue "shot")) (first_job "shot")
              (polling_settled _) eq_refl eq_refl eq_refl) as [Hstop _].
  destruct (Hstop CancelledError Hrun eq_refl) as (st' & evs & Hst' & _).
  by exists st'.
Defined.

(** A job that catches the cancellation and returns what it has by
    then. *)
Definition swallows_cancellation : JobClass :=
  λ _, Ok (mkJobInstance (mkCoroutine (Ok (Some [Byte.x6f; Byte.x6b]))
                            (Ok (Some [Byte.x6f])))).

Definition stubborn : gmap string JobClass :=
  <["stubborn" := swallows_cancellation]>
    (<["next" := swallows_cancellation]> ∅).

(** C3, the claim as stated fails: the worker is cancelled while the job
    runs and the cancellation is handed on to the task, but the job
    catches it and returns.  The job is then [DONE] with an output row,
    and the worker goes on to claim the next job. *)
Lemma cancelled_job_is_done_and_worker_goes_on :
  let out := worker_loop (Ok chromium) (queue "stubborn") 0 "w" stubborn
               [cancelled_at_work; calm; calm] in
  cancelled cancelled_at_work = true ∧
  take 7 (trace out.1) =
    [Log "w" INFO ReadyToWork; Launch;
     GetNextJob "w" (Some (claimed "w" (first_job "stubborn")));
     Log "w" INFO (StartingJob 1 "stubborn");
     NewContext; NewPage; CreateTask 0] ∧
  take 7 (drop 7 (trace out.1)) =
    [AwaitTask 0; CancelTask 0; ClosePage; CloseContext;
     Log "w" INFO (JobIsDone 1); UpdateJobStatus 1 DONE (Some [Byte.x6f]);
     GetNextJob "w"
       (Some (claimed "w" (mkDBJob 2 "next" [] PENDING 9 None None)))] ∧
  status <$> jobs (db out.1) = [DONE; DONE] ∧
  get_job_result_by_job_id (db out.1) 1 =
    Some (mkDBOutput 1 1 (Some [Byte.x6f])) ∧
  length (filter (λ e, ¬ no_claim e) (trace out.1)) = 3 ∧
  out.2 = None ∧
  ¬ (status_of (db out.1) 1 = Some FAILED ∧
     get_job_result_by_job_id (db out.1) 1 = None).
Proof.
  split_and!; [by vm_compute..|]. intros [Hfailed _].
  vm_compute in Hfailed. discriminate Hfailed.
Qed.

Lemma job_level_fault_fails_the_job_only_witness :
  settled (polling (queue "report")) ∧
  shutdown (polling (queue "report")) = false ∧
  select_next_pending (jobs (db (polling (queue "report")))) =
    Some (first_job "report") ∧
  get_job_result_by_job_id (db (polling (queue "report")))
    (id (first_job "report")) = None ∧
  (∀ s, (run_job calm registry (claimed "w" (first_job "report")) s).2 =
        Raise OtherException) ∧
  is_interruption OtherException = false ∧
  ∃ st', failed_and_polling "w" registry calm (polling (queue "report"))
           (first_job "report") st'.
Proof.
  assert (∀ s, (run_job calm registry (claimed "w" (first_job "report")) s).2 =
               Raise OtherException) as Hrun
    by (apply run_job_raises; reflexivity).
  split_and!; [apply polling_settled|reflexivity..|exact Hrun|reflexivity|].
  exact (job_level_fault_fails_the_job_only "w" registry calm
           (polling (queue "report")) (first_job "report") OtherException
           (polling_settled _) eq_refl eq_refl eq_refl Hrun eq_refl).
Defined.

Lemma unknown_job_fails_the_job_only_witness :
  settled (polling (queue "nowhere")) ∧
  shutdown (polling (queue "nowhere")) = false ∧
  select_next_pending (jobs (db (polling (queue "nowhere")))) =
    Some (first_job "nowhere") ∧
  get_job_result_by_job_id (db (polling (queue "nowhere")))
    (id (first_job "nowhere")) = None ∧
  new_context calm = Ok tt ∧ new_page calm = Ok tt ∧
  close_page calm = Ok tt ∧ close_context calm = Ok tt ∧
  (registry !! name (first_job "nowhere") = None ∨
   ∃ cls e, registry !! name (first_job "nowhere") = Some cls ∧
            cls (input (first_job "nowhere")) = Raise e ∧
            is_interruption e = false) ∧
  ∃ st', failed_and_polling "w" registry calm (polling (queue "nowhere"))
           (first_job "nowhere") st'.
Proof.
  assert (registry !! name (first_job "nowhere") = None ∨
          ∃ cls e, registry !! name (first_job "nowhere") = Some cls ∧
                   cls (input (first_job "nowhere")) = Raise e ∧
                   is_interruption e = false) as Hno
    by (left; reflexivity).
  split_and!; [apply polling_settled|reflexivity..|exact Hno|].
  exact (unknown_job_fails_the_job_only "w" registry calm
           (polling (queue "nowhere")) (first_job "nowhere")
           (polling_settled _) eq_refl eq_refl eq_refl eq_refl eq_refl
           eq_refl eq_refl Hno).
Defined.

(** The same with a class that refuses the input. *)
Example strict_job_fails_the_job_only :
  ∃ st', failed_and_polling "w" registry calm (polling (queue "strict"))
           (first_job "strict") st'.
Proof.
  apply (job_fault_turn _ _ _ _ _ TypeError);
    [apply polling_settled|reflexivity..].
Qed.

(** The whole loop on the queue with the job that breaks the browser: one
    call of [get_next_job], the job [FAILED], the other job untouched, the
    browser closed, and no error out of [worker_loop]. *)
Example worker_loop_interrupted :
  let out := worker_loop (Ok chromium) (queue "shot") 0 "w"
               registry [calm; calm; calm] in
  out.2 = Some (Ok tt) ∧
  status <$> jobs (db out.1) = [FAILED; PENDING] ∧
  outputs (db out.1) = [] ∧
  filter (λ e, ¬ no_claim e) (trace out.1) =
    [GetNextJob "w" (Some (claimed "w" (first_job "shot")))] ∧
  last (trace out.1) = Some (CloseBrowser 5 1).
Proof. by split_and!; vm_compute. Qed.

(** ** Output rows *)

Lemma update_job_status_result conn now i s o :
  get_job_result_by_job_id conn i = None →
  is_Some (get_job_result_by_job_id (update_job_status conn now i s o) i) ↔
  truthy o = true.
Proof.
  unfold get_job_result_by_job_id, update_job_status. intros Hnone.
  destruct (truthy o); simpl.
  - rewrite filter_app, filter_cons_True by done.
    split; [done|]. intros _. destruct (filter _ (outputs conn)); by eexists.
  - rewrite Hnone. split; [by intros [? ?]|done].
Qed.

(** C6, as amended: [update_job_status] with [DONE] or [FAILED], on a job
    that is in the store and has no output row, leaves the job with that
    status and with an output row exactly when the output given is not
    empty, whatever the status.  Called as [worker_loop] calls it (lines
    85 and 86, where the output is dropped unless the status is [DONE]),
    it leaves an output row exactly when the status is [DONE] and the
    output is not empty, and none for a [FAILED] job. *)
Theorem complete_sets_status_and_output conn now i s o :
  final s → is_Some (get_job_by_id conn i) →
  get_job_result_by_job_id conn i = None →
  (status_of (update_job_status conn now i s o) i = Some s ∧
   (is_Some (get_job_result_by_job_id (update_job_status conn now i s o) i)
    ↔ truthy o = true)) ∧
  ∀ w job st, id job = i → db st = conn →
    status_of (db (finish_job w job s o st).1) i = Some s ∧
    (is_Some (get_job_result_by_job_id (db (finish_job w job s o st).1) i)
     ↔ s = DONE ∧ truthy o = true) ∧
    (s = FAILED →
     get_job_result_by_job_id (db (finish_job w job s o st).1) i = None).
Proof.
  intros Hfinal [r Hr] Hnone.
  assert (∀ o', status_of (update_job_status conn now i s o') i = Some s)
    as Hstatus.
  { intros o' . rewrite status_of_update_job_status. unfold status_of.
    rewrite Hr. simpl. by rewrite decide_True. }
  split; [split; [done|by apply update_job_status_result]|].
  intros w job st <- <-.
  assert (db (finish_job w job s o st).1 =
          update_job_status (db st) (complete_time w) (id job) s
            (if decide (s = DONE) then o else None)) as ->
    by (by destruct st).
  assert (∀ o', status_of (update_job_status (db st) (complete_time w)
                             (id job) s o') (id job) = Some s) as Hstatus'.
  { intros o'. rewrite status_of_update_job_status. unfold status_of.
    rewrite Hr. simpl. by rewrite decide_True. }
  split_and!; [done| |].
  - rewrite update_job_status_result by done.
    case_decide; [tauto|]. split; [done|tauto].
  - intros ->. rewrite decide_False by done. exact Hnone.
Qed.

Definition one_in_progress : DB :=
  mkDB [mkDBJob 1 "a" [] IN_PROGRESS 5 (Some 6%Z) (Some "w")] [] 1 0.

Lemma complete_sets_status_and_output_witness :
  final DONE ∧ is_Some (get_job_by_id one_in_progress 1) ∧
  get_job_result_by_job_id one_in_progress 1 = None ∧
  (status_of (update_job_status one_in_progress 7 1 DONE (Some [Byte.x6f])) 1
     = Some DONE ∧
   (is_Some (get_job_result_by_job_id
               (update_job_status one_in_progress 7 1 DONE (Some [Byte.x6f]))
               1)
    ↔ truthy (Some [Byte.x6f]) = true)) ∧
  ∀ w job st, id job = 1%Z → db st = one_in_progress →
    status_of (db (finish_job w job DONE (Some [Byte.x6f]) st).1) 1
      = Some DONE ∧
    (is_Some (get_job_result_by_job_id
                (db (finish_job w job DONE (Some [Byte.x6f]) st).1) 1)
     ↔ DONE = DONE ∧ truthy (Some [Byte.x6f]) = true) ∧
    (DONE = FAILED →
     get_job_result_by_job_id
       (db (finish_job w job DONE (Some [Byte.x6f]) st).1) 1 = None).
Proof.
  assert (final DONE) as H1 by (by left).
  assert (is_Some (get_job_by_id one_in_progress 1)) as H2 by (by eexists).
  assert (get_job_result_by_job_id one_in_progress 1 = None) as H3
    by reflexivity.
  split_and!; [exact H1|exact H2|exact H3|..];
    apply (complete_sets_status_and_output one_in_progress 7 1 DONE
             (Some [Byte.x6f]) H1 H2 H3).
Defined.

(** C6, the claim as stated fails: [update_job_status] with [FAILED] and
    a non-empty output leaves a [FAILED] job with an output row. *)
Lemma failed_job_with_output :
  let conn := update_job_status one_in_progress 7 1 FAILED (Some [Byte.x6f]) in
  status_of conn 1 = Some FAILED ∧
  get_job_result_by_job_id conn 1 = Some (mkDBOutput 1 1 (Some [Byte.x6f])) ∧
  ¬ (is_Some (get_job_result_by_job_id conn 1) ↔
     status_of conn 1 = Some DONE ∧ truthy (Some [Byte.x6f]) = true).
Proof.
  split_and!; [reflexivity..|]. intros [Hiff _].
  destruct Hiff as [Hdone _]; [by eexists|]. discriminate Hdone.
Qed.

(** ** A worker with nothing to do *)

Definition heartbeat_due (w : World) (s : State) : bool :=
  (_HEARTBEAT_LOG_INTERVAL <=? monotonic w - last_heartbeat s)%Z.

(** The state in which a turn that found no job leaves the worker. *)
Definition idled (name_ : string) (w : World) (s : State) : State :=
  mkState (db s) (tasks s)
    (trace s ++ GetNextJob name_ None ::
       (if heartbeat_due w s then [Log name_ INFO AliveAndPolling] else []) ++
       Sleep _JOB_POLL_INTERVAL ::
       match sleep w with
       | Raise CancelledError => [Log name_ INFO ShuttingDownWorker]
       | _ => []
       end)
    (match sleep w with Raise CancelledError => true | _ => shutdown s end)
    (if heartbeat_due w s then monotonic w else last_heartbeat s)
    (browser s) (current_job_task s).

Lemma idle_turn_eq name_ jobs_defs w s :
  select_next_pending (jobs (db s)) = None →
  turn name_ jobs_defs w s =
  (idled name_ w s,
   match sleep w with
   | Ok _ => Ok Continue
   | Raise CancelledError => Ok Break
   | Raise e => Raise e
   end).
Proof.
  intros Hsel. destruct s as [d ts tr sd hb br cur]. simpl in *.
  unfold turn, next_job, poll_again, idled, heartbeat_due.
  unfold_M. unfold_state. simpl.
  unfold get_next_job. rewrite Hsel. simpl.
  destruct (_HEARTBEAT_LOG_INTERVAL <=? monotonic w - hb)%Z; simpl;
    destruct (sleep w) as [[]|[]]; simpl; rewrite <-?app_assoc; reflexivity.
Qed.

(** ** Leaving [worker_loop] *)

(** The worker after [log.info("Ready to work")] and a launch that gave
    the browser [b]. *)
Definition launched (b : Browser) (conn : DB) (started : Z) (name_ : string)
    : State :=
  mkState conn [] [Log name_ INFO ReadyToWork; Launch] false started
    (Some b) None.

Lemma launched_settled b conn started name_ :
  settled (launched b conn started name_).
Proof. split; [constructor|done]. Qed.

Lemma worker_loop_launched b conn started name_ jobs_defs worlds :
  worker_loop (Ok b) conn started name_ jobs_defs worlds =
  match while_not_shutdown name_ jobs_defs worlds
          (launched b conn started name_) with
  | (s, Ok false) => (s, None)
  | (s, r) =>
      let '(s', r') := (teardown name_ ;; lift r ;; ret tt) s in (s', Some r')
  end.
Proof.
  unfold worker_loop, fresh, launched. unfold_M. unfold_state. simpl.
  by destruct (while_not_shutdown _ _ _ _) as [s [[]|e]].
Qed.

Lemma turn_keeps_browser name_ jobs_defs w s :
  settled s → browser (turn name_ jobs_defs w s).1 = browser s.
Proof.
  intros Hs.
  destruct (select_next_pending (jobs (db s))) as [row|] eqn:Hsel.
  - destruct (turn_job_eq name_ jobs_defs w s row Hs Hsel)
      as (ts & cur & _ & _ & ->). simpl.
    destruct (job_outcome _ _ _) as [out|e]; [done|].
    by destruct (is_interruption e).
  - by rewrite (idle_turn_eq _ _ _ _ Hsel).
Qed.

Lemma while_keeps_browser name_ jobs_defs worlds s :
  settled s →
  browser (while_not_shutdown name_ jobs_defs worlds s).1 = browser s.
Proof.
  revert s. induction worlds as [|w worlds IH]; intros s Hs.
  - simpl. unfold_M. by destruct (shutdown s).
  - destruct (shutdown s) eqn:Hsd.
    + simpl. unfold_M. by rewrite Hsd.
    + rewrite while_step by done.
      pose proof (turn_settled name_ jobs_defs w s Hs) as Ht.
      pose proof (turn_keeps_browser name_ jobs_defs w s Hs) as Hb.
      destruct (turn name_ jobs_defs w s) as [s' [[]|e]]; simpl in *;
        [by rewrite IH|done..].
Qed.

(** In a worker whose tasks have all finished, the [finally] of
    [worker_loop] comes to the close of the browser. *)
Lemma teardown_eq name_ s :
  settled s →
  teardown name_ s =
  match browser s with
  | Some b => _shutdown_browser b None (Some name_) s
  | None => (s, Ok tt)
  end.
Proof.
  intros Hs. unfold teardown.
  unfold mbind at 1, M_bind at 1, bind at 1, get at 1.
  unfold mbind at 1, M_bind at 1, bind at 1.
  rewrite (cancel_task_settled _ _ Hs).
  unfold mbind at 1, M_bind at 1, bind at 1, get at 1.
  by destruct (browser s).
Qed.

(** ** Cancelling a task *)

(** [_cancel_task] on a task that has not finished: the task is cancelled
    and awaited, and ends with what its coroutine makes of the
    cancellation; an exception of the class [Exception] out of the await
    is logged and goes no further, any other is raised to the caller. *)
Lemma cancel_task_running t l s task :
  tasks s !! t = Some task → done task = false →
  _cancel_task (Some t) l s =
    (mkState (db s)
       (<[t := mkTask (coro task) (Finished (run_cancelled (coro task)))]>
          (tasks s))
       (trace s ++ CancelTask t :: AwaitTask t ::
          match run_cancelled (coro task) with
          | Raise e =>
              if is_Exception e
              then [Log (default logger l) DEBUG (CleanUpError e)] else []
          | Ok _ => []
          end)
       (shutdown s) (last_heartbeat s) (browser s) (current_job_task s),
     match run_cancelled (coro task) with
     | Raise e => if is_Exception e then Ok tt else Raise e
     | Ok _ => Ok tt
     end).
Proof.
  intros Ht Hdone. destruct s as [d ts tr sd hb br cur]. simpl in *.
  unfold _cancel_task, cancel, await, resume. unfold_M. unfold_state. simpl.
  rewrite Ht. simpl. rewrite Hdone. simpl.
  rewrite list_lookup_alter, Ht, decide_True by done. simpl.
  assert (coro (match state task with
                | Pending => mkTask (coro task) CancelRequested
                | _ => task
                end) = coro task) as ->
    by (destruct (state task) eqn:Hst; simpl; rewrite ?Hst; done).
  assert (match state (match state task with
                       | Pending => mkTask (coro task) CancelRequested
                       | _ => task
                       end) with
          | Pending => run (coro task)
          | CancelRequested => run_cancelled (coro task)
          | Finished r => r
          end = run_cancelled (coro task)) as ->.
  { unfold done in Hdone.
    destruct (state task) eqn:Hst; simpl; rewrite ?Hst; done. }
  assert (∀ x (f : Task → Task), <[t := x]> (alter f t ts) = <[t := x]> ts)
    as ->.
  { intros x f. pose proof (lookup_lt_Some _ _ _ Ht) as Hlt.
    apply list_eq. intros k. destruct (decide (k = t)) as [->|Hk].
    - by rewrite !list_lookup_insert_eq by (by rewrite ?length_alter).
    - rewrite !list_lookup_insert_ne by done.
      by rewrite list_lookup_alter_ne. }
  destruct (run_cancelled (coro task)) as [v|e]; simpl;
    [|destruct (is_Exception e); simpl]; by rewrite <-?app_assoc.
Qed.
















(** ** Closing the browser *)

(** How long [asyncio.wait_for] waits for the close of [b] under a
    positive timeout. *)
Definition close_wait (b : Browser) (timeout : Z) : Z :=
  if (timeout <? close_duration b)%Z then (timeout + cancel_duration b)%Z
  else close_duration b.

(** What the [finally] of [worker_loop] does when no task is running: the
    browser is closed with a timeout of 5, a timeout or a Playwright error
    of the close is logged, and any other exception of the close is
    raised. *)
Lemma teardown_settled name_ s b :
  settled s → browser s = Some b →
  ∃ tail r,
    teardown name_ s =
      (with_trace (trace s ++ CloseBrowser 5 (close_wait b 5) :: tail) s,
       r) ∧
    ((tail = [] ∧ r = Ok tt) ∨
     (∃ e, is_close_failure e = true ∧
           tail = [Log name_ WARNING (CloseFailed e)] ∧ r = Ok tt) ∨
     (∃ e, (close b = Raise e ∨ close_cancelled b = Raise e) ∧
           is_close_failure e = false ∧ tail = [] ∧ r = Raise e)).
Proof.
  intros Hs Hb. rewrite (teardown_eq _ _ Hs), Hb.
  unfold _shutdown_browser, wait_for_close, close_wait.
  unfold_M. unfold_state.
  destruct s as [d ts tr sd hb br cur]. simpl.
  destruct (5 <? close_duration b)%Z; simpl.
  - destruct (close_cancelled b) as [[]|e] eqn:Hclose; simpl.
    + eexists _, _. split; [done|]. by left.
    + destruct e; simpl; eexists _, _;
        (split; [by rewrite <-?app_assoc|]);
        [ right; left; by exists TimeoutError
        | right; left; by exists PlaywrightError
        | right; left; by exists TimeoutError
        | right; right; eexists; split_and!; [by right|done..].. ].
  - destruct (close b) as [[]|e] eqn:Hclose; simpl.
    + eexists _, _. split; [done|]. by left.
    + destruct (is_close_failure e) eqn:He; simpl.
      * eexists _, _. split; [by rewrite <-app_assoc|].
        right. left. by exists e.
      * eexists _, _. split; [done|]. right. right. exists e.
        split_and!; [by left|done..].
Qed.

(** C9, as amended.  [_shutdown_browser] gives [browser.close()] the
    timeout, which is 5 unless given.  A close that ends within the
    timeout is waited for that long; one that does not is cancelled at
    the timeout and then awaited until it has ended, so that the wait is
    the timeout and the time the close takes to end once cancelled.  When
    the close ends well nothing is logged or raised; when it ends with a
    Playwright error, or has been cancelled at the timeout and ends with
    the cancellation, a warning is logged and nothing is raised; when it
    ends with any other exception, within the timeout or in answer to its
    cancellation, nothing is logged and the exception is raised to the
    caller.  In [worker_loop] the [finally] comes to this close alone,
    and an exception raised by it takes the place of what the loop
    returned or raised. *)
Theorem shutdown_browser_bounded b :
  (∀ timeout l s,
     let t := default 5%Z timeout in
     let out := _shutdown_browser b timeout l s in
     let warning e := Log (default logger l) WARNING (CloseFailed e) in
     ((0 < t)%Z → (close_duration b ≤ t)%Z →
      ∃ logs,
        trace out.1 = trace s ++ CloseBrowser t (close_duration b) :: logs ∧
        match close b with
        | Ok _ => logs = [] ∧ out.2 = Ok tt
        | Raise e =>
            if is_close_failure e then logs = [warning e] ∧ out.2 = Ok tt
            else logs = [] ∧ out.2 = Raise e
        end) ∧
     ((0 < t)%Z → (t < close_duration b)%Z →
      ∃ logs,
        trace out.1 =
          trace s ++ CloseBrowser t (t + cancel_duration b) :: logs ∧
        match close_cancelled b with
        | Ok _ => logs = [] ∧ out.2 = Ok tt
        | Raise CancelledError =>
            logs = [warning TimeoutError] ∧ out.2 = Ok tt
        | Raise e =>
            if is_close_failure e then logs = [warning e] ∧ out.2 = Ok tt
            else logs = [] ∧ out.2 = Raise e
        end) ∧
     ((t ≤ 0)%Z →
      trace out.1 = trace s ++ [CloseBrowser t 0; warning TimeoutError] ∧
      out.2 = Ok tt)) ∧
  (∀ conn started name_ jobs_defs worlds,
     let loop := while_not_shutdown name_ jobs_defs worlds
                   (launched b conn started name_) in
     let closed := _shutdown_browser b None (Some name_) loop.1 in
     worker_loop (Ok b) conn started name_ jobs_defs worlds =
       match loop.2 with
       | Ok false => (loop.1, None)
       | Ok true => (closed.1, Some closed.2)
       | Raise e =>
           (closed.1,
            Some match closed.2 with Ok _ => Raise e | Raise e' => Raise e' end)
       end).
Proof.
  split.
  - intros timeout l s t out warning. subst out warning.
    destruct s as [d ts tr sd hb br cur].
    unfold _shutdown_browser, wait_for_close. fold t.
    unfold_M. unfold_state. simpl. split_and!.
    + intros Hpos Hle.
      apply Z.leb_gt in Hpos as ->. apply Z.ltb_ge in Hle as ->. simpl.
      destruct (close b) as [[]|e]; simpl.
      * by eexists.
      * destruct (is_close_failure e); simpl; eexists;
          (split; [by rewrite <-?app_assoc|done]).
    + intros Hpos Hlt.
      apply Z.leb_gt in Hpos as ->. apply Z.ltb_lt in Hlt as ->. simpl.
      destruct (close_cancelled b) as [[]|[]]; simpl; eexists;
        (split; [by rewrite <-?app_assoc|done]).
    + intros Hle. apply Z.leb_le in Hle as ->. simpl.
      by rewrite <-app_assoc.
  - intros conn started name_ jobs_defs worlds loop closed.
    subst loop closed. rewrite worker_loop_launched.
    pose proof (while_settled name_ jobs_defs worlds _
                  (launched_settled b conn started name_)) as Hset.
    pose proof (while_keeps_browser name_ jobs_defs worlds _
                  (launched_settled b conn started name_)) as Hb.
    destruct (while_not_shutdown name_ jobs_defs worlds
                (launched b conn started name_)) as [s [[|]|e]];
      simpl in *; [|done|];
      unfold mbind, M_bind, bind; rewrite (teardown_eq _ _ Hset), Hb;
      destruct (_shutdown_browser b None (Some name_) s) as [s' [[]|e']];
      done.
Qed.

(** C9, the claim as stated fails, in three ways.  A close that ends in
    time with an exception that is neither a timeout nor a Playwright
    error is raised out of [_shutdown_browser], and out of the [finally]
    of [worker_loop] with it (here a worker that is cancelled while it
    sleeps).  So is the exception with which a close that has run into
    the timeout answers its cancellation.  And a close that takes its
    time to end once it is cancelled keeps the worker waiting beyond the
    timeout. *)
Lemma shutdown_browser_raises :
  let broken := mkBrowser (Raise OtherException) 1 (Raise CancelledError) 0 in
  let stuck := mkBrowser (Ok tt) 60 (Raise OtherException) 0 in
  let slow := mkBrowser (Ok tt) 60 (Raise CancelledError) 100 in
  let cancelled_asleep :=
    mkWorld 0 100 101 (Raise CancelledError) (Ok tt) (Ok tt) false (Ok tt)
      (Ok tt) in
  ((_shutdown_browser broken None None (polling (mkDB [] [] 0 0))).2 =
     Raise OtherException ∧
   (worker_loop (Ok broken) (mkDB [] [] 0 0) 0 "w" ∅ [cancelled_asleep]).2 =
     Some (Raise OtherException)) ∧
  ((_shutdown_browser stuck None None (polling (mkDB [] [] 0 0))).2 =
     Raise OtherException ∧
   (worker_loop (Ok stuck) (mkDB [] [] 0 0) 0 "w" ∅ [cancelled_asleep]).2 =
     Some (Raise OtherException)) ∧
  (trace (_shutdown_browser slow None None (polling (mkDB [] [] 0 0))).1 =
     [CloseBrowser 5 105;
      Log "worker-main" WARNING (CloseFailed TimeoutError)] ∧
   ¬ (105 ≤ 5)%Z).
Proof. cbv zeta. split_and!; [reflexivity..|lia]. Qed.

End WorkerFacts.

(** * More on the store *)
Module StoreFacts.
Import Database DatabaseFacts WorkerFacts.

(** The database right after [init_db]: both tables empty, no rowid handed
    out yet. *)
Definition empty : DB := mkDB [] [] 0 0.

Lemma next_rowid_above seq rowids :
  (seq < next_rowid seq rowids)%Z ∧
  ∀ x, x ∈ rowids → (x < next_rowid seq rowids)%Z.
Proof.
  unfold next_rowid.
  assert ((seq ≤ foldr Z.max seq rowids)%Z ∧
          ∀ x, x ∈ rowids → (x ≤ foldr Z.max seq rowids)%Z) as [Hs Hx].
  { induction rowids as [|a l [IHs IHx]]; simpl.
    - split; [lia|]. by intros x ?%not_elem_of_nil.
    - split; [lia|]. intros x [->|Hin]%elem_of_cons; [lia|].
      specialize (IHx x Hin). lia. }
  split; [lia|]. intros x Hin. specialize (Hx x Hin). lia.
Qed.

(** X1: a job that [create_job] has inserted is found by [get_job_by_id]
    under the id that was returned, with the name and input given, [PENDING],
    stamped with the time of the insert and with no worker; the id is new
    (above every id in the table and above the last one handed out), and
    every other id is looked up as before. *)
Theorem create_job_then_get conn now name_ input_json :
  get_job_by_id (create_job conn now name_ input_json).1
    (id (create_job conn now name_ input_json).2) =
    Some (create_job conn now name_ input_json).2 ∧
  (create_job conn now name_ input_json).2 =
    mkDBJob (id (create_job conn now name_ input_json).2) name_ input_json
      PENDING now None None ∧
  (jobs_seq conn < id (create_job conn now name_ input_json).2)%Z ∧
  (∀ r, r ∈ jobs conn →
        (id r < id (create_job conn now name_ input_json).2)%Z) ∧
  (∀ i, i ≠ id (create_job conn now name_ input_json).2 →
        get_job_by_id (create_job conn now name_ input_json).1 i =
        get_job_by_id conn i) ∧
  outputs (create_job conn now name_ input_json).1 = outputs conn.
Proof.
  destruct (next_rowid_above (jobs_seq conn) (id <$> jobs conn))
    as [Hseq Hids].
  unfold create_job, get_job_by_id. simpl. split_and!; [|done|done| | |done].
  - rewrite filter_app, filter_cons_True by done.
    rewrite filter_none; [done|]. intros r Hr Heq.
    specialize (Hids (id r) (list_elem_of_fmap_2 id _ _ Hr)). simpl in *. lia.
  - intros r Hr. apply Hids. by apply list_elem_of_fmap_2.
  - intros i Hi. rewrite filter_app, filter_cons_False by (simpl; congruence).
    by rewrite filter_nil, app_nil_r.
Qed.

(** ** The ids that are handed out *)

(** Ids run 1, 2, 3, ... in the order of the rows, and the counter stands
    at the last of them. *)
Definition counted (rowids : list Z) (seq_ : Z) : Prop :=
  rowids = Z.of_nat <$> seq 1 (length rowids) ∧
  seq_ = Z.of_nat (length rowids).

Lemma counted_next rowids seq_ :
  counted rowids seq_ →
  next_rowid seq_ rowids = Z.of_nat (S (length rowids)) ∧
  counted (rowids ++ [next_rowid seq_ rowids]) (next_rowid seq_ rowids).
Proof.
  intros [Hids Hseq].
  assert (foldr Z.max seq_ rowids = seq_) as Hmax.
  { assert (∀ x, x ∈ rowids → (x ≤ seq_)%Z) as Hle.
    { intros x Hx. rewrite Hids in Hx.
      apply list_elem_of_fmap in Hx as (k & -> & Hk).
      apply elem_of_seq in Hk. lia. }
    clear Hids Hseq. induction rowids as [|a l IH]; [done|]. simpl.
    rewrite IH by (intros x Hx; apply Hle; by right).
    specialize (Hle a (list_elem_of_here _ _)). lia. }
  assert (next_rowid seq_ rowids = Z.of_nat (S (length rowids))) as Hnext
    by (unfold next_rowid; rewrite Hmax; lia).
  split; [done|]. rewrite Hnext. split.
  - rewrite length_app. simpl. rewrite Nat.add_1_r, seq_S, fmap_app.
    simpl. by rewrite <-Hids.
  - rewrite length_app. simpl. lia.
Qed.

Lemma counted_NoDup rowids seq_ : counted rowids seq_ → NoDup rowids.
Proof.
  intros [-> _]. apply (NoDup_fmap_2 _), NoDup_seq.
Qed.

Lemma apply_op_counted conn o :
  counted (id <$> jobs conn) (jobs_seq conn) →
  counted (output_id <$> outputs conn) (outputs_seq conn) →
  counted (id <$> jobs (apply_op conn o)) (jobs_seq (apply_op conn o)) ∧
  counted (output_id <$> outputs (apply_op conn o))
    (outputs_seq (apply_op conn o)).
Proof.
  intros Hj Ho. destruct o as [now n inp|now w|now j st out]; simpl.
  - rewrite fmap_app. simpl. split; [|done]. by apply counted_next.
  - unfold get_next_job. destruct (select_next_pending (jobs conn)); [|done].
    simpl. by rewrite update_jobs_where_id_ids.
  - unfold update_job_status. destruct (truthy out); simpl;
      rewrite update_jobs_where_id_ids by done; [|done].
    rewrite fmap_app. simpl. split; [done|]. by apply counted_next.
Qed.

(** X2: in a store that started empty, whatever calls of [create_job],
    [get_next_job] and [update_job_status] were made, the jobs carry the ids
    1, 2, 3, ... in the order they were created and so do the output rows;
    in particular no id occurs twice. *)
Theorem ids_count_up ops :
  id <$> jobs (apply_ops empty ops) =
    Z.of_nat <$> seq 1 (length (jobs (apply_ops empty ops))) ∧
  output_id <$> outputs (apply_ops empty ops) =
    Z.of_nat <$> seq 1 (length (outputs (apply_ops empty ops))) ∧
  unique_ids (apply_ops empty ops) ∧
  NoDup (output_id <$> outputs (apply_ops empty ops)).
Proof.
  assert (∀ conn,
    counted (id <$> jobs conn) (jobs_seq conn) →
    counted (output_id <$> outputs conn) (outputs_seq conn) →
    counted (id <$> jobs (apply_ops conn ops)) (jobs_seq (apply_ops conn ops)) ∧
    counted (output_id <$> outputs (apply_ops conn ops))
      (outputs_seq (apply_ops conn ops))) as Hall.
  { induction ops as [|o ops IH]; intros conn Hj Ho; [done|]. simpl.
    destruct (apply_op_counted conn o Hj Ho). by apply IH. }
  destruct (Hall empty) as [Hj Ho]; [done..|].
  pose proof (counted_NoDup _ _ Hj) as Hnj.
  pose proof (counted_NoDup _ _ Ho) as Hno.
  destruct Hj as [Hj _], Ho as [Ho _]. rewrite !length_fmap in *.
  by split_and!.
Qed.

(** ** What the columns of a job say about each other *)

(** A [PENDING] job has never been written to: no worker, no
    [updated_at].  An [IN_PROGRESS] job has both.  A [DONE] or [FAILED]
    job has an [updated_at]. *)
Definition columns_agree (r : DBJob) : Prop :=
  match status r with
  | PENDING => worker r = None ∧ updated_at r = None
  | IN_PROGRESS => is_Some (worker r) ∧ is_Some (updated_at r)
  | DONE | FAILED => is_Some (updated_at r)
  end.

Lemma update_jobs_where_id_Forall (P : DBJob → Prop) j f rows :
  (∀ r, P (f r)) → Forall P rows → Forall P (update_jobs_where_id j f rows).
Proof.
  intros Hf Hrows. unfold update_jobs_where_id. apply Forall_fmap.
  eapply Forall_impl; [exact Hrows|]. intros r Hr. simpl. by case_decide.
Qed.

Lemma apply_op_columns_agree conn o :
  well_typed o → Forall columns_agree (jobs conn) →
  Forall columns_agree (jobs (apply_op conn o)).
Proof.
  intros Hty Hconn. destruct o as [now n inp|now w|now j st out]; simpl.
  - apply Forall_app. split; [done|]. by repeat constructor.
  - unfold get_next_job. destruct (select_next_pending (jobs conn)); [|done].
    simpl. apply update_jobs_where_id_Forall; [|done].
    intros r. unfold columns_agree. simpl. by split.
  - assert (Forall columns_agree
              (update_jobs_where_id j
                 (λ r, set_updated_at (Some now) (set_status st r))
                 (jobs conn))) as Hrows.
    { apply update_jobs_where_id_Forall; [|done].
      intros r. unfold columns_agree. simpl. by destruct Hty as [-> | ->]. }
    unfold update_job_status. by destruct (truthy out).
Qed.

(** X3: in a store that started empty and on which [update_job_status] was
    only called with [DONE] or [FAILED], every [PENDING] job has neither a
    worker nor an [updated_at], every [IN_PROGRESS] job has both, and
    every [DONE] or [FAILED] job has an [updated_at]. *)
Theorem columns_agree_in_every_store ops :
  Forall well_typed ops → Forall columns_agree (jobs (apply_ops empty ops)).
Proof.
  intros Hty.
  assert (∀ conn, Forall columns_agree (jobs conn) →
                  Forall columns_agree (jobs (apply_ops conn ops))) as Hall.
  { induction Hty as [|o ops Ho Hops IH]; intros conn Hconn; [done|].
    simpl. by apply IH, apply_op_columns_agree. }
  apply Hall. constructor.
Qed.

Definition a_days_work : list op :=
  [Enqueue 1 "a" []; Enqueue 2 "b" []; Claim 3 "w";
   Complete 4 1 DONE (Some [Byte.x6f]); Claim 5 "w"; Enqueue 6 "c" []].

Lemma columns_agree_in_every_store_witness :
  Forall well_typed a_days_work ∧
  Forall columns_agree (jobs (apply_ops empty a_days_work)).
Proof.
  assert (Forall well_typed a_days_work) as Hty by (repeat constructor).
  split; [exact Hty|]. exact (columns_agree_in_every_store a_days_work Hty).
Defined.

(** ** What is never taken back *)

Lemma apply_op_keeps_job conn o i r :
  get_job_by_id conn i = Some r →
  ∃ r', get_job_by_id (apply_op conn o) i = Some r' ∧
        id r' = id r ∧ name r' = name r ∧ input r' = input r ∧
        created_at r' = created_at r.
Proof.
  intros Hr.
  assert (∀ j f,
    (∀ x, id (f x) = id x ∧ name (f x) = name x ∧ input (f x) = input x ∧
          created_at (f x) = created_at x) →
    ∃ r', head (filter (λ x, id x = i) (update_jobs_where_id j f (jobs conn)))
            = Some r' ∧
          id r' = id r ∧ name r' = name r ∧ input r' = input r ∧
          created_at r' = created_at r) as Hupd.
  { intros j f Hf. rewrite head_filter_id_update by (intros x; apply Hf).
    unfold get_job_by_id in Hr. rewrite Hr. simpl. eexists. split; [done|].
    case_decide; [apply Hf|done]. }
  destruct o as [now n inp|now w|now j st out]; simpl.
  - exists r. split; [|done]. unfold get_job_by_id in *. simpl.
    rewrite filter_app. by destruct (filter _ (jobs conn)).
  - unfold get_next_job.
    destruct (select_next_pending (jobs conn)); [|by exists r].
    by apply Hupd.
  - unfold update_job_status, get_job_by_id.
    destruct (truthy out); simpl; by apply Hupd.
Qed.

(** X4: no call of the store deletes a job or changes what it was created
    with: a job that [get_job_by_id] finds is found after any further
    calls, with the same id, name, input and [created_at]. *)
Theorem jobs_are_kept conn ops i r :
  get_job_by_id conn i = Some r →
  ∃ r', get_job_by_id (apply_ops conn ops) i = Some r' ∧
        id r' = id r ∧ name r' = name r ∧ input r' = input r ∧
        created_at r' = created_at r.
Proof.
  revert conn r. induction ops as [|o ops IH]; intros conn r Hr.
  - by exists r.
  - destruct (apply_op_keeps_job conn o i r Hr)
      as (r1 & Hr1 & Hid1 & Hn1 & Hi1 & Hc1).
    destruct (IH _ _ Hr1) as (r2 & Hr2 & Hid2 & Hn2 & Hi2 & Hc2).
    exists r2. split; [done|]. split_and!; congruence.
Qed.

Lemma jobs_are_kept_witness :
  get_job_by_id (apply_ops empty [Enqueue 1 "a" [("k", "v")]]) 1 =
    Some (mkDBJob 1 "a" [("k", "v")] PENDING 1 None None) ∧
  ∃ r', get_job_by_id
          (apply_ops (apply_ops empty [Enqueue 1 "a" [("k", "v")]])
             a_days_work) 1 = Some r' ∧
        id r' = id (mkDBJob 1 "a" [("k", "v")] PENDING 1 None None) ∧
        name r' = name (mkDBJob 1 "a" [("k", "v")] PENDING 1 None None) ∧
        input r' = input (mkDBJob 1 "a" [("k", "v")] PENDING 1 None None) ∧
        created_at r' =
          created_at (mkDBJob 1 "a" [("k", "v")] PENDING 1 None None).
Proof.
  split; [reflexivity|].
  exact (jobs_are_kept (apply_ops empty [Enqueue 1 "a" [("k", "v")]])
           a_days_work 1 _ eq_refl).
Defined.

Lemma apply_op_outputs conn o :
  ∃ more, outputs (apply_op conn o) = outputs conn ++ more.
Proof.
  destruct o as [now n inp|now w|now j st out]; simpl.
  - exists []. by rewrite app_nil_r.
  - unfold get_next_job. destruct (select_next_pending (jobs conn));
      exists []; by rewrite app_nil_r.
  - unfold update_job_status. destruct (truthy out); simpl.
    + by eexists.
    + exists []. by rewrite app_nil_r.
Qed.

(** X5: output rows are only ever added.  After any further calls the
    table of outputs begins with the rows it had, and
    [get_job_result_by_job_id] returns for a job the output row it returned
    before: of several outputs written for one job the first is the one
    that is read. *)
Theorem first_output_is_kept conn ops i o :
  get_job_result_by_job_id conn i = Some o →
  get_job_result_by_job_id (apply_ops conn ops) i = Some o ∧
  ∃ more, outputs (apply_ops conn ops) = outputs conn ++ more.
Proof.
  intros Ho.
  assert (∃ more, outputs (apply_ops conn ops) = outputs conn ++ more)
    as [more Hmore].
  { clear Ho. revert conn. induction ops as [|op ops IH]; intros conn.
    - exists []. by rewrite app_nil_r.
    - simpl. destruct (apply_op_outputs conn op) as [m1 H1].
      destruct (IH (apply_op conn op)) as [m2 H2].
      exists (m1 ++ m2). by rewrite H2, H1, app_assoc. }
  split; [|by exists more].
  unfold get_job_result_by_job_id in *. rewrite Hmore, filter_app.
  by destruct (filter _ (outputs conn)).
Qed.

Lemma first_output_is_kept_witness :
  get_job_result_by_job_id
    (apply_ops empty [Enqueue 1 "a" []; Complete 2 1 DONE (Some [Byte.x6f])])
    1 = Some (mkDBOutput 1 1 (Some [Byte.x6f])) ∧
  get_job_result_by_job_id
    (apply_ops
       (apply_ops empty
          [Enqueue 1 "a" []; Complete 2 1 DONE (Some [Byte.x6f])])
       [Complete 3 1 FAILED (Some [Byte.x6b])]) 1 =
    Some (mkDBOutput 1 1 (Some [Byte.x6f])) ∧
  ∃ more,
    outputs
      (apply_ops
         (apply_ops empty
            [Enqueue 1 "a" []; Complete 2 1 DONE (Some [Byte.x6f])])
         [Complete 3 1 FAILED (Some [Byte.x6b])]) =
    outputs
      (apply_ops empty
         [Enqueue 1 "a" []; Complete 2 1 DONE (Some [Byte.x6f])]) ++ more.
Proof.
  split; [reflexivity|].
  exact (first_output_is_kept
           (apply_ops empty
              [Enqueue 1 "a" []; Complete 2 1 DONE (Some [Byte.x6f])])
           [Complete 3 1 FAILED (Some [Byte.x6b])] 1 _ eq_refl).
Defined.

(** ** Claims one after the other *)

Lemma claimed_in_were_pending ops conn :
  unique_ids conn → Forall well_typed ops →
  Forall (λ job, ∀ s, status_of conn (id job) = Some s → s = PENDING)
         (claimed_in conn ops).
Proof.
  intros Hu Hty. revert conn Hu.
  induction Hty as [|o ops Ho Hops IH]; intros conn Hu; [constructor|].
  simpl. apply Forall_app. split.
  - destruct o as [now n inp|now w|now j st out]; try constructor.
    destruct (get_next_job conn now w) as [conn' [job|]] eqn:Hget;
      simpl; constructor; [|constructor].
    apply get_next_job_returns in Hget as (row & Hin & Hp & _ & Hid & _).
    intros s. rewrite Hid. unfold status_of.
    rewrite (get_job_by_id_elem _ _ Hu Hin). simpl. congruence.
  - eapply Forall_impl; [apply IH, apply_op_unique_ids, Hu|]. simpl.
    intros job Hlater s Hs.
    destruct (apply_op_status conn o (id job) s Hu Ho Hs)
      as (s' & Hs' & _ & Hback & _).
    specialize (Hlater s' Hs'). subst s'.
    destruct (decide (s = PENDING)); [done|]. by destruct Hback.
Qed.

(** X6: on a store with unique job ids, whatever other calls are made in
    between ([update_job_status] with [DONE] or [FAILED]), the jobs that
    the calls of [get_next_job] return all have different ids: no job is
    handed out twice. *)
Theorem no_job_is_handed_out_twice conn ops :
  unique_ids conn → Forall well_typed ops →
  NoDup (id <$> claimed_in conn ops).
Proof.
  intros Hu Hty. revert conn Hu.
  induction Hty as [|o ops Ho Hops IH]; intros conn Hu; [constructor|].
  pose proof (IH _ (apply_op_unique_ids conn o Hu)) as Hrest.
  simpl. destruct o as [now n inp|now w|now j st out]; try done.
  destruct (get_next_job conn now w) as [conn' [job|]] eqn:Hget;
    simpl in *; rewrite Hget in *; simpl in *; [|done].
  constructor; [|done].
  intros (later & Hid & Hlater)%list_elem_of_fmap.
  pose proof (claimed_in_were_pending ops conn'
                (eq_rect _ unique_ids (apply_op_unique_ids conn (Claim now w) Hu)
                   _ (f_equal fst Hget)) Hops) as Hpending.
  eapply Forall_forall in Hpending; [|exact Hlater].
  apply get_next_job_returns in Hget as Hrow.
  destruct Hrow as (row & Hin & Hp & _ & Hidrow & _).
  assert (status_of conn' (id job) = Some IN_PROGRESS) as Hnow.
  { unfold get_next_job in Hget.
    destruct (select_next_pending (jobs conn)) as [row'|] eqn:Hsel; [|done].
    injection Hget as <- <-. simpl.
    destruct (status_of_elem conn row') as [s Hs].
    { by apply select_next_pending_Some in Hsel as (? & _). }
    rewrite status_of_mark_in_progress, Hs. simpl. by rewrite decide_True. }
  rewrite Hid in Hnow. by specialize (Hpending _ Hnow).
Qed.

Lemma no_job_is_handed_out_twice_witness :
  unique_ids empty ∧ Forall well_typed a_days_work ∧
  NoDup (id <$> claimed_in empty a_days_work).
Proof.
  assert (unique_ids empty) as Hu by constructor.
  assert (Forall well_typed a_days_work) as Hty by (repeat constructor).
  split_and!; [exact Hu|exact Hty|].
  exact (no_job_is_handed_out_twice empty a_days_work Hu Hty).
Defined.

(** ** Calls that find no job *)

Lemma get_job_by_id_None conn i :
  get_job_by_id conn i = None → i ∉ id <$> jobs conn.
Proof.
  unfold get_job_by_id. intros Hnone (r & -> & Hr)%list_elem_of_fmap.
  assert (r ∈ filter (λ x, id x = id r) (jobs conn)) as Hin
    by by apply list_elem_of_filter.
  destruct (filter _ (jobs conn)); [by apply not_elem_of_nil in Hin|done].
Qed.

(** X7: [update_job_status] for an id that no job has changes no job; it
    still inserts the output row when the output is not empty (the
    connection does not enforce the foreign key of [outputs]), and is
    without any effect otherwise. *)
Theorem update_job_status_of_no_job conn now i s o :
  get_job_by_id conn i = None →
  jobs (update_job_status conn now i s o) = jobs conn ∧
  (truthy o = true →
   ∃ row, outputs (update_job_status conn now i s o) = outputs conn ++ [row] ∧
          job_id row = i ∧ output row = o) ∧
  (truthy o = false → update_job_status conn now i s o = conn).
Proof.
  intros Hnone%get_job_by_id_None. unfold update_job_status.
  rewrite update_jobs_where_id_other by done.
  destruct (truthy o); simpl; split_and!; try done.
  - intros _. by eexists.
  - intros _. by destruct conn.
Qed.

Lemma update_job_status_of_no_job_witness :
  get_job_by_id empty 7 = None ∧
  jobs (update_job_status empty 1 7 DONE (Some [Byte.x6f])) = jobs empty ∧
  (truthy (Some [Byte.x6f]) = true →
   ∃ row, outputs (update_job_status empty 1 7 DONE (Some [Byte.x6f])) =
            outputs empty ++ [row] ∧
          job_id row = 7%Z ∧ output row = Some [Byte.x6f]) ∧
  (truthy (Some [Byte.x6f]) = false →
   update_job_status empty 1 7 DONE (Some [Byte.x6f]) = empty).
Proof.
  split; [reflexivity|].
  exact (update_job_status_of_no_job empty 1 7 DONE (Some [Byte.x6f])
           eq_refl).
Defined.

(** X8: the job that [get_next_job] returns is the row as it now stands in
    the store, but for [updated_at]: the store has the time of the claim,
    the returned job still has what was read before the update. *)
Theorem claimed_job_is_stale_in_updated_at conn now worker_ conn' job :
  unique_ids conn →
  get_next_job conn now worker_ = (conn', Some job) →
  get_job_by_id conn' (id job) = Some (set_updated_at (Some now) job) ∧
  (updated_at <$> get_job_by_id conn (id job)) = Some (updated_at job) ∧
  status job = IN_PROGRESS ∧ worker job = Some worker_.
Proof.
  intros Hu. unfold get_next_job.
  destruct (select_next_pending (jobs conn)) as [row|] eqn:Hsel; [|done].
  intros [= <- <-]. apply select_next_pending_Some in Hsel as (Hin & _ & _).
  pose proof (get_job_by_id_elem conn row Hu Hin) as Hrow.
  simpl. split_and!; [|by rewrite Hrow|done..].
  unfold get_job_by_id, mark_in_progress in *. simpl.
  rewrite head_filter_id_update by done. rewrite Hrow. simpl.
  by rewrite decide_True.
Qed.

Lemma claimed_job_is_stale_in_updated_at_witness :
  unique_ids three_jobs ∧
  get_next_job three_jobs 100 "w1" =
    ((get_next_job three_jobs 100 "w1").1,
     Some (mkDBJob 2 "b" [] IN_PROGRESS 5 None (Some "w1"))) ∧
  get_job_by_id (get_next_job three_jobs 100 "w1").1 2 =
    Some (mkDBJob 2 "b" [] IN_PROGRESS 5 (Some 100%Z) (Some "w1")).
Proof.
  assert (unique_ids three_jobs) as Hu
    by (unfold unique_ids; apply (bool_decide_unpack _); reflexivity).
  split_and!; [exact Hu|reflexivity|].
  exact (proj1 (claimed_job_is_stale_in_updated_at three_jobs 100 "w1" _
                  (mkDBJob 2 "b" [] IN_PROGRESS 5 None (Some "w1"))
                  Hu eq_refl)).
Defined.

End StoreFacts.

(** * More on concurrent claims *)
Module ClaimingMore.
Import Database DatabaseFacts Claiming ClaimingFacts.

(** The write lock is held by a caller that is inside its transaction. *)
Definition lock_is_held (s : System) : Prop :=
  ∀ i, writer s = Some i → ∃ c, calls s !! i = Some c ∧ in_transaction c.

Lemma step_lock_is_held i s s' :
  lock_is_held s → step i s = Some s' → lock_is_held s'.
Proof.
  intros Hheld Hstep%step_stepped.
  destruct Hstep as [c Hc Hpc Hw ->|c Hc Hpc ->|c Hc Hpc ->
                    |c j Hc Hpc ->|c j tx Hc Hpc ->];
    intros k; simpl; try done.
  - intros [= <-]. exists (at_pc c AtSelect). split; [|done].
    by rewrite (lookup_insert_call _ _ _ _ _ Hc), decide_True.
  - intros Hk. rewrite (lookup_insert_call _ _ _ _ _ Hc).
    case_decide; [eexists; split; [done|exact I]|by apply Hheld].
  - intros Hk. rewrite (lookup_insert_call _ _ _ _ _ Hc).
    case_decide; [eexists; split; [done|exact I]|by apply Hheld].
Qed.

Lemma run_lock_is_held schedule s : lock_is_held s → lock_is_held (run schedule s).
Proof.
  revert s. induction schedule as [|i schedule IH]; intros s Hs; [done|].
  simpl. apply IH. destruct (step i s) as [s'|] eqn:Hstep; [|done].
  by eapply step_lock_is_held.
Qed.

Lemma start_lock_is_held conn callers : lock_is_held (start conn callers).
Proof. by intros i. Qed.

(** X9: under any schedule, at most one caller at a time is between its
    [BEGIN IMMEDIATE] and its [commit] or [rollback]. *)
Theorem one_caller_in_transaction conn callers schedule i k ci ck :
  calls (run schedule (start conn callers)) !! i = Some ci →
  calls (run schedule (start conn callers)) !! k = Some ck →
  in_transaction ci → in_transaction ck → i = k.
Proof.
  intros Hi Hk Hti Htk.
  destruct (run_invariant schedule _ (start_invariant conn callers))
    as [Hlock _ _ _].
  pose proof (Hlock _ _ Hi Hti) as H1. pose proof (Hlock _ _ Hk Htk) as H2.
  congruence.
Qed.

Lemma one_caller_in_transaction_witness :
  calls (run [1; 0; 1; 2] (start one_pending three_callers)) !! 1 =
    Some (mkCall "w2" 101 (AtBranch (Some (mkDBJob 2 "b" [] PENDING 5 None None)))) ∧
  in_transaction
    (mkCall "w2" 101 (AtBranch (Some (mkDBJob 2 "b" [] PENDING 5 None None)))) ∧
  1 = 1.
Proof.
  assert (calls (run [1; 0; 1; 2] (start one_pending three_callers)) !! 1 =
            Some (mkCall "w2" 101
                    (AtBranch (Some (mkDBJob 2 "b" [] PENDING 5 None None)))))
    as Hc by reflexivity.
  split_and!; [exact Hc|exact I|].
  exact (one_caller_in_transaction one_pending three_callers [1; 0; 1; 2]
           1 1 _ _ Hc Hc I I).
Defined.

(** X10: no schedule can bring the callers to a stop before all have
    returned: as long as a call is unfinished some caller has a statement
    to run, and when all have returned the write lock is free. *)
Theorem claiming_never_deadlocks conn callers schedule :
  (all_returned (run schedule (start conn callers)) →
   writer (run schedule (start conn callers)) = None) ∧
  (¬ all_returned (run schedule (start conn callers)) →
   ∃ i s', step i (run schedule (start conn callers)) = Some s').
Proof.
  pose proof (run_lock_is_held schedule _ (start_lock_is_held conn callers))
    as Hheld.
  destruct (run_invariant schedule _ (start_invariant conn callers))
    as [Hlock _ _ _].
  set (s := run schedule (start conn callers)) in *.
  assert (∀ i c, calls s !! i = Some c → in_transaction c →
                 ∃ s', step i s = Some s') as Hgo.
  { intros i c Hc Htx. unfold step. rewrite Hc.
    unfold in_transaction in Htx.
    destruct (call_pc c) as [| |[j|]|j tx|r]; try done; by eexists. }
  split.
  - intros Hall. destruct (writer s) as [i|] eqn:Hw; [|done].
    destruct (Hheld i Hw) as (c & Hc & Htx).
    eapply Forall_lookup_1 in Hall; [|exact Hc].
    unfold in_transaction in Htx. unfold has_returned in Hall.
    by destruct (call_pc c).
  - intros Hnot. apply not_Forall_Exists in Hnot; [|apply _].
    apply Exists_exists in Hnot as (c & Hin & Hc).
    apply list_elem_of_lookup in Hin as [i Hi].
    destruct (call_pc c) as [| |r|j tx|r] eqn:Hpc.
    + destruct (writer s) as [k|] eqn:Hw.
      * destruct (Hheld k Hw) as (ck & Hck & Htx).
        destruct (Hgo k ck Hck Htx) as [s' Hs']. by exists k, s'.
      * exists i. unfold step. rewrite Hi, Hpc, Hw. by eexists.
    + destruct (Hgo i c Hi) as [s' Hs'];
        [unfold in_transaction; by rewrite Hpc|by exists i, s'].
    + destruct (Hgo i c Hi) as [s' Hs'];
        [unfold in_transaction; by rewrite Hpc|by exists i, s'].
    + destruct (Hgo i c Hi) as [s' Hs'];
        [unfold in_transaction; by rewrite Hpc|by exists i, s'].
    + destruct Hc. unfold has_returned. by rewrite Hpc.
Qed.

(** ** Every interleaving is a serial order *)

(** [get_next_job] for the callers named in [order], one call after the
    other: the database that is left and what each caller got. *)
Definition serial_step (callers : list (string * Z))
    (acc : DB * list (nat * option DBJob)) (i : nat)
    : DB * list (nat * option DBJob) :=
  match callers !! i with
  | Some c =>
      ((get_next_job acc.1 c.2 c.1).1,
       acc.2 ++ [(i, (get_next_job acc.1 c.2 c.1).2)])
  | None => acc
  end.

Definition serial (conn : DB) (callers : list (string * Z))
    (order : list nat) : DB * list (nat * option DBJob) :=
  foldl (serial_step callers) (conn, []) order.

(** The calls that have returned so far are the calls of [order], and the
    committed database and what they returned are what [get_next_job]
    gives when it is called in that order. *)
Record serialized (conn : DB) (callers : list (string * Z)) (s : System)
    (order : list nat) : Prop := mkSerialized {
  ser_NoDup : NoDup order;
  ser_order : ∀ i, i ∈ order ↔ is_Some (returned s i);
  ser_db : committed s = (serial conn callers order).1;
  ser_names : (serial conn callers order).2.*1 = order;
  ser_results :
    Forall (λ p, returned s p.1 = Some p.2) (serial conn callers order).2
}.

Lemma serial_snoc conn callers order i c :
  callers !! i = Some c →
  serial conn callers (order ++ [i]) =
  ((get_next_job (serial conn callers order).1 c.2 c.1).1,
   (serial conn callers order).2 ++
     [(i, (get_next_job (serial conn callers order).1 c.2 c.1).2)]).
Proof.
  intros Hc. unfold serial. rewrite foldl_app. simpl.
  unfold serial_step at 1. by rewrite Hc.
Qed.

Lemma returned_insert s i c p k w tx :
  calls s !! i = Some c →
  returned (mkSystem tx w (<[i := at_pc c p]> (calls s))) k =
  if decide (k = i) then
    match p with Returned r => Some r | _ => None end
  else returned s k.
Proof.
  intros Hc. unfold returned. simpl.
  rewrite (lookup_insert_call _ _ _ _ _ Hc). by case_decide.
Qed.

Lemma serialized_quiet conn callers s order i c p w :
  calls s !! i = Some c → (∀ r, call_pc c ≠ Returned r) →
  (∀ r, p ≠ Returned r) →
  serialized conn callers s order →
  serialized conn callers
    (mkSystem (committed s) w (<[i := at_pc c p]> (calls s))) order.
Proof.
  intros Hc Hpc Hp [Hnd Hord Hdb Hnames Hres].
  assert (∀ k, returned (mkSystem (committed s) w
                           (<[i := at_pc c p]> (calls s))) k = returned s k)
    as Hsame.
  { intros k. rewrite (returned_insert _ _ _ _ _ _ _ Hc).
    case_decide; [|done]. subst k. unfold returned. rewrite Hc.
    destruct p; try done; [by destruct (call_pc c); try done;
                              exfalso; eapply Hpc..|].
    by destruct (Hp r). }
  split; [done| |done|done|].
  - intros k. by rewrite Hsame.
  - eapply Forall_impl; [exact Hres|]. intros q. simpl. by rewrite Hsame.
Qed.

Lemma serialized_return conn callers s order i c tx r :
  calls s !! i = Some c → (∀ r', call_pc c ≠ Returned r') →
  callers !! i = Some (call_worker c, call_now c) →
  get_next_job (committed s) (call_now c) (call_worker c) = (tx, r) →
  serialized conn callers s order →
  serialized conn callers
    (mkSystem tx None (<[i := at_pc c (Returned r)]> (calls s)))
    (order ++ [i]).
Proof.
  intros Hc Hpc Hwho Hget [Hnd Hord Hdb Hnames Hres].
  assert (i ∉ order) as Hnew.
  { intros [r' Hr']%Hord. unfold returned in Hr'. rewrite Hc in Hr'.
    destruct (call_pc c) eqn:Hp; try done. by eapply Hpc. }
  rewrite Hdb in Hget.
  split.
  - apply NoDup_app. split_and!; [done| |apply NoDup_singleton].
    intros k Hk ->%list_elem_of_singleton. done.
  - intros k. rewrite (returned_insert _ _ _ _ _ _ _ Hc), elem_of_app.
    rewrite list_elem_of_singleton. case_decide as Hk.
    + subst k. split; [by eexists|by right].
    + rewrite <-Hord. split; [by intros [?|?]|by left].
  - rewrite (serial_snoc _ _ _ _ _ Hwho). simpl. by rewrite Hget.
  - rewrite (serial_snoc _ _ _ _ _ Hwho). simpl.
    by rewrite fmap_app, Hnames.
  - rewrite (serial_snoc _ _ _ _ _ Hwho). simpl. rewrite Hget. simpl.
    apply Forall_app. split.
    + apply Forall_forall. intros q Hq.
      rewrite (returned_insert _ _ _ _ _ _ _ Hc).
      assert (q.1 ∈ order) as Hin
        by (rewrite <-Hnames; by apply list_elem_of_fmap_2).
      rewrite decide_False by (intros Heq; by rewrite Heq in Hin).
      by eapply Forall_forall in Hres.
    + constructor; [|constructor]. simpl.
      rewrite (returned_insert _ _ _ _ _ _ _ Hc). by rewrite decide_True.
Qed.

Lemma step_serialized conn callers i s s' order :
  invariant s →
  (λ c, (call_worker c, call_now c)) <$> calls s = callers →
  serialized conn callers s order → step i s = Some s' →
  ∃ order', serialized conn callers s' order'.
Proof.
  intros [Hlock Hread _ _] Hwho Hser Hstep%step_stepped.
  assert (∀ c, calls s !! i = Some c →
               callers !! i = Some (call_worker c, call_now c)) as Hme.
  { intros c Hc. by rewrite <-Hwho, list_lookup_fmap, Hc. }
  destruct Hstep as [c Hc Hpc Hw ->|c Hc Hpc ->|c Hc Hpc ->
                    |c j Hc Hpc ->|c j tx Hc Hpc ->].
  - exists order. apply serialized_quiet; try done. intros r. by rewrite Hpc.
  - exists order. apply serialized_quiet; try done. intros r. by rewrite Hpc.
  - exists (order ++ [i]).
    specialize (Hread _ _ Hc) as Hri. unfold consistent in Hri.
    rewrite Hpc in Hri.
    apply serialized_return; try done; [intros r; by rewrite Hpc|by apply Hme|].
    unfold get_next_job. by rewrite <-Hri.
  - exists order. apply serialized_quiet; try done. intros r. by rewrite Hpc.
  - exists (order ++ [i]).
    specialize (Hread _ _ Hc) as Hri. unfold consistent in Hri.
    rewrite Hpc in Hri. destruct Hri as [Hsel ->].
    apply serialized_return; try done; [intros r; by rewrite Hpc|by apply Hme|].
    unfold get_next_job. by rewrite Hsel.
Qed.

(** X11: whatever the schedule, the calls that have returned can be put in
    an order such that the committed database and what each call returned
    are what [get_next_job], called once per caller in that order, leaves
    and returns. *)
Theorem claims_are_serializable conn callers schedule :
  ∃ order,
    NoDup order ∧
    (∀ i, i ∈ order ↔
          is_Some (returned (run schedule (start conn callers)) i)) ∧
    committed (run schedule (start conn callers)) =
      (serial conn callers order).1 ∧
    (serial conn callers order).2.*1 = order ∧
    Forall (λ p, returned (run schedule (start conn callers)) p.1 = Some p.2)
      (serial conn callers order).2.
Proof.
  assert (∀ s order,
    invariant s →
    (λ c, (call_worker c, call_now c)) <$> calls s = callers →
    serialized conn callers s order →
    ∃ order', serialized conn callers (run schedule s) order') as Hrun.
  { induction schedule as [|i schedule IH]; intros s order Hinv Hwho Hser.
    - by exists order.
    - simpl. destruct (step i s) as [s'|] eqn:Hstep; simpl; [|by eapply IH].
      destruct (step_serialized _ _ _ _ _ _ Hinv Hwho Hser Hstep)
        as [order' Hser'].
      eapply IH; [by eapply step_invariant| |exact Hser'].
      by rewrite (step_callers _ _ _ Hstep). }
  destruct (Hrun (start conn callers) []) as [order [? ? ? ? ?]].
  - apply start_invariant.
  - unfold start. simpl. rewrite <-list_fmap_compose.
    rewrite <-(list_fmap_id callers) at 2. apply list_fmap_ext.
    by intros _ [w now] _.
  - split; [constructor| |done|done|constructor].
    intros i. split; [by intros ?%not_elem_of_nil|].
    intros [r Hr]. unfold returned in Hr.
    destruct (calls (start conn callers) !! i) as [c|] eqn:Hc; [|done].
    apply start_lookup in Hc. by rewrite Hc in Hr.
  - by exists order.
Qed.

(** The run of [interleaved] is the serial order 1, 0, 2. *)
Example interleaved_is_serial :
  committed (run interleaved (start one_pending three_callers)) =
    (serial one_pending three_callers [1; 0; 2]).1 ∧
  (λ p, returned (run interleaved (start one_pending three_callers)) p.1)
    <$> (serial one_pending three_callers [1; 0; 2]).2 =
  (λ p, Some p.2) <$> (serial one_pending three_callers [1; 0; 2]).2.
Proof. by split. Qed.

End ClaimingMore.

(** * More on the worker *)
Module WorkerMore.
Import Database DatabaseFacts Worker WorkerFacts.

(** ** Code that leaves the browser alone *)

(** Every event but the launch and the close of the browser. *)
Definition no_browser_call (e : event) : Prop :=
  match e with Launch | CloseBrowser _ _ => False | _ => True end.

#[global] Instance no_browser_call_dec e : Decision (no_browser_call e).
Proof. destruct e; apply _. Defined.

(** Code that only appends to the trace, neither launches nor closes a
    browser, and keeps the variable [browser]. *)
Definition KeepsBrowser {A} (m : M A) : Prop :=
  ∀ s, ∃ evs,
    trace (m s).1 = trace s ++ evs ∧ Forall no_browser_call evs ∧
    browser (m s).1 = browser s.

Lemma KeepsBrowser_ret {A} (a : A) : KeepsBrowser (ret a).
Proof. intros s. exists []. by rewrite app_nil_r. Qed.

Lemma KeepsBrowser_mret {A} (a : A) : KeepsBrowser (mret a : M A).
Proof. apply KeepsBrowser_ret. Qed.

Lemma KeepsBrowser_raise {A} e : KeepsBrowser (raise e : M A).
Proof. intros s. exists []. by rewrite app_nil_r. Qed.

Lemma KeepsBrowser_lift {A} (r : result A) : KeepsBrowser (lift r).
Proof. intros s. exists []. by rewrite app_nil_r. Qed.

Lemma KeepsBrowser_get {A} (f : State → A) : KeepsBrowser (get f).
Proof. intros s. exists []. by rewrite app_nil_r. Qed.

Lemma KeepsBrowser_modify f :
  (∀ s, trace (f s) = trace s ∧ browser (f s) = browser s) →
  KeepsBrowser (modify f).
Proof.
  intros Hf s. exists []. simpl. destruct (Hf s) as [-> ->].
  by rewrite app_nil_r.
Qed.

Lemma KeepsBrowser_emit e : no_browser_call e → KeepsBrowser (emit e).
Proof. intros He s. exists [e]. split_and!; [done| |done]. by constructor. Qed.

Lemma KeepsBrowser_log l lv m : KeepsBrowser (log l lv m).
Proof. by apply KeepsBrowser_emit. Qed.

Lemma KeepsBrowser_bind {A B} (m : M A) (k : A → M B) :
  KeepsBrowser m → (∀ a, KeepsBrowser (k a)) → KeepsBrowser (m ≫= k).
Proof.
  intros Hm Hk s. unfold mbind, M_bind, bind.
  destruct (Hm s) as (evs1 & Ht1 & Hq1 & Hb1).
  destruct (m s) as [s1 [a|e]]; simpl in *.
  - destruct (Hk a s1) as (evs2 & Ht2 & Hq2 & Hb2).
    exists (evs1 ++ evs2). rewrite Ht2, Ht1, app_assoc, Hb2, Hb1.
    split_and!; [done| |done]. by apply Forall_app.
  - by exists evs1.
Qed.

Lemma KeepsBrowser_attempt {A} (m : M A) :
  KeepsBrowser m → KeepsBrowser (attempt m).
Proof.
  intros Hm s. unfold attempt. destruct (Hm s) as (evs & Ht & Hq & Hb).
  destruct (m s) as [s1 r]. by exists evs.
Qed.

(** Splits a computation into its statements and closes the simple ones. *)
Ltac keeps :=
  repeat first
    [ apply KeepsBrowser_bind; [|intros ?]
    | apply KeepsBrowser_attempt
    | apply KeepsBrowser_ret | apply KeepsBrowser_mret
    | apply KeepsBrowser_raise
    | apply KeepsBrowser_lift | apply KeepsBrowser_get
    | apply KeepsBrowser_log
    | apply KeepsBrowser_emit; exact I
    | apply KeepsBrowser_modify; intros []; split; reflexivity
    | match goal with
      | |- KeepsBrowser (match ?x with _ => _ end) => destruct x
      | |- KeepsBrowser (if ?x then _ else _) => destruct x
      end ].

Lemma KeepsBrowser_try_finally {A} (body : M A) cleanup :
  KeepsBrowser body → KeepsBrowser cleanup →
  KeepsBrowser (try_finally body cleanup).
Proof.
  intros Hb Hc. unfold try_finally.
  apply KeepsBrowser_bind; [by apply KeepsBrowser_attempt|intros r].
  apply KeepsBrowser_bind; [done|intros _; apply KeepsBrowser_lift].
Qed.

Lemma KeepsBrowser_async_with {A} acquire release (body : M A) :
  KeepsBrowser acquire → KeepsBrowser release → KeepsBrowser body →
  KeepsBrowser (async_with acquire release body).
Proof.
  intros Ha Hr Hb. unfold async_with.
  apply KeepsBrowser_bind; [done|intros _]. by apply KeepsBrowser_try_finally.
Qed.

Lemma KeepsBrowser_cancel t : KeepsBrowser (cancel t).
Proof. unfold cancel. keeps. Qed.

Lemma KeepsBrowser_resume t : KeepsBrowser (resume t).
Proof. unfold resume. keeps. Qed.

Lemma KeepsBrowser_await t : KeepsBrowser (await t).
Proof.
  unfold await. apply KeepsBrowser_bind; [by apply KeepsBrowser_emit|].
  intros _. apply KeepsBrowser_resume.
Qed.

Lemma KeepsBrowser_create_task c : KeepsBrowser (create_task c).
Proof. unfold create_task. keeps. Qed.

Lemma KeepsBrowser_cancel_task t l : KeepsBrowser (_cancel_task t l).
Proof.
  unfold _cancel_task. keeps;
    first [apply KeepsBrowser_cancel|apply KeepsBrowser_await].
Qed.

Lemma KeepsBrowser_run_job w jobs_defs job :
  KeepsBrowser (run_job w jobs_defs job).
Proof.
  unfold run_job, await_cancellable.
  repeat (apply KeepsBrowser_async_with; [keeps..|]).
  keeps; first [apply KeepsBrowser_create_task|apply KeepsBrowser_cancel
               |apply KeepsBrowser_resume].
Qed.

Lemma KeepsBrowser_report w i s o : KeepsBrowser (report w i s o).
Proof. unfold report. keeps. Qed.

Lemma KeepsBrowser_finish_job w job s o : KeepsBrowser (finish_job w job s o).
Proof. unfold finish_job, report. keeps. Qed.

Lemma KeepsBrowser_work_on name_ jobs_defs w job :
  KeepsBrowser (work_on name_ jobs_defs w job).
Proof.
  unfold work_on. keeps;
    first [apply KeepsBrowser_run_job|apply KeepsBrowser_cancel_task
          |apply KeepsBrowser_finish_job|apply KeepsBrowser_report].
Qed.

Lemma KeepsBrowser_poll_again name_ w : KeepsBrowser (poll_again name_ w).
Proof. unfold poll_again. keeps. Qed.

Lemma KeepsBrowser_next_job w name_ : KeepsBrowser (next_job w name_).
Proof. unfold next_job. keeps. Qed.

Lemma KeepsBrowser_turn name_ jobs_defs w : KeepsBrowser (turn name_ jobs_defs w).
Proof.
  unfold turn.
  apply KeepsBrowser_bind.
  - apply KeepsBrowser_attempt.
    apply KeepsBrowser_bind; [apply KeepsBrowser_next_job|].
    intros [job|]; [apply KeepsBrowser_work_on|apply KeepsBrowser_poll_again].
  - intros r. keeps.
Qed.

Lemma KeepsBrowser_while name_ jobs_defs worlds :
  KeepsBrowser (while_not_shutdown name_ jobs_defs worlds).
Proof.
  induction worlds as [|w worlds IH]; simpl.
  - keeps.
  - apply KeepsBrowser_bind; [apply KeepsBrowser_get|].
    intros [|]; [apply KeepsBrowser_ret|].
    apply KeepsBrowser_bind; [apply KeepsBrowser_turn|].
    intros [|]; [exact IH|apply KeepsBrowser_ret].
Qed.

(** ** Leaving [worker_loop] *)

(** X12: a worker whose browser was launched closes it exactly once, as
    the last thing it does, on every way out of [worker_loop] (the loop
    ended, or an exception left it), with a timeout of 5, and no task of
    it is still running then; before that it neither launches nor closes
    a browser.  A worker whose browser does not launch raises the error of
    the launch and has called neither the store nor the browser. *)
Theorem browser_is_closed_on_exit b conn started name_ jobs_defs worlds :
  (∃ evs,
     Forall no_browser_call evs ∧
     Forall (λ task, done task = true)
       (tasks (worker_loop (Ok b) conn started name_ jobs_defs worlds).1) ∧
     match (worker_loop (Ok b) conn started name_ jobs_defs worlds).2 with
     | None =>
         trace (worker_loop (Ok b) conn started name_ jobs_defs worlds).1 =
           Log name_ INFO ReadyToWork :: Launch :: evs
     | Some r =>
         ∃ tail,
           trace (worker_loop (Ok b) conn started name_ jobs_defs worlds).1 =
             Log name_ INFO ReadyToWork :: Launch :: evs ++
               CloseBrowser 5 (close_wait b 5) :: tail ∧
           (tail = [] ∨
            ∃ e, is_close_failure e = true ∧
                 tail = [Log name_ WARNING (CloseFailed e)])
     end) ∧
  ∀ e, worker_loop (Raise e) conn started name_ jobs_defs worlds =
       (mkState conn [] [Log name_ INFO ReadyToWork; Launch] false started
          None None,
        Some (Raise e)).
Proof.
  split; [|done].
  rewrite worker_loop_launched.
  pose proof (while_settled name_ jobs_defs worlds _
                (launched_settled b conn started name_)) as Hset.
  destruct (KeepsBrowser_while name_ jobs_defs worlds
              (launched b conn started name_)) as (evs & Htr & Hevs & Hb).
  exists evs. split; [done|].
  assert (∀ s (r : result bool),
    settled s → browser s = Some b →
    trace s = Log name_ INFO ReadyToWork :: Launch :: evs →
    ∃ s' r' tail,
      (teardown name_ ;; lift r ;; ret tt) s = (s', r') ∧
      Forall (λ task, done task = true) (tasks s') ∧
      trace s' =
        Log name_ INFO ReadyToWork :: Launch :: evs ++
          CloseBrowser 5 (close_wait b 5) :: tail ∧
      (tail = [] ∨
       ∃ e, is_close_failure e = true ∧
            tail = [Log name_ WARNING (CloseFailed e)])) as Hexit.
  { intros s r Hs Hbs Hts.
    destruct (teardown_settled name_ s b Hs Hbs) as (tail & r' & Heq & Hcases).
    unfold mbind, M_bind, bind. rewrite Heq.
    destruct s as [d ts tr sd hb br cur]. simpl in *. subst tr.
    destruct Hs as [Hdone _]. simpl in Hdone.
    destruct Hcases as [[-> ->]|[(e & He & -> & ->)|(e & _ & _ & -> & ->)]];
      unfold_M; unfold_state; simpl.
    - destruct r; simpl; eexists _, _, []; (split_and!; [done..|by left]).
    - destruct r; simpl; eexists _, _, _;
        (split_and!; [done..|right; by exists e]).
    - eexists _, _, []. split_and!; [done..|by left]. }
  destruct (while_not_shutdown name_ jobs_defs worlds
              (launched b conn started name_)) as [s [[|]|e]] eqn:Hloop;
    simpl in Hset, Htr, Hb.
  - destruct (Hexit s (Ok true) Hset Hb Htr)
      as (s' & r' & tail & -> & Hd & Ht & Hc).
    simpl. split; [exact Hd|]. exists tail. by split.
  - split; [by destruct Hset|]. exact Htr.
  - destruct (Hexit s (Raise e) Hset Hb Htr)
      as (s' & r' & tail & -> & Hd & Ht & Hc).
    simpl. split; [exact Hd|]. exists tail. by split.
Qed.

(** ** A worker with nothing to do *)

(** X13: a turn that finds no [PENDING] job leaves the store as it is,
    logs the heartbeat exactly when 600 or more have passed on the
    monotonic clock since the last heartbeat or job start (and restarts
    that count), and sleeps 5 before the next turn.  A cancellation that
    arrives during the sleep ends the loop without an error; any other
    exception of the sleep is raised. *)
Theorem idle_turn_sleeps name_ jobs_defs w s :
  (∀ r, r ∈ jobs (db s) → status r ≠ PENDING) →
  db (turn name_ jobs_defs w s).1 = db s ∧
  trace (turn name_ jobs_defs w s).1 =
    trace s ++ GetNextJob name_ None ::
      (if decide (600 ≤ monotonic w - last_heartbeat s)%Z
       then [Log name_ INFO AliveAndPolling] else []) ++
      Sleep 5 ::
      match sleep w with
      | Raise CancelledError => [Log name_ INFO ShuttingDownWorker]
      | _ => []
      end ∧
  last_heartbeat (turn name_ jobs_defs w s).1 =
    (if decide (600 ≤ monotonic w - last_heartbeat s)%Z
     then monotonic w else last_heartbeat s) ∧
  shutdown (turn name_ jobs_defs w s).1 =
    match sleep w with Raise CancelledError => true | _ => shutdown s end ∧
  (turn name_ jobs_defs w s).2 =
    match sleep w with
    | Ok _ => Ok Continue
    | Raise CancelledError => Ok Break
    | Raise e => Raise e
    end.
Proof.
  intros Hno%select_next_pending_None.
  rewrite (idle_turn_eq _ _ _ _ Hno). unfold idled, heartbeat_due. simpl.
  unfold _HEARTBEAT_LOG_INTERVAL, _JOB_POLL_INTERVAL.
  destruct (Z.leb_spec 600 (monotonic w - last_heartbeat s)).
  - by rewrite !decide_True by lia.
  - by rewrite !decide_False by lia.
Qed.

Lemma idle_turn_sleeps_witness :
  (∀ r, r ∈ jobs (db (polling (mkDB [] [] 0 0))) → status r ≠ PENDING) ∧
  trace (turn "w" registry
           (mkWorld 700 100 101 (Raise CancelledError) (Ok tt) (Ok tt) false
              (Ok tt) (Ok tt))
           (polling (mkDB [] [] 0 0))).1 =
    [GetNextJob "w" None; Log "w" INFO AliveAndPolling; Sleep 5;
     Log "w" INFO ShuttingDownWorker].
Proof.
  assert (∀ r, r ∈ jobs (db (polling (mkDB [] [] 0 0))) → status r ≠ PENDING)
    as Hno by (intros r Hr; by apply not_elem_of_nil in Hr).
  split; [exact Hno|].
  exact (proj1 (proj2 (idle_turn_sleeps "w" registry
    (mkWorld 700 100 101 (Raise CancelledError) (Ok tt) (Ok tt) false
       (Ok tt) (Ok tt))
    (polling (mkDB [] [] 0 0)) Hno))).
Defined.

(** The calls a trace records, its log lines left out. *)
Definition is_log (e : event) : Prop :=
  match e with Log _ _ _ => True | _ => False end.

#[global] Instance is_log_dec e : Decision (is_log e).
Proof. destruct e; apply _. Defined.

Definition calls (evs : list event) : list event :=
  filter (λ e, ¬ is_log e) evs.

(** [n] turns of polling. *)
Definition polled (name_ : string) (n : nat) : list event :=
  mjoin (replicate n [GetNextJob name_ None; Sleep 5]).

Lemma calls_idled name_ w s evs :
  calls (GetNextJob name_ None ::
           (if heartbeat_due w s then [Log name_ INFO AliveAndPolling]
            else []) ++
           Sleep _JOB_POLL_INTERVAL :: evs) =
  GetNextJob name_ None :: Sleep 5 :: calls evs.
Proof. unfold calls. by destruct (heartbeat_due w s). Qed.

Lemma idle_loop name_ jobs_defs worlds s :
  select_next_pending (jobs (db s)) = None → shutdown s = false →
  Forall (λ w, sleep w = Ok tt) worlds →
  ∃ evs hb,
    while_not_shutdown name_ jobs_defs worlds s =
      (mkState (db s) (tasks s) (trace s ++ evs) false hb (browser s)
         (current_job_task s), Ok false) ∧
    calls evs = polled name_ (length worlds).
Proof.
  revert s. induction worlds as [|w worlds IH]; intros s Hsel Hsd Hok.
  - exists [], (last_heartbeat s). simpl. unfold_M. rewrite Hsd.
    destruct s. simpl in *. subst. by rewrite app_nil_r.
  - apply Forall_cons in Hok as [Hw Hok].
    rewrite while_step, (idle_turn_eq _ _ _ _ Hsel), Hw by done.
    destruct (IH (idled name_ w s)) as (evs & hb & -> & Hcalls);
      [done|by rewrite <-Hsd; unfold idled; rewrite Hw|done|].
    eexists _, hb. unfold idled at 1 2 3 4 5. simpl. rewrite Hw.
    rewrite <-app_assoc. split; [reflexivity|].
    simpl. rewrite <-app_assoc. simpl.
    rewrite calls_idled. by rewrite Hcalls.
Qed.

Lemma idle_then_cancelled name_ jobs_defs idle w rest s :
  select_next_pending (jobs (db s)) = None → shutdown s = false →
  Forall (λ w, sleep w = Ok tt) idle → sleep w = Raise CancelledError →
  ∃ evs hb,
    while_not_shutdown name_ jobs_defs (idle ++ w :: rest) s =
      (mkState (db s) (tasks s) (trace s ++ evs) true hb (browser s)
         (current_job_task s), Ok true) ∧
    calls evs = polled name_ (S (length idle)) ∧
    Log name_ INFO ShuttingDownWorker ∈ evs.
Proof.
  revert s. induction idle as [|w0 idle IH]; intros s Hsel Hsd Hok Hw.
  - simpl app. rewrite while_step, (idle_turn_eq _ _ _ _ Hsel), Hw by done.
    eexists _, _. unfold idled. rewrite Hw. split; [reflexivity|].
    rewrite calls_idled. split; [done|].
    apply elem_of_cons. right. apply elem_of_app. right.
    apply elem_of_cons. right. by left.
  - apply Forall_cons in Hok as [Hw0 Hok]. simpl app.
    rewrite while_step, (idle_turn_eq _ _ _ _ Hsel), Hw0 by done.
    destruct (IH (idled name_ w0 s)) as (evs & hb & -> & Hcalls & Hbye);
      [done|by rewrite <-Hsd; unfold idled; rewrite Hw0|done..|].
    eexists _, hb. unfold idled at 1 2 3 4 5. simpl. rewrite Hw0.
    rewrite <-app_assoc. split; [reflexivity|].
    simpl. rewrite <-app_assoc. simpl.
    rewrite calls_idled, Hcalls. split; [done|].
    apply elem_of_cons. right. apply elem_of_app. right.
    apply elem_of_cons. by right.
Qed.

(** A store with nothing to claim. *)
Definition nothing_queued : DB :=
  mkDB [mkDBJob 1 "shot" [] DONE 5 (Some 7%Z) (Some "w0")] [] 1 0.

(** X14: on a store without a [PENDING] job the worker goes on polling: in
    every turn it calls [get_next_job] once and sleeps 5, it changes
    nothing in the store, and it closes no browser. *)
Theorem idle_worker_keeps_polling b conn started name_ jobs_defs worlds :
  (∀ r, r ∈ jobs conn → status r ≠ PENDING) →
  Forall (λ w, sleep w = Ok tt) worlds →
  (worker_loop (Ok b) conn started name_ jobs_defs worlds).2 = None ∧
  db (worker_loop (Ok b) conn started name_ jobs_defs worlds).1 = conn ∧
  calls (trace (worker_loop (Ok b) conn started name_ jobs_defs worlds).1) =
    Launch :: polled name_ (length worlds).
Proof.
  intros Hno%select_next_pending_None Hok.
  rewrite worker_loop_launched.
  destruct (idle_loop name_ jobs_defs worlds (launched b conn started name_))
    as (evs & hb & -> & Hcalls); [done..|].
  simpl. split_and!; [done..|]. by rewrite <-Hcalls.
Qed.

Lemma idle_worker_keeps_polling_witness :
  (∀ r, r ∈ jobs nothing_queued → status r ≠ PENDING) ∧
  Forall (λ w, sleep w = Ok tt) [calm; calm; calm] ∧
  calls (trace (worker_loop (Ok chromium) nothing_queued 0 "w"
                  registry [calm; calm; calm]).1) =
    Launch :: polled "w" 3.
Proof.
  assert (∀ r, r ∈ jobs nothing_queued → status r ≠ PENDING) as Hno.
  { intros r Hr. apply list_elem_of_singleton in Hr as ->. done. }
  assert (Forall (λ w, sleep w = Ok tt) [calm; calm; calm]) as Hok
    by (by repeat constructor).
  split_and!; [exact Hno|exact Hok|].
  exact (proj2 (proj2 (idle_worker_keeps_polling chromium
    nothing_queued 0 "w" registry [calm; calm; calm] Hno Hok))).
Defined.

(** A turn in which the worker is cancelled during its sleep. *)
Definition cancelled_asleep : World :=
  mkWorld 0 100 101 (Raise CancelledError) (Ok tt) (Ok tt) false (Ok tt)
    (Ok tt).

(** X15: a worker that is cancelled while it sleeps between two polls
    stops there: it logs that it shuts down, polls no more, has changed
    nothing in the store, closes the browser, and returns without an error
    unless the close of the browser raises one that is neither a timeout
    nor a Playwright error. *)
Theorem cancelled_while_idle b conn started name_ jobs_defs idle w rest :
  (∀ r, r ∈ jobs conn → status r ≠ PENDING) →
  Forall (λ w, sleep w = Ok tt) idle →
  sleep w = Raise CancelledError →
  db (worker_loop (Ok b) conn started name_ jobs_defs
        (idle ++ w :: rest)).1 = conn ∧
  calls (trace (worker_loop (Ok b) conn started name_ jobs_defs
                  (idle ++ w :: rest)).1) =
    Launch :: polled name_ (S (length idle)) ++
      [CloseBrowser 5 (close_wait b 5)] ∧
  Log name_ INFO ShuttingDownWorker ∈
    trace (worker_loop (Ok b) conn started name_ jobs_defs
             (idle ++ w :: rest)).1 ∧
  ((worker_loop (Ok b) conn started name_ jobs_defs
      (idle ++ w :: rest)).2 = Some (Ok tt) ∨
   ∃ e, (close b = Raise e ∨ close_cancelled b = Raise e) ∧
        is_close_failure e = false ∧
        (worker_loop (Ok b) conn started name_ jobs_defs
           (idle ++ w :: rest)).2 = Some (Raise e)).
Proof.
  intros Hno%select_next_pending_None Hok Hw.
  rewrite worker_loop_launched.
  destruct (idle_then_cancelled name_ jobs_defs idle w rest
              (launched b conn started name_))
    as (evs & hb & -> & Hcalls & Hbye); [done..|].
  match goal with
  | |- context [(teardown _ ;; _ ;; _) ?s] =>
      destruct (teardown_settled name_ s b) as (tail & r & Heq & Hcases);
      [split; [constructor|done]|done|]
  end.
  unfold mbind, M_bind, bind. rewrite Heq. clear Heq.
  assert (∀ tail', Forall is_log tail' →
            calls ((Log name_ INFO ReadyToWork :: Launch :: evs) ++
                     CloseBrowser 5 (close_wait b 5) :: tail') =
            Launch :: polled name_ (S (length idle)) ++
              [CloseBrowser 5 (close_wait b 5)]) as Hc.
  { intros tail' Htail. unfold calls in *. rewrite filter_app.
    rewrite filter_cons_False by (by intros []).
    rewrite filter_cons_True by (by intros []).
    rewrite Hcalls. rewrite filter_cons_True by (by intros []).
    rewrite filter_none; [done|]. intros x Hx Hnot. apply Hnot.
    by eapply Forall_forall in Htail. }
  assert (Log name_ INFO ShuttingDownWorker ∈
            (Log name_ INFO ReadyToWork :: Launch :: evs) ++
              CloseBrowser 5 (close_wait b 5) :: tail) as Hin.
  { apply elem_of_app. left. by do 2 (apply elem_of_cons; right). }
  destruct Hcases as [[-> ->]|[(e & He & -> & ->)|(e & Hcl & He & -> & ->)]];
    unfold_M; unfold_state; simpl.
  - split_and!; [done|by apply Hc|exact Hin|by left].
  - split_and!; [done|apply Hc; by repeat constructor|exact Hin|by left].
  - split_and!; [done|by apply Hc|exact Hin|right; by exists e].
Qed.

Lemma cancelled_while_idle_witness :
  (∀ r, r ∈ jobs nothing_queued → status r ≠ PENDING) ∧
  Forall (λ w, sleep w = Ok tt) [calm; calm] ∧
  sleep cancelled_asleep = Raise CancelledError ∧
  calls (trace (worker_loop (Ok chromium) nothing_queued 0 "w"
                  registry ([calm; calm] ++ cancelled_asleep :: [calm])).1) =
    Launch :: polled "w" 3 ++ [CloseBrowser 5 1].
Proof.
  assert (∀ r, r ∈ jobs nothing_queued → status r ≠ PENDING) as Hno.
  { intros r Hr. apply list_elem_of_singleton in Hr as ->. done. }
  assert (Forall (λ w, sleep w = Ok tt) [calm; calm]) as Hok
    by (by repeat constructor).
  split_and!; [exact Hno|exact Hok|reflexivity|].
  exact (proj1 (proj2 (cancelled_while_idle chromium
    nothing_queued 0 "w" registry [calm; calm] cancelled_asleep [calm]
    Hno Hok eq_refl))).
Defined.

(** ** Jobs that succeed *)

Lemma run_job_returns w jobs_defs job out :
  job_outcome w jobs_defs job = Ok out →
  ∀ s, (run_job w jobs_defs job s).2 = Ok out.
Proof.
  intros Hjob s.
  destruct (run_job_spec w jobs_defs job s) as (? & ? & ? & -> & _).
  exact Hjob.
Qed.

Lemma head_filter_None {A} (P : A → Prop) `{∀ x, Decision (P x)} (l : list A) :
  head (filter P l) = None → filter P l = [].
Proof. by destruct (filter P l). Qed.

(** X16: a claimed job whose run returns is marked [DONE]; what it returned
    is stored as its output when it is not empty, and nothing is stored for
    [None] or for empty bytes; the heartbeat count restarts, the other jobs
    are left as they are, and the worker goes on with its next turn. *)
Theorem finished_job_is_done name_ jobs_defs w st row out :
  settled st → shutdown st = false →
  select_next_pending (jobs (db st)) = Some row →
  get_job_result_by_job_id (db st) (id row) = None →
  (∀ s, (run_job w jobs_defs (claimed name_ row) s).2 = Ok out) →
  ∃ st',
    turn name_ jobs_defs w st = (st', Ok Continue) ∧
    status_of (db st') (id row) = Some DONE ∧
    output <$> get_job_result_by_job_id (db st') (id row) =
      (if truthy out then Some out else None) ∧
    shutdown st' = false ∧
    last_heartbeat st' = monotonic w ∧
    settled st' ∧
    (∀ r, r ∈ jobs (db st) → id r ≠ id row → r ∈ jobs (db st')) ∧
    (∀ worlds,
       while_not_shutdown name_ jobs_defs (w :: worlds) st =
       while_not_shutdown name_ jobs_defs worlds st').
Proof.
  intros Hs Hsd Hsel Hout Hrun.
  pose proof (turn_job_spec name_ jobs_defs w st row Hs Hsel) as Hturn.
  match type of Hturn with
  | _ = work_on ?n ?d ?w ?j ?s1 =>
      destruct (work_on_spec n d w j s1)
        as (ts & cur & evs & _ & Hts & Hcur & Hw);
      [by destruct st|]
  end.
  assert (job_outcome w jobs_defs (claimed name_ row) = Ok out) as Hjob.
  { specialize (Hrun st).
    destruct (run_job_spec w jobs_defs (claimed name_ row) st)
      as (? & ? & ? & Heq & _).
    by rewrite Heq in Hrun. }
  rewrite Hjob in Hw. rewrite Hw in Hturn. clear Hw.
  apply select_next_pending_Some in Hsel as (Hin & Hp & _).
  eexists. split; [exact Hturn|].
  split_and!.
  - unfold worked. simpl. by apply status_of_worked.
  - unfold worked. simpl. unfold get_job_result_by_job_id in *.
    apply head_filter_None in Hout.
    unfold update_job_status. destruct (truthy out); simpl.
    + rewrite filter_app, Hout, filter_cons_True by done. done.
    + by rewrite Hout.
  - done.
  - done.
  - done.
  - intros r Hr Hid.
    exact (other_rows_stay (db st) row (claim_time w) (complete_time w)
             name_ DONE out r Hr Hid).
  - intros worlds. by rewrite while_step, Hturn.
Qed.

(** A job that takes a screenshot: it returns the bytes [ok]. *)
Definition takes_a_shot : JobClass :=
  λ _, Ok (mkJobInstance (mkCoroutine (Ok (Some [Byte.x6f; Byte.x6b]))
                            (Raise CancelledError))).

Definition studio : gmap string JobClass := <["shot" := takes_a_shot]> ∅.

Lemma finished_job_is_done_witness :
  settled (polling (queue "shot")) ∧
  shutdown (polling (queue "shot")) = false ∧
  select_next_pending (jobs (db (polling (queue "shot")))) =
    Some (first_job "shot") ∧
  get_job_result_by_job_id (db (polling (queue "shot")))
    (id (first_job "shot")) = None ∧
  (∀ s, (run_job calm studio (claimed "w" (first_job "shot")) s).2 =
        Ok (Some [Byte.x6f; Byte.x6b])) ∧
  ∃ st',
    turn "w" studio calm (polling (queue "shot")) = (st', Ok Continue) ∧
    status_of (db st') (id (first_job "shot")) = Some DONE ∧
    output <$> get_job_result_by_job_id (db st') (id (first_job "shot")) =
      (if truthy (Some [Byte.x6f; Byte.x6b])
       then Some (Some [Byte.x6f; Byte.x6b]) else None) ∧
    shutdown st' = false ∧
    last_heartbeat st' = monotonic calm ∧
    settled st' ∧
    (∀ r, r ∈ jobs (db (polling (queue "shot"))) →
          id r ≠ id (first_job "shot") → r ∈ jobs (db st')) ∧
    (∀ worlds,
       while_not_shutdown "w" studio (calm :: worlds)
         (polling (queue "shot")) =
       while_not_shutdown "w" studio worlds st').
Proof.
  assert (∀ s, (run_job calm studio (claimed "w" (first_job "shot")) s).2 =
               Ok (Some [Byte.x6f; Byte.x6b])) as Hrun
    by (apply run_job_returns; reflexivity).
  split_and!; [apply polling_settled|reflexivity..|exact Hrun|].
  exact (finished_job_is_done "w" studio calm (polling (queue "shot"))
           (first_job "shot") (Some [Byte.x6f; Byte.x6b])
           (polling_settled _) eq_refl eq_refl eq_refl Hrun).
Defined.

(** ** What the worker does to the table of jobs *)

Lemma update_jobs_where_id_elem i f rows r :
  r ∈ update_jobs_where_id i f rows →
  (r ∈ rows ∧ id r ≠ i) ∨ ∃ r0, r0 ∈ rows ∧ id r0 = i ∧ r = f r0.
Proof.
  unfold update_jobs_where_id. intros (r0 & -> & Hr0)%list_elem_of_fmap.
  case_decide; [right; by exists r0|by left].
Qed.

(** A turn either leaves the store alone or claims one row and writes a
    final status into it. *)
Lemma turn_db name_ jobs_defs w s :
  settled s →
  db (turn name_ jobs_defs w s).1 = db s ∨
  ∃ row status_ output_,
    row ∈ jobs (db s) ∧ final status_ ∧
    db (turn name_ jobs_defs w s).1 =
      update_job_status
        (mark_in_progress (db s) (claim_time w) name_ (id row))
        (complete_time w) (id row) status_ output_.
Proof.
  intros Hs.
  destruct (select_next_pending (jobs (db s))) as [row|] eqn:Hsel.
  - right. rewrite (turn_job_spec _ _ _ _ _ Hs Hsel).
    match goal with
    | |- context [work_on ?n ?d ?w ?j ?s1] =>
        destruct (work_on_spec n d w j s1)
          as (ts & cur & evs & _ & _ & _ & ->);
        [by destruct s|]
    end.
    apply select_next_pending_Some in Hsel as (Hin & _ & _).
    destruct (job_outcome _ _ _) as [out|e].
    + exists row, DONE, out. split_and!; [done|by left|done].
    + destruct (is_interruption e);
        exists row, FAILED, None; (split_and!; [done|by right|done]).
  - left. by rewrite (idle_turn_eq _ _ _ _ Hsel).
Qed.

(** The table of jobs after some turns, against the table before: the
    same ids in the same order, and no row newly [IN_PROGRESS]. *)
Definition nothing_left_open (before after : DB) : Prop :=
  id <$> jobs after = id <$> jobs before ∧
  Forall (λ r, status r = IN_PROGRESS → r ∈ jobs before) (jobs after).

Lemma nothing_left_open_refl conn : nothing_left_open conn conn.
Proof. split; [done|]. by apply Forall_forall. Qed.

Lemma turn_nothing_left_open name_ jobs_defs w s conn :
  settled s → nothing_left_open conn (db s) →
  nothing_left_open conn (db (turn name_ jobs_defs w s).1).
Proof.
  intros Hs [Hids Hopen].
  destruct (turn_db name_ jobs_defs w s Hs)
    as [->|(row & st & out & Hrow & Hfinal & ->)]; [done|].
  split.
  - rewrite <-Hids. unfold update_job_status, mark_in_progress.
    destruct (truthy out); simpl; by rewrite !update_jobs_where_id_ids.
  - apply Forall_forall. intros r Hr Hst.
    assert (r ∈ update_jobs_where_id (id row)
                  (λ r, set_updated_at (Some (complete_time w))
                          (set_status st r))
                  (update_jobs_where_id (id row)
                     (λ r, set_worker (Some name_)
                             (set_updated_at (Some (claim_time w))
                                (set_status IN_PROGRESS r)))
                     (jobs (db s)))) as Hr'.
    { unfold update_job_status, mark_in_progress in Hr.
      by destruct (truthy out). }
    apply update_jobs_where_id_elem in Hr'
      as [[Hr' Hid]|(r0 & _ & _ & ->)].
    + apply update_jobs_where_id_elem in Hr'
        as [[Hr' _]|(r0 & _ & Hid0 & ->)]; [|done].
      rewrite Forall_forall in Hopen. by apply Hopen.
    + simpl in Hst. subst st. by destruct Hfinal.
Qed.

Lemma while_nothing_left_open name_ jobs_defs worlds s conn :
  settled s → nothing_left_open conn (db s) →
  nothing_left_open conn (db (while_not_shutdown name_ jobs_defs worlds s).1).
Proof.
  revert s. induction worlds as [|w worlds IH]; intros s Hs Hopen.
  - simpl. unfold_M. by destruct (shutdown s).
  - destruct (shutdown s) eqn:Hsd.
    + simpl. unfold_M. by rewrite Hsd.
    + rewrite while_step by done.
      pose proof (turn_settled name_ jobs_defs w s Hs) as Ht.
      pose proof (turn_nothing_left_open name_ jobs_defs w s conn Hs Hopen)
        as Ho.
      destruct (turn name_ jobs_defs w s) as [s' [[]|e]]; simpl in *;
        [by apply IH|done..].
Qed.

(** X17: whatever its jobs do (return, raise, have an unknown name, break
    the browser, be cancelled on the way) and whenever its sleep is
    interrupted, a worker whose calls of the store complete leaves no job
    [IN_PROGRESS]: a row that is [IN_PROGRESS] when the worker stops, or
    between two of its turns, was so, unchanged, before the worker
    started.  The worker creates and deletes no job. *)
Theorem worker_leaves_no_job_in_progress launch conn started name_ jobs_defs
    worlds :
  id <$> jobs (db (worker_loop launch conn started name_ jobs_defs worlds).1) =
    id <$> jobs conn ∧
  Forall (λ r, status r = IN_PROGRESS → r ∈ jobs conn)
    (jobs (db (worker_loop launch conn started name_ jobs_defs worlds).1)).
Proof.
  change (nothing_left_open conn
            (db (worker_loop launch conn started name_ jobs_defs worlds).1)).
  destruct launch as [b|e]; [|apply nothing_left_open_refl].
  rewrite worker_loop_launched.
  pose proof (while_settled name_ jobs_defs worlds _
                (launched_settled b conn started name_)) as Hset.
  pose proof (while_nothing_left_open name_ jobs_defs worlds
                (launched b conn started name_) conn
                (launched_settled b conn started name_)
                (nothing_left_open_refl conn)) as Hopen.
  destruct (KeepsBrowser_while name_ jobs_defs worlds
              (launched b conn started name_)) as (_ & _ & _ & Hb).
  assert (∀ s (r : result bool), settled s → browser s = Some b →
            db (let '(s', r') := (teardown name_ ;; lift r ;; ret tt) s in
                (s', Some r')).1 = db s) as Hexit.
  { intros s r Hs Hbs.
    destruct (teardown_settled name_ s b Hs Hbs) as (tail & r' & Heq & _).
    unfold mbind, M_bind, bind. rewrite Heq. unfold_M.
    destruct s, r', r; reflexivity. }
  destruct (while_not_shutdown name_ jobs_defs worlds
              (launched b conn started name_)) as [s [[|]|e]];
    simpl in Hset, Hopen, Hb; [|done|]; by rewrite Hexit.
Qed.

(** ** Pages, contexts and tasks *)

Definition task_event (e : event) : Prop :=
  match e with CreateTask _ | AwaitTask _ | CancelTask _ => True | _ => False end.

(** X18: [run_job] closes what it has opened, on every way out: once the
    page is open, the page and then the context are closed after the task
    has ended, also when the job class is unknown, refuses its input or
    the task raises; when the page cannot be opened the context is still
    closed; when the context cannot be opened nothing else is called.  An
    exception of the close of the context replaces whatever the job
    returned or raised. *)
Theorem run_job_closes_what_it_opened w jobs_defs job s :
  (∃ evs,
     trace (run_job w jobs_defs job s).1 = trace s ++ evs ∧
     match new_context w, new_page w with
     | Raise _, _ => evs = [NewContext]
     | Ok _, Raise _ => evs = [NewContext; NewPage; CloseContext]
     | Ok _, Ok _ =>
         ∃ mid, evs = NewContext :: NewPage :: mid ++ [ClosePage; CloseContext] ∧
                Forall task_event mid
     end) ∧
  (∀ e, new_context w = Ok tt → close_context w = Raise e →
        (run_job w jobs_defs job s).2 = Raise e).
Proof.
  rewrite run_job_eq. split.
  - exists (run_job_events w jobs_defs job (length (tasks s))).
    split; [done|]. unfold run_job_events.
    destruct (new_context w) as [[]|e1]; [|done].
    destruct (new_page w) as [[]|e2]; [|done].
    eexists. split; [by rewrite <-app_assoc|].
    unfold task_events.
    destruct (job_coroutine w jobs_defs job), (cancelled w);
      by repeat constructor.
  - intros e Hopen Hclose. simpl.
    unfold job_outcome, closing. by rewrite Hopen, Hclose.
Qed.

(** X19: [_cancel_task] leaves the task finished and every other task as
    it was, and does not touch the store.  A task that has finished is not
    cancelled again; one that has not is cancelled and awaited, ends with
    what its cancellation gives, and of that only an exception outside
    the class [Exception] is raised to the caller. *)
Theorem cancel_task_leaves_the_task_finished t l s task :
  tasks s !! t = Some task →
  (∃ task', tasks (_cancel_task (Some t) l s).1 !! t = Some task' ∧
            done task' = true) ∧
  (∀ k, k ≠ t → tasks (_cancel_task (Some t) l s).1 !! k = tasks s !! k) ∧
  db (_cancel_task (Some t) l s).1 = db s ∧
  (done task = true → _cancel_task (Some t) l s = (s, Ok tt)) ∧
  (done task = false →
   tasks (_cancel_task (Some t) l s).1 !! t =
     Some (mkTask (coro task) (Finished (run_cancelled (coro task)))) ∧
   (∃ evs, trace (_cancel_task (Some t) l s).1 =
             trace s ++ CancelTask t :: AwaitTask t :: evs) ∧
   (_cancel_task (Some t) l s).2 =
     match run_cancelled (coro task) with
     | Raise e => if is_Exception e then Ok tt else Raise e
     | Ok _ => Ok tt
     end).
Proof.
  intros Ht. pose proof (lookup_lt_Some _ _ _ Ht) as Hlt.
  destruct (done task) eqn:Hdone.
  - rewrite (cancel_task_done (Some t) l s)
      by (intros i [= <-]; by exists task).
    split_and!; [by exists task|done..].
  - rewrite (cancel_task_running t l s task Ht Hdone). simpl.
    split_and!.
    + rewrite list_lookup_insert_eq by done. by eexists.
    + intros k Hk. by rewrite list_lookup_insert_ne.
    + done.
    + done.
    + intros _. split_and!; [by rewrite list_lookup_insert_eq|by eexists|done].
Qed.

(** A worker with one task that has been started and has not finished. *)
Definition one_task_running : State :=
  mkState (mkDB [] [] 0 0)
    [mkTask (mkCoroutine (Ok None) (Raise OtherException)) Pending] []
    false 0 None (Some 0).

Lemma cancel_task_leaves_the_task_finished_witness :
  tasks one_task_running !! 0 =
    Some (mkTask (mkCoroutine (Ok None) (Raise OtherException)) Pending) ∧
  ∃ task', tasks (_cancel_task (Some 0) None one_task_running).1 !! 0 =
             Some task' ∧ done task' = true.
Proof.
  split; [reflexivity|].
  exact (proj1 (cancel_task_leaves_the_task_finished 0 None one_task_running
                  _ eq_refl)).
Defined.

(** ** Working through the queue *)

(** The number of jobs that wait. *)
Definition pending (conn : DB) : nat :=
  length (filter (λ r, status r = PENDING) (jobs conn)).

(** A turn in which the worker is left alone: its sleep is not interrupted,
    and the job, if one runs, returns or fails in a way that does not stop
    the worker. *)
Definition undisturbed (jobs_defs : gmap string JobClass) (w : World) : Prop :=
  sleep w = Ok tt ∧
  ∀ job s e, (run_job w jobs_defs job s).2 = Raise e → is_interruption e = false.

Lemma pending_worked conn row now now' name_ status_ output_ :
  unique_ids conn → row ∈ jobs conn → status row = PENDING → final status_ →
  pending (update_job_status (mark_in_progress conn now name_ (id row)) now'
             (id row) status_ output_) = pending conn - 1.
Proof.
  intros Hu Hrow Hp Hfinal.
  apply list_elem_of_split in Hrow as (l1 & l2 & Hjobs).
  unfold unique_ids in Hu. rewrite Hjobs in Hu.
  assert (∀ r', id r' = id row → NoDup (id <$> l1 ++ r' :: l2)) as Hu'.
  { intros r' Hid. rewrite fmap_app, fmap_cons, Hid.
    by rewrite fmap_app, fmap_cons in Hu. }
  assert (jobs (update_job_status (mark_in_progress conn now name_ (id row))
                  now' (id row) status_ output_) =
          l1 ++ set_updated_at (Some now')
                  (set_status status_
                     (set_worker (Some name_)
                        (set_updated_at (Some now)
                           (set_status IN_PROGRESS row)))) :: l2) as Hafter.
  { unfold update_job_status, mark_in_progress.
    destruct (truthy output_); simpl; rewrite Hjobs;
      rewrite update_jobs_where_id_split by done;
      match goal with
      | |- update_jobs_where_id _ ?f (l1 ++ ?r :: l2) = _ =>
          exact (update_jobs_where_id_split f l1 r l2 (Hu' r eq_refl))
      end. }
  unfold pending. rewrite Hafter, Hjobs, !filter_app, !length_app.
  rewrite filter_cons_False by (simpl; by destruct Hfinal as [-> | ->]).
  rewrite filter_cons_True by done.
  simpl. lia.
Qed.

Lemma turn_takes_one_job name_ jobs_defs w s :
  settled s → shutdown s = false → unique_ids (db s) →
  undisturbed jobs_defs w →
  ∃ s', turn name_ jobs_defs w s = (s', Ok Continue) ∧
        settled s' ∧ shutdown s' = false ∧ unique_ids (db s') ∧
        pending (db s') = pending (db s) - 1.
Proof.
  intros Hs Hsd Hu [Hsleep Hjob].
  pose proof (turn_settled name_ jobs_defs w s Hs) as Hset.
  pose proof (turn_nothing_left_open name_ jobs_defs w s (db s) Hs
                (nothing_left_open_refl _)) as [Hids _].
  assert (unique_ids (db (turn name_ jobs_defs w s).1)) as Hu'
    by (unfold unique_ids; by rewrite Hids).
  destruct (select_next_pending (jobs (db s))) as [row|] eqn:Hsel.
  - rewrite (turn_job_spec _ _ _ _ _ Hs Hsel) in *.
    match goal with
    | |- context [work_on ?n ?d ?w ?j ?s1] =>
        destruct (work_on_spec n d w j s1)
          as (ts & cur & evs & _ & _ & _ & Hw);
        [by destruct s|]
    end.
    rewrite Hw in *. clear Hw.
    apply select_next_pending_Some in Hsel as (Hin & Hp & _).
    destruct (job_outcome w jobs_defs (claimed name_ row)) as [out|e] eqn:Hout.
    + eexists. split; [reflexivity|]. split_and!; [done..|].
      unfold worked. simpl. apply pending_worked; [done..|by left].
    + assert (is_interruption e = false) as He.
      { apply (Hjob (claimed name_ row) s).
        by apply run_job_raises. }
      rewrite He in *.
      eexists. split; [reflexivity|]. split_and!; [done..|].
      unfold worked. simpl. apply pending_worked; [done..|by right].
  - rewrite (idle_turn_eq _ _ _ _ Hsel) in *. rewrite Hsleep in *.
    eexists. split; [reflexivity|]. unfold idled in *. rewrite Hsleep in *.
    split_and!; [done..|]. simpl. unfold pending.
    unfold select_next_pending in Hsel. apply oldest_None in Hsel.
    by rewrite Hsel.
Qed.

(** X22: a worker that is left alone takes one job off the queue in every
    turn until none waits: on a store with unique job ids, after [n]
    turns in which no sleep is interrupted and no job ends in a way that
    stops the worker, [n] fewer jobs are [PENDING] (none, if fewer than
    [n] waited), and the worker is still in its loop. *)
Theorem worker_works_through_the_queue b conn started name_ jobs_defs worlds :
  unique_ids conn → Forall (undisturbed jobs_defs) worlds →
  (worker_loop (Ok b) conn started name_ jobs_defs worlds).2 = None ∧
  pending (db (worker_loop (Ok b) conn started name_ jobs_defs worlds).1) =
    pending conn - length worlds.
Proof.
  intros Hu Hworlds. rewrite worker_loop_launched.
  assert (∀ s, settled s → shutdown s = false → unique_ids (db s) →
            ∃ s', while_not_shutdown name_ jobs_defs worlds s = (s', Ok false) ∧
                  pending (db s') = pending (db s) - length worlds) as Hloop.
  { induction Hworlds as [|w worlds Hw Hworlds IH]; intros s Hs Hsd Hus.
    - exists s. simpl. unfold_M. rewrite Hsd. split; [done|]. lia.
    - destruct (turn_takes_one_job name_ jobs_defs w s Hs Hsd Hus Hw)
        as (s1 & Hturn & Hs1 & Hsd1 & Hu1 & Hp1).
      destruct (IH s1 Hs1 Hsd1 Hu1) as (s' & Hrest & Hp').
      exists s'. rewrite while_step, Hturn by done. split; [done|].
      rewrite Hp', Hp1. simpl. lia. }
  destruct (Hloop (launched b conn started name_)) as (s' & -> & Hp);
    [apply launched_settled|done..|].
  by split.
Qed.

(** Job classes none of which stops the worker. *)
Definition workshop : gmap string JobClass :=
  <["report" := fails_itself]> (<["shot" := takes_a_shot]> ∅).

(** Three turns on the queue of two jobs, the first of which fails and
    the second of which has a name that is not known. *)
Lemma worker_works_through_the_queue_witness :
  unique_ids (queue "report") ∧
  Forall (undisturbed workshop) [calm; calm; calm] ∧
  (worker_loop (Ok chromium) (queue "report") 0 "w" workshop
     [calm; calm; calm]).2 = None ∧
  pending (db (worker_loop (Ok chromium) (queue "report") 0 "w"
                 workshop [calm; calm; calm]).1) =
    pending (queue "report") - length [calm; calm; calm].
Proof.
  assert (unique_ids (queue "report")) as Hu
    by (unfold unique_ids; apply (bool_decide_unpack _); reflexivity).
  assert (undisturbed workshop calm) as Hcalm.
  { split; [reflexivity|]. intros job s e.
    destruct (run_job_spec calm workshop job s) as (? & ? & ? & -> & _).
    simpl. unfold job_outcome, closing, calm. simpl.
    destruct (workshop !! name job) as [cls|] eqn:Hcls; [|by intros [= <-]].
    unfold workshop in Hcls.
    apply lookup_insert_Some in Hcls as [[_ <-]|[_ Hcls]];
      [simpl; by intros [= <-]|].
    apply lookup_insert_Some in Hcls as [[_ <-]|[_ Hcls]]; [done|].
    by rewrite lookup_empty in Hcls. }
  assert (Forall (undisturbed workshop) [calm; calm; calm]) as Hall
    by (do 3 (apply List.Forall_cons; [exact Hcalm|]);
        apply List.Forall_nil).
  split; [exact Hu|]. split; [exact Hall|].
  exact (worker_works_through_the_queue chromium (queue "report")
           0 "w" workshop [calm; calm; calm] Hu Hall).
Defined.

End WorkerMore.

(** * Starting a worker

    [start_worker] of [src/browserq/worker.py], and the worker name that
    [main] of [app/worker.py] makes up. *)
Module Startup.
Import Database Worker.

(** What [start_worker] can raise: the [FileNotFoundError] of its own, or
    what one of its calls raises. *)
Inductive error :=
  | FileNotFoundError (path : string)
  | Raised (e : exn).

(** The calls [start_worker] makes, in the order it makes them;
    [WorkerLoop] carries the trace of the worker. *)
Inductive call :=
  | PathExists (path : string)
  | CollectJobsDefs (jobs_path : string)
  | CreateConnection (db_path : string)
  | EnterPlaywright
  | WorkerLoop (name_ : string) (tr : list event)
  | ExitPlaywright
  | CloseConnection.

#[global] Instance call_inhabited : Inhabited call := populate EnterPlaywright.

(** What the calls of [start_worker] meet outside. *)
Record Host := mkHost {
  path_exists : string → bool;          (* [os.path.exists] *)
  cwd : string;                         (* [Path().absolute()] *)
  collect_jobs_defs : string → result (gmap string JobClass);
  create_connection : string → result DB;
  enter_playwright : result unit;       (* entering [async_playwright()] *)
  launch : result Browser;
  started : Z;
  worlds : list World;
  exit_playwright : result unit;        (* leaving [async_playwright()] *)
  close_connection : result unit        (* [conn.close()] *)
}.

Inductive outcome :=
  | Running               (* the worker is still in its loop *)
  | Returned
  | Failed (e : error).

(** Leaving a [finally] or an [async with] whose cleanup ends with
    [cleanup]: an exception of the cleanup replaces the outcome. *)
Definition leaving (cleanup : result unit) (r : outcome) : outcome :=
  match cleanup with
  | Raise e => Failed (Raised e)
  | Ok _ => r
  end.

(** [jobs_path or Path().absolute()]. *)
Definition or_cwd (h : Host) (jobs_path : option string) : string :=
  match jobs_path with
  | Some (String _ _ as p) => p
  | _ => cwd h
  end.

(** Lines 133 and 134: [async with async_playwright() as p: await
    worker_loop(...)]. *)
Definition in_playwright (h : Host) (conn : DB) (name_ : string)
    (jobs_defs : gmap string JobClass) : list call * outcome :=
  match enter_playwright h with
  | Raise e => ([EnterPlaywright], Failed (Raised e))
  | Ok _ =>
      let out :=
        worker_loop (launch h) conn (started h) name_ jobs_defs (worlds h) in
      match out.2 with
      | None => ([EnterPlaywright; WorkerLoop name_ (trace out.1)], Running)
      | Some r =>
          ([EnterPlaywright; WorkerLoop name_ (trace out.1); ExitPlaywright],
           leaving (exit_playwright h)
             match r with
             | Ok _ => Returned
             | Raise e => Failed (Raised e)
             end)
      end
  end.

(** [start_worker(name, db_path, jobs_path)]. *)
Definition start_worker (h : Host) (name_ db_path : string)
    (jobs_path : option string) : list call * outcome :=
  if negb (path_exists h db_path) then
    ([PathExists db_path], Failed (FileNotFoundError db_path))
  else
    let jobs_path := or_cwd h jobs_path in
    match collect_jobs_defs h jobs_path with
    | Raise e =>
        ([PathExists db_path; CollectJobsDefs jobs_path], Failed (Raised e))
    | Ok jobs_defs =>
        match create_connection h db_path with
        | Raise e =>
            ([PathExists db_path; CollectJobsDefs jobs_path;
              CreateConnection db_path], Failed (Raised e))
        | Ok conn =>
            let inner := in_playwright h conn name_ jobs_defs in
            match inner.2 with
            | Running =>
                ([PathExists db_path; CollectJobsDefs jobs_path;
                  CreateConnection db_path] ++ inner.1, Running)
            | r =>
                ([PathExists db_path; CollectJobsDefs jobs_path;
                  CreateConnection db_path] ++ inner.1 ++ [CloseConnection],
                 leaving (close_connection h) r)
            end
        end
    end.

(** ** The name of a worker *)

(** [string.ascii_letters + string.digits]. *)
Definition chars : string :=
  "abcdefghijklmnopqrstuvwxyzABCDEFGHIJKLMNOPQRSTUVWXYZ0123456789".

(** [random.choice(seq)] when the generator draws the index [k], which is
    below [len(seq)]: [seq[k]]. *)
Definition choice (seq_ : string) (k : nat) : option Ascii.ascii :=
  String.get k seq_.

(** [_get_random_chars(length)]; [draws] are the indices the generator
    draws, in the order of the calls. *)
Definition _get_random_chars (length_ : Z) (draws : nat → nat)
    : option string :=
  String.string_of_list_ascii <$>
    mapM (λ i, choice chars (draws i)) (seq 0 (Z.to_nat length_)).

(** The name [main] gives its worker: [f"worker_{_get_random_chars(8)}"]. *)
Definition worker_name (draws : nat → nat) : option string :=
  (λ s, "worker_" +:+ s) <$> _get_random_chars 8 draws.

End Startup.

Module StartupFacts.
Import Database Worker Startup.

Lemma length_string_of_list_ascii l :
  String.length (String.string_of_list_ascii l) = length l.
Proof. induction l as [|a l IH]; simpl; congruence. Qed.

Lemma length_append_string (s1 s2 : string) :
  String.length (s1 +:+ s2) = String.length s1 + String.length s2.
Proof. induction s1 as [|a s1 IH]; simpl; [done|by rewrite IH]. Qed.

Lemma get_string_of_list_ascii l i :
  String.get i (String.string_of_list_ascii l) = l !! i.
Proof.
  revert i. induction l as [|a l IH]; intros [|i]; simpl; try done.
Qed.

Lemma get_Some_elem s i c :
  String.get i s = Some c → c ∈ String.list_ascii_of_string s.
Proof.
  revert i. induction s as [|a s IH]; intros [|i]; simpl; try done.
  - intros [= ->]. by left.
  - intros Hc. right. by eapply IH.
Qed.

Lemma get_is_Some s i : i < String.length s → is_Some (String.get i s).
Proof.
  revert i. induction s as [|a s IH]; intros [|i]; simpl; try lia.
  - by eexists.
  - intros Hi. apply IH. lia.
Qed.

(** X20: given draws that are indices into the 62 letters and digits,
    [_get_random_chars(length)] returns a string of [length] characters
    (none for a negative [length]), the character at each place being the
    one drawn for it, and so a letter or a digit; the name [main] gives the
    worker is [worker_] followed by 8 such characters. *)
Theorem get_random_chars_are_alphanumeric length_ draws :
  (∀ i, draws i < String.length chars) →
  ∃ s,
    _get_random_chars length_ draws = Some s ∧
    String.length s = Z.to_nat length_ ∧
    (∀ i, i < Z.to_nat length_ →
          String.get i s = String.get (draws i) chars) ∧
    Forall (λ c, c ∈ String.list_ascii_of_string chars)
      (String.list_ascii_of_string s) ∧
    (length_ = 8%Z →
     worker_name draws = Some ("worker_" +:+ s) ∧
     String.length ("worker_" +:+ s) = 15).
Proof.
  intros Hdraws. unfold worker_name, _get_random_chars.
  destruct (mapM (λ i, choice chars (draws i)) (seq 0 (Z.to_nat length_)))
    as [l|] eqn:Hl.
  2:{ apply mapM_None_1 in Hl. apply Exists_exists in Hl as (i & _ & Hi).
      destruct (get_is_Some chars (draws i) (Hdraws i)) as [c Hc].
      unfold choice in Hi. by rewrite Hc in Hi. }
  pose proof (length_mapM _ _ _ Hl) as Hlen. rewrite length_seq in Hlen.
  pose proof Hl as Hl'. apply mapM_Some_1 in Hl.
  assert (∀ i, i < Z.to_nat length_ → l !! i = String.get (draws i) chars)
    as Hget.
  { intros i Hi.
    destruct (Forall2_lookup_l _ _ _ i i Hl) as (c & Hc & Hch).
    - by apply lookup_seq.
    - by rewrite Hc. }
  exists (String.string_of_list_ascii l). split_and!.
  - done.
  - by rewrite length_string_of_list_ascii.
  - intros i Hi. rewrite get_string_of_list_ascii. by apply Hget.
  - rewrite String.list_ascii_of_string_of_list_ascii.
    apply Forall_lookup_2. intros i c Hc.
    pose proof (lookup_lt_Some _ _ _ Hc) as Hi. rewrite <-Hlen in Hi.
    rewrite (Hget i Hi) in Hc. exact (get_Some_elem chars _ _ Hc).
  - intros ->. split.
    + by rewrite Hl'.
    + rewrite length_append_string, length_string_of_list_ascii, <-Hlen.
      done.
Qed.

(** The draws 0, 1, 2, ... *)
Definition in_turn (i : nat) : nat := i `mod` 62.

Lemma get_random_chars_are_alphanumeric_witness :
  (∀ i, in_turn i < String.length chars) ∧
  ∃ s,
    _get_random_chars 8 in_turn = Some s ∧
    String.length s = Z.to_nat 8 ∧
    (∀ i, i < Z.to_nat 8 →
          String.get i s = String.get (in_turn i) chars) ∧
    Forall (λ c, c ∈ String.list_ascii_of_string chars)
      (String.list_ascii_of_string s) ∧
    (8%Z = 8%Z →
     worker_name in_turn = Some ("worker_" +:+ s) ∧
     String.length ("worker_" +:+ s) = 15).
Proof.
  assert (∀ i, in_turn i < String.length chars) as Hdraws.
  { intros i. unfold in_turn.
    change (String.length chars) with 62. apply Nat.mod_upper_bound. lia. }
  split; [exact Hdraws|].
  exact (get_random_chars_are_alphanumeric 8 in_turn Hdraws).
Defined.

(** The worker [main] starts when the generator draws 0, 1, 2, ... *)
Example worker_abcdefgh : worker_name in_turn = Some "worker_abcdefgh".
Proof. reflexivity. Qed.

(** ** The connection *)

(** X21: [start_worker] raises [FileNotFoundError] for a database file
    that does not exist, before it has collected the jobs or opened
    anything.  Once it has opened the connection it closes it on every way
    out, as its last call, after Playwright has been left if it was
    entered; an exception of that close replaces the result. *)
Theorem connection_is_closed_on_exit h name_ db_path jobs_path :
  (path_exists h db_path = false →
   start_worker h name_ db_path jobs_path =
     ([PathExists db_path], Failed (FileNotFoundError db_path))) ∧
  (∀ jobs_defs conn,
     path_exists h db_path = true →
     collect_jobs_defs h (or_cwd h jobs_path) = Ok jobs_defs →
     create_connection h db_path = Ok conn →
     (start_worker h name_ db_path jobs_path).2 ≠ Running →
     (∃ mid,
        (start_worker h name_ db_path jobs_path).1 =
          [PathExists db_path; CollectJobsDefs (or_cwd h jobs_path);
           CreateConnection db_path; EnterPlaywright] ++ mid ++
          [CloseConnection] ∧
        (mid = [] ∨
         mid = [WorkerLoop name_
                  (trace (worker_loop (launch h) conn (started h) name_
                            jobs_defs (worlds h)).1);
                ExitPlaywright])) ∧
     (∀ e, close_connection h = Raise e →
           (start_worker h name_ db_path jobs_path).2 = Failed (Raised e))) ∧
  (CloseConnection ∈ (start_worker h name_ db_path jobs_path).1 →
   ∃ conn, create_connection h db_path = Ok conn).
Proof.
  unfold start_worker, in_playwright. split_and!.
  - by intros ->.
  - intros jobs_defs conn -> -> ->. simpl.
    destruct (enter_playwright h) as [[]|e1]; simpl.
    + destruct (worker_loop _ _ _ _ _ _) as [s [r|]]; simpl; [|done].
      destruct r as [[]|e2], (exit_playwright h) as [[]|e3]; simpl;
        intros _;
        (split; [exists [WorkerLoop name_ (trace s); ExitPlaywright];
                 split; [reflexivity|by right]
                |by intros e ->]).
    + intros _. split.
      * exists []. split; [reflexivity|by left].
      * by intros e ->.
  - destruct (path_exists h db_path); simpl.
    2:{ intros Hin. apply list_elem_of_singleton in Hin. discriminate. }
    destruct (collect_jobs_defs h (or_cwd h jobs_path)) as [jobs_defs|e0].
    2:{ intros Hin. simpl in Hin.
        repeat (apply elem_of_cons in Hin as [Hin|Hin]; [discriminate|]).
        by apply not_elem_of_nil in Hin. }
    destruct (create_connection h db_path) as [conn|e0]; [by eexists|].
    intros Hin. simpl in Hin.
    repeat (apply elem_of_cons in Hin as [Hin|Hin]; [discriminate|]).
    by apply not_elem_of_nil in Hin.
Qed.

(** A host with a browser that launches and closes, an empty database,
    and a worker that is cancelled in its first sleep. *)
Definition quiet_host : Host :=
  mkHost (λ _, true) "/srv" (λ _, Ok ∅)
    (λ _, Ok (mkDB [] [] 0 0)) (Ok tt) (Ok WorkerFacts.chromium) 0
    [mkWorld 0 100 101 (Raise CancelledError) (Ok tt) (Ok tt) false (Ok tt)
       (Ok tt)]
    (Ok tt) (Ok tt).

Example quiet_host_returns :
  start_worker quiet_host "w" "jobs.db" None =
    ([PathExists "jobs.db"; CollectJobsDefs "/srv"; CreateConnection "jobs.db";
      EnterPlaywright;
      WorkerLoop "w"
        [Log "w" INFO ReadyToWork; Launch; GetNextJob "w" None; Sleep 5;
         Log "w" INFO ShuttingDownWorker; CloseBrowser 5 1];
      ExitPlaywright; CloseConnection],
     Returned).
Proof. reflexivity. Qed.

End StartupFacts.
